(** * Trending-score pipeline of the Envio service (apps/Envio/src/index.ts)

    A shallow embedding of [calculateTrendingScore], of the batch scheduler
    [analyzeAndStoreTokens] and of the background-triggered HTTP routes,
    together with the properties the specification states about them; and of
    the maintenance jobs [updateAllTokenScores] and [addNewTokens], the
    hourly job, [stringifyBigInts] and the reading routes, with further
    properties of the code.

    Conventions of the embedding:
    - a JavaScript number is an extended rational ([JS.number]): finite
      values are exact rationals, and the three non-finite values NaN,
      +Infinity and -Infinity are kept so that propagation of NaN and
      saturation of infinities are visible; the sign of zero is not
      represented.  The operations of [JS] are exact; [JS.round64] rounds
      a rational to binary64, and [Double] has the sum of the score with
      every literal and operation rounded, as the code computes it;
    - a string is the sequence of its code units: those below 256 in a
      [string], any in a list of integers ([Trending.units]);
    - an [async] function is a machine that runs from one [await] to the
      next; the order in which suspended tasks are resumed, and what each
      awaited collaborator answers, is an input of the run (a schedule);
    - the Redis store is a finite map from keys to the records whose JSON
      text the program stores. *)

From Stdlib Require Import QArith Qround ZArith Lia Lqa Ascii DecimalString.
From Stdlib Require SpecFloat.
From stdpp Require Import gmap strings list sorting.

Local Open Scope Z_scope.

(** ** JavaScript numbers and the [Math] functions used by the service *)

Module JS.

Inductive number : Type :=
| Fin (q : Q)
| PInf
| NInf
| NaN.

Declare Scope js_scope.
Delimit Scope js_scope with js.
Bind Scope js_scope with number.


(** [x + y] *)
Definition add (x y : number) : number :=
  match x, y with
  | NaN, _ | _, NaN => NaN
  | PInf, NInf | NInf, PInf => NaN
  | PInf, _ | _, PInf => PInf
  | NInf, _ | _, NInf => NInf
  | Fin a, Fin b => Fin (a + b)
  end.

Definition inf_of_sign (c : comparison) : number :=
  match c with Gt => PInf | Lt => NInf | Eq => NaN end.

(** [x - y] *)
Definition sub (x y : number) : number :=
  match x, y with
  | NaN, _ | _, NaN => NaN
  | PInf, PInf | NInf, NInf => NaN
  | PInf, _ | _, NInf => PInf
  | NInf, _ | _, PInf => NInf
  | Fin a, Fin b => Fin (a - b)
  end.

(** [x * y]; zero times an infinity is NaN *)
Definition mul (x y : number) : number :=
  match x, y with
  | NaN, _ | _, NaN => NaN
  | Fin a, Fin b => Fin (a * b)
  | Fin a, PInf | PInf, Fin a => inf_of_sign (a ?= 0)%Q
  | Fin a, NInf | NInf, Fin a => inf_of_sign (0 ?= a)%Q
  | PInf, PInf | NInf, NInf => PInf
  | PInf, NInf | NInf, PInf => NInf
  end.

(** [x / y]; a zero divisor is taken as +0 *)
Definition div (x y : number) : number :=
  match x, y with
  | NaN, _ | _, NaN => NaN
  | Fin a, Fin b =>
      if Qeq_bool b 0%Q then inf_of_sign (a ?= 0)%Q else Fin (a / b)
  | Fin _, (PInf | NInf) => Fin 0%Q
  | PInf, Fin b => if Qle_bool 0%Q b then PInf else NInf
  | NInf, Fin b => if Qle_bool 0%Q b then NInf else PInf
  | (PInf | NInf), (PInf | NInf) => NaN
  end.

(** [x < y]; false when either side is NaN *)
Definition lt (x y : number) : bool :=
  match x, y with
  | NaN, _ | _, NaN => false
  | PInf, _ | _, NInf => false
  | NInf, _ | _, PInf => true
  | Fin a, Fin b => match (a ?= b)%Q with Lt => true | _ => false end
  end.

(** [Math.min(x, y)]: NaN if either argument is NaN, else the smaller *)
Definition Math_min (x y : number) : number :=
  match x, y with
  | NaN, _ | _, NaN => NaN
  | NInf, _ | _, NInf => NInf
  | PInf, z | z, PInf => z
  | Fin a, Fin b => if Qle_bool a b then Fin a else Fin b
  end.

(** [Math.max(x, y)]: NaN if either argument is NaN, else the larger *)
Definition Math_max (x y : number) : number :=
  match x, y with
  | NaN, _ | _, NaN => NaN
  | PInf, _ | _, PInf => PInf
  | NInf, z | z, NInf => z
  | Fin a, Fin b => if Qle_bool a b then Fin b else Fin a
  end.

(** [Math.round(x)]: the integer closest to [x], ties towards +Infinity,
    that is [floor(x + 1/2)]; NaN and the infinities are returned as is *)
Definition Math_round (x : number) : number :=
  match x with
  | Fin q => Fin (inject_Z (Qfloor (q + (1 # 2))%Q))
  | _ => x
  end.

(** Number literal of an integer *)
Definition int (z : Z) : number := Fin (inject_Z z).

Notation "x + y" := (add x y) : js_scope.
Notation "x - y" := (sub x y) : js_scope.
Notation "x * y" := (mul x y) : js_scope.
Notation "x / y" := (div x y) : js_scope.

(** *** Rounding to binary64 *)

(** [floor (log2 |q|)] for a rational other than 0: with [2 ^ a <= n <
    2 ^ (a + 1)] and [2 ^ b <= d < 2 ^ (b + 1)], it is [a - b] when
    [2 ^ (a - b) <= n / d] and [a - b - 1] otherwise. *)
Definition magnitude (q : Q) : Z :=
  let n := Z.abs (Qnum q) in
  let d := Zpos (Qden q) in
  let a := Z.log2 n in
  let b := Z.log2 d in
  if d * 2 ^ a <=? n * 2 ^ b then a - b else a - b - 1.

(** [q / 2 ^ e] *)
Definition scaled (q : Q) (e : Z) : Q :=
  if e <? 0 then (q * inject_Z (2 ^ (- e)))%Q else (q / inject_Z (2 ^ e))%Q.

(** The integer nearest to [q]; of two that are as near, the even one. *)
Definition nearest_even (q : Q) : Z :=
  let f := Qfloor q in
  match (q - inject_Z f ?= 1 # 2)%Q with
  | Lt => f
  | Gt => f + 1
  | Eq => if Z.even f then f else f + 1
  end.

(** [m * 2 ^ e] *)
Definition dyadic (m e : Z) : Q :=
  if e <? 0 then m # Z.to_pos (2 ^ (- e)) else inject_Z (m * 2 ^ e).

(** The Number value of a real: the binary64 number nearest to [q], ties to
    the even significand.  A binary64 number is [m * 2 ^ e] with
    [|m| < 2 ^ 53] and [-1074 <= e <= 971]; around [q] the exponent is the
    one that puts [|q| / 2 ^ e] in [2 ^ 52, 2 ^ 53), or -1074 for the
    subnormal numbers; what rounds to [2 ^ 1024] or beyond is infinite. *)
Definition round64 (q : Q) : number :=
  if Qeq_bool q 0 then Fin 0
  else
    let e := Z.max (magnitude q - 52) (-1074) in
    let m := nearest_even (scaled q e) in
    if (971 <? e) || ((e =? 971) && (2 ^ 53 <=? Z.abs m))
    then (if 0 <? Qnum q then PInf else NInf)
    else Fin (Qred (dyadic m e)).

(** The result of an arithmetic operation, rounded. *)
Definition rounded (x : number) : number :=
  match x with
  | Fin q => round64 q
  | _ => x
  end.

(** [lo <= x <= hi] for a finite [x]; false of NaN and of the infinities *)
Definition between (lo hi : Q) (x : number) : Prop :=
  match x with
  | Fin q => (lo <= q)%Q /\ (q <= hi)%Q
  | _ => False
  end.

(** The result of [ToIntegerOrInfinity]. *)
Inductive integer : Type :=
| Int (z : Z)
| PlusInf
| MinusInf.

(** Truncation towards zero. *)
Definition truncate (q : Q) : Z :=
  if Qle_bool 0%Q q then Qfloor q else Qceiling q.

Definition ToIntegerOrInfinity (x : number) : integer :=
  match x with
  | NaN => Int 0
  | PInf => PlusInf
  | NInf => MinusInf
  | Fin q => Int (truncate q)
  end.

(** The index an argument of [slice] denotes in an array of length [len]:
    a negative argument counts from the end. *)
Definition relative_index (len : Z) (i : integer) : Z :=
  match i with
  | MinusInf => 0
  | PlusInf => len
  | Int z => if z <? 0 then Z.max (len + z) 0 else Z.min z len
  end.

(** [Array.prototype.slice(start, end)] *)
Definition Array_slice {A : Type} (l : list A) (start end_ : integer) : list A :=
  let len := Z.of_nat (length l) in
  let k := relative_index len start in
  let final := relative_index len end_ in
  take (Z.to_nat (final - k)) (drop (Z.to_nat k) l).


(** Truthiness of a number: false of 0 and of NaN. *)
Definition number_truthy (x : number) : bool :=
  match x with
  | Fin q => negb (Qeq_bool q 0%Q)
  | NaN => false
  | PInf | NInf => true
  end.

(** Truthiness of a string: false of the empty string. *)
Definition string_truthy (s : string) : bool :=
  match s with
  | EmptyString => false
  | String _ _ => true
  end.

(** A string is a sequence of code units below 256 (the Latin-1 part of
    UTF-16).  White space and line terminators skipped by [parseInt]: tab,
    line feed, vertical tab, form feed, carriage return, space and the
    no-break space U+00A0, the only ones below 256. *)
Definition is_whitespace (c : Ascii.ascii) : bool :=
  let n := nat_of_ascii c in
  (Nat.eqb n 9 || Nat.eqb n 10 || Nat.eqb n 11 || Nat.eqb n 12
   || Nat.eqb n 13 || Nat.eqb n 32 || Nat.eqb n 160)%bool.

Fixpoint trim_start (s : string) : string :=
  match s with
  | String c rest => if is_whitespace c then trim_start rest else s
  | EmptyString => s
  end.

(** The value of a character as a digit: 0-9, then a-z or A-Z as 10-35. *)
Definition digit_value (c : ascii) : option Z :=
  let n := Z.of_nat (nat_of_ascii c) in
  if (48 <=? n) && (n <=? 57) then Some (n - 48)
  else if (97 <=? n) && (n <=? 122) then Some (n - 87)
  else if (65 <=? n) && (n <=? 90) then Some (n - 55)
  else None.

(** The value of the longest prefix of [s] made of digits of [radix];
    [acc] when that prefix is empty. *)
Fixpoint leading_digits (radix : Z) (s : string) (acc : option Z) : option Z :=
  match s with
  | String c rest =>
      match digit_value c with
      | Some d =>
          if d <? radix
          then leading_digits radix rest
                 (Some (match acc with Some a => a | None => 0 end * radix + d))
          else acc
      | None => acc
      end
  | EmptyString => acc
  end.

(** [parseInt(input)] with no radix; [None] is [undefined], whose string
    form starts with no digit. *)
Definition parseInt (input : option string) : number :=
  match input with
  | None => NaN
  | Some s =>
      let s := trim_start s in
      let '(sign, s) :=
        match s with
        | String "-" rest => (-1, rest)
        | String "+" rest => (1, rest)
        | _ => (1, s)
        end in
      let '(radix, s) :=
        match s with
        | String "0" (String "x" rest) | String "0" (String "X" rest) => (16, rest)
        | _ => (10, s)
        end in
      match leading_digits radix s None with
      | None => NaN
      | Some n => round64 (inject_Z (sign * n))
      end
  end.

(** [toLowerCase] on a code unit below 256: the capital letters are A-Z,
    U+00C0-U+00D6 and U+00D8-U+00DE, and the small letter of each is 32
    further; no other code unit below 256 changes. *)
Definition lower (c : ascii) : ascii :=
  let n := nat_of_ascii c in
  if ((Nat.leb 65 n && Nat.leb n 90) || (Nat.leb 192 n && Nat.leb n 214)
      || (Nat.leb 216 n && Nat.leb n 222))%bool
  then ascii_of_nat (n + 32) else c.

Fixpoint toLowerCase (s : string) : string :=
  match s with
  | String c rest => String (lower c) (toLowerCase rest)
  | EmptyString => EmptyString
  end.

(** [Array.prototype.sort(compare)]: the sort is stable, and [a] is kept
    before [b] unless [compare(a, b)] is positive. *)
Definition positive (x : number) : bool :=
  match x with
  | Fin q => negb (Qle_bool q 0%Q)
  | PInf => true
  | NInf | NaN => false
  end.

Fixpoint insert_sorted {A : Type} (compare : A -> A -> number) (x : A)
    (l : list A) : list A :=
  match l with
  | [] => [x]
  | y :: rest =>
      if positive (compare y x) then x :: y :: rest
      else y :: insert_sorted compare x rest
  end.

Definition Array_sort {A : Type} (compare : A -> A -> number) (l : list A)
    : list A :=
  fold_left (fun sorted x => insert_sorted compare x sorted) l [].

(** Two numbers denote the same value: rationals are compared by [Qeq]. *)
Definition same (x y : number) : Prop :=
  match x, y with
  | Fin a, Fin b => (a == b)%Q
  | PInf, PInf | NInf, NInf | NaN, NaN => True
  | _, _ => False
  end.

End JS.

(** ** The composite trending score *)

Module Scoring.
Import JS.

(** The [metrics: any] argument: the six properties the function reads,
    each either absent ([None], JavaScript [undefined]) or a number. *)
Record Metrics : Type := mkMetrics {
  activityScore : option number;
  liquidityHealthScore : option number;
  momentumScore : option number;
  distributionScore : option number;
  buyVsSellRatio : option number;
  priceChange24h : option number;
}.

(** A destructuring default [{ x = d } = metrics]: [d] when the property is
    [undefined]. *)
Definition or_default (d : number) (field : option number) : number :=
  match field with
  | Some v => v
  | None => d
  end.

(** The weighted sum of lines 45-51 in exact arithmetic: the products and
    the sums are not rounded ([Double.weighted_sum] is the sum as binary64
    arithmetic gives it). *)
Definition weighted_sum (metrics : Metrics) : number :=
  let activityScore := or_default (int 0) (activityScore metrics) in
  let liquidityHealthScore := or_default (int 0) (liquidityHealthScore metrics) in
  let momentumScore := or_default (int 0) (momentumScore metrics) in
  let distributionScore := or_default (int 0) (distributionScore metrics) in
  let buyVsSellRatio := or_default (int 1) (buyVsSellRatio metrics) in
  let priceChange24h := or_default (int 0) (priceChange24h metrics) in
  (activityScore * Fin 0.25%Q +
   liquidityHealthScore * Fin 0.2%Q +
   distributionScore * Fin 0.15%Q +
   momentumScore * Fin 0.1%Q +
   Math_min buyVsSellRatio (int 100) * Fin 0.1%Q +
   Math_max priceChange24h (int (-100)) / int 2)%js.

(** [calculateTrendingScore], lines 35-54, on the exact sum: the sum is
    rounded to an integer first and the integer is then clamped to
    [0, 100]. *)
Definition calculateTrendingScore (metrics : Metrics) : number :=
  let score := weighted_sum metrics in
  Math_max (int 0) (Math_min (int 100) (Math_round score)).

(** *** The formula as the specification writes it *)

(** [clamp(v, lo, hi)] *)
Definition clamp (v lo hi : number) : number :=
  Math_min (Math_max v lo) hi.

(** The metrics of the specification's worked example. *)
Definition example_metrics : Metrics :=
  {| activityScore := Some (int 80);
     liquidityHealthScore := Some (int 50);
     momentumScore := Some (int 30);
     distributionScore := Some (int 60);
     buyVsSellRatio := Some (int 2);
     priceChange24h := Some (int 10) |}.



End Scoring.

(** ** The composite score in binary64 arithmetic *)

Module Double.
Import JS Scoring.

Declare Scope double_scope.
Delimit Scope double_scope with double.

(** [x + y], [x * y] and [x / y] of the language: the exact result, rounded
    to binary64. *)
Definition add (x y : number) : number := rounded (JS.add x y).
Definition mul (x y : number) : number := rounded (JS.mul x y).
Definition div (x y : number) : number := rounded (JS.div x y).

Arguments add (x y)%_double_scope.
Arguments mul (x y)%_double_scope.
Arguments div (x y)%_double_scope.

Notation "x + y" := (add x y) : double_scope.
Notation "x * y" := (mul x y) : double_scope.
Notation "x / y" := (div x y) : double_scope.

(** A decimal literal: the binary64 number nearest to it. *)
Definition literal (q : Q) : number := round64 q.

(** The sum of lines 45-51, each product, quotient and sum rounded, from
    left to right. *)
Definition weighted_sum (metrics : Metrics) : number :=
  let activityScore := or_default (int 0) (activityScore metrics) in
  let liquidityHealthScore := or_default (int 0) (liquidityHealthScore metrics) in
  let momentumScore := or_default (int 0) (momentumScore metrics) in
  let distributionScore := or_default (int 0) (distributionScore metrics) in
  let buyVsSellRatio := or_default (int 1) (buyVsSellRatio metrics) in
  let priceChange24h := or_default (int 0) (priceChange24h metrics) in
  (activityScore * literal 0.25 +
   liquidityHealthScore * literal 0.2 +
   distributionScore * literal 0.15 +
   momentumScore * literal 0.1 +
   Math_min buyVsSellRatio (int 100) * literal 0.1 +
   Math_max priceChange24h (int (-100)) / int 2)%double.

(** [calculateTrendingScore], lines 35-54: the sum is rounded to an integer
    first and the integer is then clamped to [0, 100]. *)
Definition calculateTrendingScore (metrics : Metrics) : number :=
  let score := weighted_sum metrics in
  Math_max (int 0) (Math_min (int 100) (Math_round score)).

(** *** The formula as the specification writes it *)

(** The specification's composite score, in the same arithmetic: the sum is
    clamped to [0, 100] first and the clamped value is then rounded to an
    integer. *)
Definition spec_score (metrics : Metrics) : number :=
  let activity := or_default (int 0) (activityScore metrics) in
  let liquidity := or_default (int 0) (liquidityHealthScore metrics) in
  let momentum := or_default (int 0) (momentumScore metrics) in
  let distribution := or_default (int 0) (distributionScore metrics) in
  let buyVsSellRatio := or_default (int 1) (buyVsSellRatio metrics) in
  let priceChange24h := or_default (int 0) (priceChange24h metrics) in
  Math_round
    (clamp
       (activity * literal 0.25 + liquidity * literal 0.20
        + distribution * literal 0.15 + momentum * literal 0.10
        + Math_min buyVsSellRatio (int 100) * literal 0.10
        + clamp priceChange24h (int (-100)) PInf / int 2)%double
       (int 0) (int 100)).

(** Metrics on which the rounding of the arithmetic shows: the exact sum is
    3/2, the sum of the code is just below. *)
Definition just_below_half : Metrics :=
  {| activityScore := None;
     liquidityHealthScore := None;
     momentumScore := Some (int 4);
     distributionScore := Some (int 6);
     buyVsSellRatio := Some (int 2);
     priceChange24h := None |}.

(** *** The Standard Library's binary64 *)

(** The number a [spec_float] denotes. *)
Definition of_spec (f : SpecFloat.spec_float) : number :=
  match f with
  | SpecFloat.S754_zero _ => Fin 0
  | SpecFloat.S754_infinity s => if s then NInf else PInf
  | SpecFloat.S754_nan => NaN
  | SpecFloat.S754_finite s m e =>
      Fin (Qred (dyadic (if s then Z.neg m else Z.pos m) e))
  end.

(** The binary64 number [m * 2 ^ e], and the quotient of two integers, as
    the Standard Library computes them. *)
Definition spec_dyadic (m e : Z) : SpecFloat.spec_float :=
  SpecFloat.binary_normalize 53 1024 m e false.

Definition spec_quotient (n d : Z) : SpecFloat.spec_float :=
  SpecFloat.SFdiv 53 1024 (spec_dyadic n 0) (spec_dyadic d 0).

End Double.

(** ** The batch scheduler [analyzeAndStoreTokens] *)

Module Scheduler.
Import JS Scoring.

(** [TokenAddress] (declared in multichain/multichain-address.ts), with the
    properties index.ts reads and writes (lines 119-125 and 183-191). *)
Record TokenAddress : Type := mkToken {
  address : string;
  chainId : Z;
  chainName : string;
  firstSeenBlock : Z;
  firstSeenTimestamp : Z;
  ageInHours : number;
  transactionHash : string;
}.

(** The [metrics] object of a stored record (lines 127-133). *)
Record StoredMetrics : Type := mkStoredMetrics {
  m_activityScore : option number;
  m_liquidityHealthScore : option number;
  m_momentumScore : option number;
  m_distributionScore : option number;
  m_buyVsSellRatio : option number;
}.

(** The object whose JSON text is stored under a key (lines 118-134).  The
    JSON text of an object is never the empty string, so a stored value is
    always truthy. *)
Record CachedTokenRecord : Type := mkRecord {
  c_address : string;
  c_chainId : Z;
  c_chainName : string;
  trendingscore : number;
  block : Z;
  timestamp : Z;
  c_ageInHours : number;
  lastUpdated : Z;
  metrics : StoredMetrics;
}.

(** What the scheduler needs from the modules that are imported by index.ts:
    the element type of [getAllTokenTransactions]'s array, the value
    [metadata] resolves to, and the [OnChainAggregator] of aggregate.ts,
    used once per token as [addTransactions], [addTokenData],
    [analyzeOnChain]: it yields the metrics or throws. *)
Class Collaborators : Type := {
  Transaction : Type;
  TokenData : Type;
  analyzeOnChain : list Transaction -> TokenData -> string + Metrics;
}.

(** A line written to the console. *)
Inductive Line : Type :=
| LogProcessing (tokens : nat) (concurrency : number) (forceUpdate : bool)
| LogSample (addr : string) (score : number) (txs : nat) (chain : string)
| LogFailure (addr : string) (err : string)
| LogProgress (processed total updated skipped noData failed : Z)
| LogComplete (updated skipped noData failed : Z).

(** A command sent to a collaborator. *)
Inductive Call : Type :=
| CallGet (key : string)
| CallTransactions (addr : string)
| CallMetadata (addr : string)
| CallSet (key : string) (value : CachedTokenRecord).

(** What is observed of a run, in order: the token at position [pos] of
    the list enters its pipeline, sends a command, or its promise settles. *)
Inductive Event : Type :=
| Started (pos : nat)
| Called (pos : nat) (c : Call)
| Settled (pos : nat).

(** The five counters of lines 64-68. *)
Record Counters : Type := mkCounters {
  processed : Z;
  updated : Z;
  skipped : Z;
  failed : Z;
  noData : Z;
}.

Definition incr_processed (c : Counters) : Counters :=
  {| processed := processed c + 1; updated := updated c; skipped := skipped c;
     failed := failed c; noData := noData c |}.
Definition incr_updated (c : Counters) : Counters :=
  {| processed := processed c; updated := updated c + 1; skipped := skipped c;
     failed := failed c; noData := noData c |}.
Definition incr_skipped (c : Counters) : Counters :=
  {| processed := processed c; updated := updated c; skipped := skipped c + 1;
     failed := failed c; noData := noData c |}.
Definition incr_failed (c : Counters) : Counters :=
  {| processed := processed c; updated := updated c; skipped := skipped c;
     failed := failed c + 1; noData := noData c |}.
Definition incr_noData (c : Counters) : Counters :=
  {| processed := processed c; updated := updated c; skipped := skipped c;
     failed := failed c; noData := noData c + 1 |}.

Section Machine.
Context `{Collaborators}.

(** The state shared by the tasks of one call: the counters, the Redis
    store, the console, and the observed events. *)
Record State : Type := mkState {
  counters : Counters;
  store : gmap string CachedTokenRecord;
  console : list Line;
  trace : list Event;
}.

Definition count (f : Counters -> Counters) (s : State) : State :=
  {| counters := f (counters s); store := store s; console := console s;
     trace := trace s |}.
Definition write (key : string) (value : CachedTokenRecord) (s : State) : State :=
  {| counters := counters s; store := <[key := value]> (store s);
     console := console s; trace := trace s |}.
Definition log (l : Line) (s : State) : State :=
  {| counters := counters s; store := store s; console := console s ++ [l];
     trace := trace s |}.
Definition emit (e : Event) (s : State) : State :=
  {| counters := counters s; store := store s; console := console s;
     trace := trace s ++ [e] |}.

(** Where the task of one token stands: suspended at one of the four
    [await]s of the arrow function of lines 74-146, or settled. *)
Inductive Point : Type :=
| AwaitGet
| AwaitTransactions
| AwaitMetadata (transactions : option (list Transaction))
| AwaitSet (key : string) (value : CachedTokenRecord)
| Fulfilled
| RejectedWith (err : string).

Record Task : Type := mkTask {
  pos : nat;
  token : TokenAddress;
  point : Point;
}.

Definition move (t : Task) (p : Point) : Task :=
  {| pos := pos t; token := token t; point := p |}.

(** What an awaited promise settles with.  [client.get] resolves with
    the value the store holds when it resolves; [getAllTokenTransactions]
    with an array or with nothing; [metadata] with data or with nothing. *)
Inductive Reply : Type :=
| Rejected (err : string)
| GotData
| GotTransactions (transactions : option (list Transaction))
| GotMetadata (analysis : option TokenData)
| SetDone.

(** How the body of the [try] block leaves a run between two [await]s. *)
Inductive Completion : Type :=
| Suspend (next : Point) (c : Call)
| Return
| Throw (err : string).

(** The object passed to [JSON.stringify] at lines 118-134. *)
Definition record_of (token : TokenAddress) (trendingScore : number)
    (now : Z) (onChainMetrics : Metrics) : CachedTokenRecord :=
  {| c_address := address token;
     c_chainId := chainId token;
     c_chainName := chainName token;
     trendingscore := trendingScore;
     block := firstSeenBlock token;
     timestamp := firstSeenTimestamp token;
     c_ageInHours := ageInHours token;
     lastUpdated := now;
     metrics :=
       {| m_activityScore := activityScore onChainMetrics;
          m_liquidityHealthScore := liquidityHealthScore onChainMetrics;
          m_momentumScore := momentumScore onChainMetrics;
          m_distributionScore := distributionScore onChainMetrics;
          m_buyVsSellRatio := buyVsSellRatio onChainMetrics |} |}.

(** Lines 89-135, run when [metadata] has resolved: validation, scoring,
    the sample log line, and the [client.set] command. *)
Definition validate_and_score (token : TokenAddress)
    (transactions : option (list Transaction)) (analysis : option TokenData)
    (now : Z) (s : State) : State * Completion :=
  match transactions with
  | None | Some [] => (count incr_noData s, Return)
  | Some transactions =>
      match analysis with
      | None => (count incr_noData s, Return)
      | Some analysis =>
          match analyzeOnChain transactions analysis with
          | inl err => (s, Throw err)
          | inr onChainMetrics =>
              let trendingScore := calculateTrendingScore onChainMetrics in
              let s :=
                if (updated (counters s) <? 5)
                   || (Z.rem (updated (counters s)) 100 =? 0)
                then log (LogSample (address token) trendingScore
                            (length transactions) (chainName token)) s
                else s in
              let value := record_of token trendingScore now onChainMetrics in
              (s, Suspend (AwaitSet (address token) value)
                    (CallSet (address token) value))
          end
      end
  end.

(** The body of the [try] block (lines 76-137) from the [await] the task is
    suspended at, resumed with [reply], up to the next [await], [return] or
    throw.  A command of the store takes effect when its promise resolves:
    [client.get] reads the store at that moment and [client.set] has written
    it; a rejected command has no effect.  [None]: the reply is not one this
    [await] can receive, or the task has settled. *)
Definition try_body (forceUpdate : bool) (t : Task) (reply : Reply) (now : Z)
    (s : State) : option (State * Completion) :=
  match point t, reply with
  | (AwaitGet | AwaitTransactions | AwaitMetadata _ | AwaitSet _ _), Rejected err =>
      Some (s, Throw err)
  | AwaitGet, GotData =>
      let existingData := store s !! address (token t) in
      if bool_decide (is_Some existingData) && negb forceUpdate
      then Some (count incr_skipped s, Return)
      else Some (s, Suspend AwaitTransactions
                      (CallTransactions (address (token t))))
  | AwaitTransactions, GotTransactions transactions =>
      Some (s, Suspend (AwaitMetadata transactions)
                 (CallMetadata (address (token t))))
  | AwaitMetadata transactions, GotMetadata analysis =>
      Some (validate_and_score (token t) transactions analysis now s)
  | AwaitSet key value, SetDone =>
      Some (count incr_updated (write key value s), Return)
  | _, _ => None
  end.

(** The [catch] block, lines 138-142. *)
Definition catch_block (token : TokenAddress) (err : string) (s : State) : State :=
  let s := count incr_failed s in
  if failed (counters s) <=? 5 then log (LogFailure (address token) err) s
  else s.

(** The [finally] block, lines 143-145; the promise of the task then
    fulfils. *)
Definition finally_block (t : Task) (s : State) : Task * State :=
  (move t Fulfilled, emit (Settled (pos t)) (count incr_processed s)).

(** One resumption of a task: the [try] body up to the next [await], with
    the [catch] and [finally] blocks around it. *)
Definition resume (forceUpdate : bool) (t : Task) (reply : Reply) (now : Z)
    (s : State) : option (Task * State) :=
  match try_body forceUpdate t reply now s with
  | None => None
  | Some (s, Suspend next c) => Some (move t next, emit (Called (pos t) c) s)
  | Some (s, Return) => Some (finally_block t s)
  | Some (s, Throw err) => Some (finally_block t (catch_block (token t) err s))
  end.

(** [batch.map(async (token) => ...)], line 74: every task of the batch
    runs, in order, up to its first [await], the [client.get] of line 77. *)
Fixpoint start_batch (first : nat) (batch : list TokenAddress) (s : State)
    : list Task * State :=
  match batch with
  | [] => ([], s)
  | token :: rest =>
      let s := emit (Called first (CallGet (address token)))
                 (emit (Started first) s) in
      let '(pool, s) := start_batch (S first) rest s in
      ({| pos := first; token := token; point := AwaitGet |} :: pool, s)
  end.

(** [Promise.all(promises)]: rejected as soon as one promise is rejected,
    fulfilled when all are, pending otherwise. *)
Inductive Settlement : Type :=
| StillPending
| AllFulfilled
| SomeRejected (err : string).

Fixpoint Promise_all (pool : list Task) : Settlement :=
  match pool with
  | [] => AllFulfilled
  | t :: rest =>
      match point t with
      | RejectedWith err => SomeRejected err
      | Fulfilled => Promise_all rest
      | _ =>
          match Promise_all rest with
          | SomeRejected err => SomeRejected err
          | _ => StillPending
          end
      end
  end.

(** One step of the event loop: the task at index [who] of the current
    batch is resumed with [answer], the clock reading [clock]. *)
Record Entry : Type := mkEntry {
  who : nat;
  answer : Reply;
  clock : Z;
}.

(** [await Promise.all(promises)], line 148: tasks are resumed in the order
    of the schedule until the combined promise settles.  An entry that
    names no suspended task, or carries a reply its [await] cannot
    receive, is passed over. *)
Fixpoint await_all (forceUpdate : bool) (schedule : list Entry)
    (pool : list Task) (s : State) : list Entry * list Task * State :=
  match Promise_all pool, schedule with
  | StillPending, e :: schedule =>
      match pool !! who e with
      | Some t =>
          match resume forceUpdate t (answer e) (clock e) s with
          | Some (t, s) => await_all forceUpdate schedule (<[who e := t]> pool) s
          | None => await_all forceUpdate schedule pool s
          end
      | None => await_all forceUpdate schedule pool s
      end
  | _, _ => (schedule, pool, s)
  end.

(** The value [analyzeAndStoreTokens] returns, line 156. *)
Record Summary : Type := mkSummary {
  r_updated : Z;
  r_skipped : Z;
  r_noData : Z;
  r_failed : Z;
}.

(** The promise of a call of [analyzeAndStoreTokens]: fulfilled with the
    summary, rejected, or not settled when the schedule (or the number of
    iterations allowed) is used up. *)
Inductive Outcome : Type :=
| Completed (summary : Summary)
| Aborted (err : string)
| Running.

(** The loop of lines 71-153, entered with index [i]; [fuel] bounds the
    number of iterations.  The index and the chunk size are numbers, and
    [slice] takes them through [ToIntegerOrInfinity]. *)
Fixpoint batches (fuel : nat) (tokens : list TokenAddress) (forceUpdate : bool)
    (concurrency : number) (i : number) (schedule : list Entry) (s : State)
    : Outcome * State :=
  match fuel with
  | O => (Running, s)
  | S fuel =>
      let len := Z.of_nat (length tokens) in
      if lt i (int len) then
        let batch :=
          Array_slice tokens (ToIntegerOrInfinity i)
            (ToIntegerOrInfinity (i + concurrency)) in
        let first := Z.to_nat (relative_index len (ToIntegerOrInfinity i)) in
        let '(pool, s) := start_batch first batch s in
        let '(schedule, pool, s) := await_all forceUpdate schedule pool s in
        match Promise_all pool with
        | AllFulfilled =>
            let c := counters s in
            let s := log (LogProgress (processed c) len (updated c)
                            (skipped c) (noData c) (failed c)) s in
            batches fuel tokens forceUpdate concurrency (i + concurrency)
              schedule s
        | SomeRejected err => (Aborted err, s)
        | StillPending => (Running, s)
        end
      else
        let c := counters s in
        let s := log (LogComplete (updated c) (skipped c) (noData c)
                        (failed c)) s in
        (Completed {| r_updated := updated c; r_skipped := skipped c;
                      r_noData := noData c; r_failed := failed c |}, s)
  end.

(** The state in which the loop is entered (lines 62-68), the store
    holding [db]. *)
Definition initial (db : gmap string CachedTokenRecord)
    (tokens : list TokenAddress) (forceUpdate : bool) (concurrency : number)
    : State :=
  {| counters := {| processed := 0; updated := 0; skipped := 0; failed := 0;
                    noData := 0 |};
     store := db;
     console := [LogProcessing (length tokens) concurrency forceUpdate];
     trace := [] |}.

(** [analyzeAndStoreTokens(tokens, forceUpdate, concurrency)], lines 57-157,
    run against the store [db] under [schedule]. *)
Definition analyzeAndStoreTokens (fuel : nat) (schedule : list Entry)
    (db : gmap string CachedTokenRecord) (tokens : list TokenAddress)
    (forceUpdate : bool) (concurrency : number) : Outcome * State :=
  batches fuel tokens forceUpdate concurrency (int 0) schedule
    (initial db tokens forceUpdate concurrency).

(** The loop when the chunk size is the integer [concurrency] and the index
    the integer [i]: [batches] then runs as this loop
    ([BatchProofs.batches_integer]). *)
Fixpoint batches_int (fuel : nat) (tokens : list TokenAddress)
    (forceUpdate : bool) (concurrency : Z) (i : Z) (schedule : list Entry)
    (s : State) : Outcome * State :=
  match fuel with
  | O => (Running, s)
  | S fuel =>
      let len := Z.of_nat (length tokens) in
      if i <? len then
        let batch := Array_slice tokens (Int i) (Int (i + concurrency)) in
        let first := Z.to_nat (relative_index len (Int i)) in
        let '(pool, s) := start_batch first batch s in
        let '(schedule, pool, s) := await_all forceUpdate schedule pool s in
        match Promise_all pool with
        | AllFulfilled =>
            let c := counters s in
            let s := log (LogProgress (processed c) len (updated c)
                            (skipped c) (noData c) (failed c)) s in
            batches_int fuel tokens forceUpdate concurrency (i + concurrency)
              schedule s
        | SomeRejected err => (Aborted err, s)
        | StillPending => (Running, s)
        end
      else
        let c := counters s in
        let s := log (LogComplete (updated c) (skipped c) (noData c)
                        (failed c)) s in
        (Completed {| r_updated := updated c; r_skipped := skipped c;
                      r_noData := noData c; r_failed := failed c |}, s)
  end.

(** *** Vocabulary of the properties of a run *)

(** The task is suspended at an [await]. *)
Definition pending (p : Point) : Prop :=
  match p with
  | Fulfilled | RejectedWith _ => False
  | _ => True
  end.

(** The number of failure lines (line 141) in the console. *)
Fixpoint failure_lines (lines : list Line) : Z :=
  match lines with
  | [] => 0
  | LogFailure _ _ :: rest => 1 + failure_lines rest
  | _ :: rest => failure_lines rest
  end.

(** 1 for a task that has not settled, 0 for one that has. *)
Definition weight (p : Point) : Z :=
  match p with
  | Fulfilled | RejectedWith _ => 0
  | _ => 1
  end.

(** The number of tasks of a batch that have not settled. *)
Fixpoint unsettled (pool : list Task) : Z :=
  match pool with
  | [] => 0
  | t :: rest => weight (point t) + unsettled rest
  end.

(** The schedule that rejects, in order, the pending call of each of the
    [m] tasks at the indexes [first], [first + 1], ... of a batch. *)
Definition rejecting_from (first m : nat) : list Entry :=
  map (fun k => {| who := k; answer := Rejected "unavailable"; clock := 0 |})
    (seq first m).

(** No task of the batch is rejected. *)
Definition none_rejected (pool : list Task) : Prop :=
  forall j t, pool !! j = Some t -> forall err, point t <> RejectedWith err.

(** The failure lines of the console are those of the first five failures. *)
Definition failures_logged (s : State) : Prop :=
  failure_lines (console s) = Z.min (failed (counters s)) 5.




(** The effect of a fault caught in the task [t]: the task is fulfilled, the
    token is counted as failed and as processed, the store is unchanged,
    and the fault is written to the console if it is one of the first five
    of the call. *)
Definition caught (t : Task) (err : string) (s : State) (t' : Task)
    (s' : State) : Prop :=
  point t' = Fulfilled
  /\ failed (counters s') = failed (counters s) + 1
  /\ processed (counters s') = processed (counters s) + 1
  /\ updated (counters s') = updated (counters s)
  /\ skipped (counters s') = skipped (counters s)
  /\ noData (counters s') = noData (counters s)
  /\ store s' = store s
  /\ trace s' = trace s ++ [Settled (pos t)]
  /\ console s'
     = if failed (counters s) + 1 <=? 5
       then console s ++ [LogFailure (address (token t)) err]
       else console s.

(** The counters [c'] are the counters [c] with [processed] and exactly one
    of the four other counters incremented. *)
Definition counted_once (c c' : Counters) : Prop :=
  c' = incr_processed (incr_updated c)
  \/ c' = incr_processed (incr_skipped c)
  \/ c' = incr_processed (incr_noData c)
  \/ c' = incr_processed (incr_failed c).

(** The counter equation. *)
Definition balanced (c : Counters) : Prop :=
  processed c = updated c + skipped c + noData c + failed c.

(** The events of the token at position [p]. *)
Definition events_of (p : nat) (tr : list Event) : list Event :=
  List.filter
    (fun e => match e with
              | Started q | Called q _ | Settled q => Nat.eqb p q
              end) tr.

(** Every occurrence of [b] in the trace comes after an occurrence of [a]. *)
Definition precedes (tr : list Event) (a b : Event) : Prop :=
  forall j, tr !! j = Some b -> exists i, (i < j)%nat /\ tr !! i = Some a.

(** The chunk of size [c] the position [p] of the list falls in. *)
Definition chunk_of (c : Z) (p : nat) : Z := Z.of_nat p / c.

(** No token of a chunk starts before every token of the chunks before it
    has settled. *)
Definition barrier_holds (c : Z) (tr : list Event) : Prop :=
  forall p q, chunk_of c p < chunk_of c q ->
    precedes tr (Settled p) (Started q).

(** No token of a chunk settles before every token of that chunk (of a list
    of [n] tokens) has started. *)
Definition dispatched_together (c : Z) (n : nat) (tr : list Event) : Prop :=
  forall p q, (q < n)%nat -> chunk_of c q = chunk_of c p ->
    precedes tr (Started q) (Settled p).

(** The positions of the tokens that have started, in the order in which the
    trace has them. *)
Definition started_positions (tr : list Event) : list nat :=
  omap (fun e => match e with Started p => Some p | _ => None end) tr.

(** The events of a whole batch handed to [batch.map], line 74, before the
    [await] of line 148 lets any reply in: token after token, each one starts
    and sends its [client.get]. *)
Fixpoint dispatch (first : nat) (batch : list TokenAddress) : list Event :=
  match batch with
  | [] => []
  | token :: rest =>
      Started first :: Called first (CallGet (address token))
      :: dispatch (S first) rest
  end.

(** The chunk of size [c] that begins at the index [i] of the list: the next
    [c] tokens, or those that are left. *)
Definition chunk_at (c i : Z) (tokens : list TokenAddress)
    : list TokenAddress :=
  take (Z.to_nat c) (drop (Z.to_nat i) tokens).

(** The number of tokens in the first [k] chunks of size [c] of a list of
    [n] tokens. *)
Definition in_chunks (c : Z) (n : nat) (k : Z) : nat :=
  Z.to_nat (Z.min (k * c) (Z.of_nat n)).

(** The trace while the chunk that starts at position [lo] is running:
    the two orderings hold, every token before [lo] has settled, and every
    token before [hi] has started. *)
Definition in_chunk (c : Z) (n lo hi : nat) (tr : list Event) : Prop :=
  barrier_holds c tr
  /\ dispatched_together c n tr
  /\ (forall p, (p < lo)%nat -> Settled p ∈ tr)
  /\ (forall q, (q < hi)%nat -> Started q ∈ tr).

(** While a batch is awaited: the tasks keep their positions, and a task
    that is fulfilled has its settling in the trace. *)
Definition awaiting (c : Z) (n lo hi : nat) (pool : list Task) (s : State)
    : Prop :=
  in_chunk c n lo hi (trace s)
  /\ (forall j t, pool !! j = Some t ->
        pos t = (lo + j)%nat
        /\ (point t = Fulfilled -> Settled (pos t) ∈ trace s)).

(** The effect of one resumption of the task [t] in the state [s], by the way
    the [try] body is left. *)
Inductive Resumed (t : Task) (s : State) : Task -> State -> Prop :=
| Resumed_suspend next c s1 :
    pending next ->
    counters s1 = counters s -> store s1 = store s -> trace s1 = trace s ->
    failure_lines (console s1) = failure_lines (console s) ->
    Resumed t s (move t next) (emit (Called (pos t) c) s1)
| Resumed_skip :
    Resumed t s (move t Fulfilled)
      (emit (Settled (pos t)) (count incr_processed (count incr_skipped s)))
| Resumed_noData :
    Resumed t s (move t Fulfilled)
      (emit (Settled (pos t)) (count incr_processed (count incr_noData s)))
| Resumed_update key value :
    point t = AwaitSet key value ->
    Resumed t s (move t Fulfilled)
      (emit (Settled (pos t))
         (count incr_processed (count incr_updated (write key value s))))
| Resumed_throw err :
    Resumed t s (move t Fulfilled)
      (emit (Settled (pos t))
         (count incr_processed (catch_block (token t) err s))).

End Machine.

End Scheduler.

(** ** The HTTP routes that start background work, and [/trending-tokens] *)

Module Routes.
Import JS Scoring Scheduler.

(** A property of the JSON body of a request: absent, or a JSON scalar. *)
Inductive jsval : Type :=
| JUndefined
| JNull
| JBool (b : bool)
| JNum (n : number)
| JStr (s : string).



(** [StringToNumber] of the language, left open. *)
Class Platform : Type := {
  StringToNumber : string -> number;
}.




(** How an awaited call ends. *)
Inductive Await (A : Type) : Type :=
| Resolves (a : A)
| Rejects (err : string).
Arguments Resolves {A} a.
Arguments Rejects {A} err.

(** The body of a response. *)
Inductive Payload : Type :=
| ErrorBody (error : string)
| StartedBody (message : string) (totalTokens processing : nat) (days : jsval)
    (note : string)
| EmptyBody (message : string) (tokensUpdated : Z)
| UpdateStartedBody (message : string) (totalTokens : nat)
    (estimatedMinutes : number) (note : string)
| CheckingBody (message : string) (days maxNewTokens : jsval) (note : string)
| TrendingBody (total returned : nat) (chain : string)
    (tokens : list CachedTokenRecord).

Record Response : Type := mkResponse {
  status : Z;
  body : Payload;
}.



Section Handlers.
Context `{Platform}.





(** [Promise.all(keys.map(async key => ...))], lines 434-439: the values of
    all keys, or the rejection of the first [client.get] that rejects. *)
Fixpoint get_all (get : string -> Await (option CachedTokenRecord))
    (keys : list string) : Await (list (option CachedTokenRecord)) :=
  match keys with
  | [] => Resolves []
  | key :: rest =>
      match get key with
      | Rejects err => Rejects err
      | Resolves data =>
          match get_all get rest with
          | Rejects err => Rejects err
          | Resolves tokens => Resolves (data :: tokens)
          end
      end
  end.

(** [t.trendingscore || 0] on a record read back from its JSON text, in
    which NaN and the infinities are written as [null]. *)
Definition score_or_zero (t : CachedTokenRecord) : number :=
  match trendingscore t with
  | Fin q => if number_truthy (Fin q) then Fin q else int 0
  | _ => int 0
  end.

(** The comparator of line 448. *)
Definition by_score_descending (a b : CachedTokenRecord) : number :=
  (score_or_zero b - score_or_zero a)%js.

(** [GET /trending-tokens], lines 427-461; [limit] and [chain] are the query
    parameters, each given at most once ([Trending.get_trending_tokens]
    below takes them as arrays and objects as well). *)
Definition get_trending_tokens (limit chain : option string)
    (keys : Await (list string))
    (get : string -> Await (option CachedTokenRecord)) : Response :=
  let limit :=
    let parsed := parseInt limit in
    if number_truthy parsed then parsed else int 100 in
  match keys with
  | Rejects _ =>
      {| status := 500; body := ErrorBody "Failed to fetch trending tokens" |}
  | Resolves keys =>
      match get_all get keys with
      | Rejects _ =>
          {| status := 500; body := ErrorBody "Failed to fetch trending tokens" |}
      | Resolves tokens =>
          let filtered := omap id tokens in
          let filtered :=
            match chain with
            | Some (String c rest) =>
                filter (fun t => toLowerCase (c_chainName t)
                                 = toLowerCase (String c rest)) filtered
            | _ => filtered
            end in
          let sorted :=
            Array_slice (Array_sort by_score_descending filtered) (Int 0)
              (ToIntegerOrInfinity limit) in
          {| status := 200;
             body := TrendingBody (length filtered) (length sorted)
                       (match chain with
                        | Some (String c rest) => String c rest
                        | _ => "all"
                        end)
                       sorted |}
      end
  end.

End Handlers.


End Routes.

(** ** The body parser in front of the routes *)

Module Middleware.
Import JS Routes.






End Middleware.

(** ** Concrete collaborators, tokens and schedules *)

Module Demo.
Import JS Scoring Scheduler.

(** Transactions are numbers, metadata is a unit value, and the aggregator
    throws on a transaction list that starts with 0 and otherwise yields the
    metrics of the specification's example. *)
#[export] Instance collaborators : Collaborators :=
  {| Transaction := nat;
     TokenData := unit;
     analyzeOnChain := fun transactions _ =>
       match transactions with
       | O :: _ => inl "aggregate failed"%string
       | _ => inr example_metrics
       end |}.

Definition token_on (chain : Z) (name addr : string) : TokenAddress :=
  {| address := addr; chainId := chain; chainName := name;
     firstSeenBlock := 100; firstSeenTimestamp := 1700000000;
     ageInHours := int 5; transactionHash := "" |}.

(** The replies of a pipeline that runs to its [client.set], for the task at
    index [k] of its batch. *)
Definition succeeds (k : nat) : list Entry :=
  [ {| who := k; answer := GotData; clock := 0 |};
    {| who := k; answer := GotTransactions (Some [1%nat; 2%nat]); clock := 0 |};
    {| who := k; answer := GotMetadata (Some tt); clock := 1700000500 |};
    {| who := k; answer := SetDone; clock := 0 |} ].

(** The transaction fetch resolves with an empty array and the metadata
    fetch then rejects. *)
Definition empty_then_rejected (k : nat) : list Entry :=
  [ {| who := k; answer := GotData; clock := 0 |};
    {| who := k; answer := GotTransactions (Some []); clock := 0 |};
    {| who := k; answer := Rejected "metadata unavailable"; clock := 0 |} ].

(** A platform whose [StringToNumber] reads no string as a number. *)
#[export] Instance platform : Routes.Platform :=
  {| Routes.StringToNumber := fun _ => NaN |}.

Definition four_tokens : list TokenAddress :=
  [ token_on 1 "Ethereum" "0xaa"; token_on 1 "Ethereum" "0xbb";
    token_on 8453 "Base" "0xcc"; token_on 8453 "Base" "0xdd" ].

(** The same address on two chains. *)
Definition on_ethereum : TokenAddress := token_on 1 "Ethereum" "0xaa".
Definition on_base : TokenAddress := token_on 8453 "Base" "0xaa".

(** A record of the store, and a state whose store holds it. *)
Definition cached : CachedTokenRecord :=
  record_of on_ethereum (int 47) 1700000000 example_metrics.

Definition holding : State :=
  initial {[ "0xaa"%string := cached ]} [on_ethereum] false (int 10).

(** Tasks suspended on [client.get] and on [metadata]. *)
Definition at_get : Task :=
  {| pos := 0; token := on_ethereum; point := AwaitGet |}.

Definition at_metadata (token : TokenAddress)
    (transactions : list Transaction) : Task :=
  {| pos := 0; token := token; point := AwaitMetadata (Some transactions) |}.

(** Every [client.get] of a batch of six rejects. *)
Definition six_tokens : list TokenAddress :=
  four_tokens ++ [token_on 10 "Optimism" "0xee"; token_on 10 "Optimism" "0xff"].

Definition all_rejected : list Entry :=
  map (fun k => {| who := k; answer := Rejected "connection lost"; clock := 0 |})
    (seq 0 6).


(** Tokens 1 and 2 are slow: token 2 is served first, token 1 last. *)
Definition slow_first_chunk : list Entry :=
  succeeds 1 ++ succeeds 0 ++ succeeds 0 ++ succeeds 1.

End Demo.

(** ** What a run writes to the store *)

Module Writes.
Import JS Scoring Scheduler.

Section WithCollaborators.
Context `{Collaborators}.

(** [value] is a record the pipeline builds for one of [tokens] from a
    non-empty transaction list, and [key] is the address of that token. *)
Definition written_for (tokens : list TokenAddress) (key : string)
    (value : CachedTokenRecord) : Prop :=
  exists token transactions analysis metrics now,
    token ∈ tokens
    /\ transactions <> []
    /\ analyzeOnChain transactions analysis = inr metrics
    /\ key = address token
    /\ value = record_of token (calculateTrendingScore metrics) now metrics.

(** Every record of [st] is the one [db] holds under the same key, or was
    written for one of [tokens]. *)
Definition from_db_or_written (db : gmap string CachedTokenRecord)
    (tokens : list TokenAddress) (st : gmap string CachedTokenRecord) : Prop :=
  forall key value, st !! key = Some value ->
    db !! key = Some value \/ written_for tokens key value.

(** What a task that has passed the cache check of line 79 without
    [forceUpdate] knows: [db] holds nothing under the key it works on. *)
Definition past_cache_check (db : gmap string CachedTokenRecord) (t : Task)
    : Prop :=
  match point t with
  | AwaitTransactions | AwaitMetadata _ => db !! address (token t) = None
  | AwaitSet key _ => db !! key = None
  | AwaitGet | Fulfilled | RejectedWith _ => True
  end.

End WithCollaborators.

End Writes.

(** ** The two maintenance jobs *)

Module Maintenance.
Import JS Scoring Scheduler Routes.

(** [t.ageInHours || 0] on a record read back from its JSON text, in which
    NaN and the infinities are written as [null]. *)
Definition age_or_zero (t : CachedTokenRecord) : number :=
  match c_ageInHours t with
  | Fin q => if number_truthy (Fin q) then Fin q else int 0
  | _ => int 0
  end.

(** The conversion of a stored record to a [TokenAddress], lines 183-191. *)
Definition token_of_record (t : CachedTokenRecord) : TokenAddress :=
  {| address := c_address t;
     chainId := if c_chainId t =? 0 then 1 else c_chainId t;
     chainName :=
       if string_truthy (c_chainName t) then c_chainName t else "Unknown";
     firstSeenBlock := if block t =? 0 then 0 else block t;
     firstSeenTimestamp := if timestamp t =? 0 then 0 else timestamp t;
     ageInHours := age_or_zero t;
     transactionHash := "" |}.

(** The token's address is not a key of [db]. *)
Definition is_new (db : gmap string CachedTokenRecord) (token : TokenAddress)
    : bool :=
  match db !! address token with
  | Some _ => false
  | None => true
  end.

(** Every record is stored under its own address. *)
Definition self_keyed (db : gmap string CachedTokenRecord) : Prop :=
  forall key value, db !! key = Some value -> c_address value = key.

Section Jobs.
Context `{Collaborators}.

(** How a call of one of the two jobs ends: with the object of zeros of
    lines 169 and 217, with what [analyzeAndStoreTokens] does, or rejected
    because an awaited call was. *)
Inductive Report : Type :=
| NothingToDo
| Analyzed (run : Outcome * State)
| Failed (err : string).

(** [updateAllTokenScores(concurrency)], lines 160-195, against the store
    [db]; [keys] is what [client.keys("*")] settles with and [get] what each
    [client.get] settles with; an omitted [concurrency] is 10. *)
Definition updateAllTokenScores (fuel : nat) (schedule : list Entry)
    (db : gmap string CachedTokenRecord) (keys : Await (list string))
    (get : string -> Await (option CachedTokenRecord))
    (concurrency : option number) : Report :=
  let concurrency := default (int 10) concurrency in
  match keys with
  | Rejects err => Failed err
  | Resolves keys =>
      if Nat.eqb (length keys) 0 then NothingToDo
      else
        match get_all get keys with
        | Rejects err => Failed err
        | Resolves tokensInDb =>
            let validTokens := omap id tokensInDb in
            let tokens := map token_of_record validTokens in
            Analyzed (analyzeAndStoreTokens fuel schedule db tokens true
                        concurrency)
        end
  end.

(** The loop of lines 207-212: [client.exists] is awaited for one token
    after the other, and a token is kept when the answer is 0. *)
Fixpoint filter_new (exists_ : string -> Await Z) (allTokens : list TokenAddress)
    (newTokens : list TokenAddress) : Await (list TokenAddress) :=
  match allTokens with
  | [] => Resolves newTokens
  | token :: rest =>
      match exists_ (address token) with
      | Rejects err => Rejects err
      | Resolves n =>
          filter_new exists_ rest
            (if n =? 0 then newTokens ++ [token] else newTokens)
      end
  end.

(** [addNewTokens(days, maxNewTokens)], lines 198-226, against the store
    [db]; [fetch] is [fetchTokenAddressesMultichain] and [exists_] what each
    [client.exists] settles with; omitted arguments are 1 and 500. *)
Definition addNewTokens (fuel : nat) (schedule : list Entry)
    (db : gmap string CachedTokenRecord)
    (fetch : number -> Await (list TokenAddress))
    (exists_ : string -> Await Z) (days maxNewTokens : option number)
    : Report :=
  let days := default (int 1) days in
  let maxNewTokens := default (int 500) maxNewTokens in
  match fetch days with
  | Rejects err => Failed err
  | Resolves allTokens =>
      match filter_new exists_ allTokens [] with
      | Rejects err => Failed err
      | Resolves newTokens =>
          if Nat.eqb (length newTokens) 0 then NothingToDo
          else
            let tokensToAdd :=
              Array_slice newTokens (Int 0) (ToIntegerOrInfinity maxNewTokens) in
            Analyzed (analyzeAndStoreTokens fuel schedule db tokensToAdd false
                        (int 15))
      end
  end.

(** [new] is the record of the token that [old] converts to, scored
    afresh. *)
Definition rescored (old new : CachedTokenRecord) : Prop :=
  exists transactions analysis metrics now,
    transactions <> []
    /\ analyzeOnChain transactions analysis = inr metrics
    /\ new = record_of (token_of_record old) (calculateTrendingScore metrics)
               now metrics.

(** The sum of the four counters of a summary. *)
Definition accounted (summary : Summary) : Z :=
  r_updated summary + r_skipped summary + r_noData summary + r_failed summary.

End Jobs.

End Maintenance.

(** ** The query of [GET /trending-tokens] *)

Module Trending.
Import JS Scoring Scheduler Routes.

(** A string as the sequence of its UTF-16 code units. *)
Definition units : Type := list Z.

Fixpoint units_of (s : string) : units :=
  match s with
  | EmptyString => []
  | String c rest => Z.of_nat (nat_of_ascii c) :: units_of rest
  end.

(** A property of [req.query]: absent, a string, an array (a parameter
    given more than once, or with brackets) or an object (a parameter with
    a bracketed key), whose properties the route never reads. *)
#[local] Unset Elimination Schemes.
Inductive query : Type :=
| QAbsent
| QString (s : units)
| QArray (items : list query)
| QObject.
#[local] Set Elimination Schemes.

(** The string [parseInt] makes of its argument: [undefined] reads
    "undefined", an array is joined with commas (an absent element as the
    empty string), an object reads "[object Object]". *)
Fixpoint ToString (q : query) : units :=
  match q with
  | QAbsent => units_of "undefined"
  | QString s => s
  | QArray items =>
      (fix join (items : list query) : units :=
         match items with
         | [] => []
         | x :: rest =>
             match x with QAbsent => [] | _ => ToString x end
             ++ match rest with [] => [] | _ :: _ => 44 :: join rest end
         end) items
  | QObject => units_of "[object Object]"
  end.

(** Truthiness: false of [undefined] and of the empty string; arrays and
    objects are truthy. *)
Definition query_truthy (q : query) : bool :=
  match q with
  | QAbsent | QString [] => false
  | _ => true
  end.

(** The code units [parseInt] skips at the start of its input: white space
    (tab, vertical tab, form feed, space, no-break space, the byte order
    mark and the space separators) and the line terminators. *)
Definition is_whitespace (u : Z) : bool :=
  (9 <=? u) && (u <=? 13) || (u =? 32) || (u =? 160) || (u =? 5760)
  || (8192 <=? u) && (u <=? 8202) || (u =? 8232) || (u =? 8233)
  || (u =? 8239) || (u =? 8287) || (u =? 12288) || (u =? 65279).

Fixpoint trim_start (s : units) : units :=
  match s with
  | u :: rest => if is_whitespace u then trim_start rest else s
  | [] => []
  end.

(** The value of a digit: 0-9, then a-z or A-Z for 10 to 35. *)
Definition digit_value (u : Z) : option Z :=
  if (48 <=? u) && (u <=? 57) then Some (u - 48)
  else if (97 <=? u) && (u <=? 122) then Some (u - 87)
  else if (65 <=? u) && (u <=? 90) then Some (u - 55)
  else None.

(** The longest prefix of digits of the radix, as an integer; [None] when
    there is no digit. *)
Fixpoint leading_digits (radix : Z) (s : units) (acc : option Z) : option Z :=
  match s with
  | u :: rest =>
      match digit_value u with
      | Some d =>
          if d <? radix
          then leading_digits radix rest
                 (Some (match acc with Some a => a | None => 0 end * radix + d))
          else acc
      | None => acc
      end
  | [] => acc
  end.

(** The integer [parseInt] reads, with no radix given: leading white space
    is skipped, then a sign, then "0x" or "0X" (radix 16, otherwise 10),
    then the digits; [None] when there is none. *)
Definition mathInt (input : units) : option Z :=
  let s := trim_start input in
  let '(sign, s) :=
    match s with
    | u :: rest =>
        if u =? 45 then (-1, rest) else if u =? 43 then (1, rest) else (1, s)
    | [] => (1, s)
    end in
  let '(radix, s) :=
    match s with
    | u :: v :: rest =>
        if (u =? 48) && ((v =? 120) || (v =? 88)) then (16, rest) else (10, s)
    | _ => (10, s)
    end in
  match leading_digits radix s None with
  | None => None
  | Some n => Some (sign * n)
  end.

(** [parseInt(input)]: NaN when no integer is read, and otherwise the
    number nearest to it. *)
Definition parseInt (input : units) : number :=
  match mathInt input with
  | None => NaN
  | Some n => round64 (inject_Z n)
  end.

(** [parseInt(req.query.limit as string) || 100], line 429. *)
Definition effective_limit (limit : query) : number :=
  let parsed := parseInt (ToString limit) in
  if number_truthy parsed then parsed else int 100.

(** [chain || "all"], line 454. *)
Definition chain_or_all (chain : query) : query :=
  if query_truthy chain then chain else QString (units_of "all").

(** [array.filter(callback)] with a callback that may throw: [None] when a
    call throws. *)
Fixpoint Array_filter {A : Type} (callback : A -> option bool) (l : list A)
    : option (list A) :=
  match l with
  | [] => Some []
  | x :: rest =>
      match callback x with
      | None => None
      | Some keep =>
          match Array_filter callback rest with
          | None => None
          | Some rest => Some (if keep then x :: rest else rest)
          end
      end
  end.

(** A query parameter given at most once. *)
Definition of_parameter (p : option string) : query :=
  match p with
  | None => QAbsent
  | Some s => QString (units_of s)
  end.

(** [toLowerCase] on strings of code units below 256: A-Z, U+00C0-U+00D6
    and U+00D8-U+00DE move 32 further, the others stay. *)
Definition latin_lower (s : units) : units :=
  map (fun u =>
         if (65 <=? u) && (u <=? 90) || (192 <=? u) && (u <=? 214)
            || (216 <=? u) && (u <=? 222)
         then u + 32 else u) s.

(** The body of the answer of lines 451-456. *)
Record Listing : Type := mkListing {
  l_total : nat;
  l_returned : nat;
  l_chain : query;
  l_tokens : list CachedTokenRecord;
}.

Inductive Reply : Type :=
| Status200 (body : Listing)
| Status500 (error : string).

Section Handler.
(** [String.prototype.toLowerCase] on code units: the case mapping of the
    Unicode character database, which is not spelled out here. *)
Variable toLowerCase : units -> units.

(** The callback of line 444,
    [t => t.chainName?.toLowerCase() === chain.toLowerCase()]: only a string
    has a [toLowerCase] to call, on an array or an object the call throws a
    [TypeError]. *)
Definition of_chain (chain : query) (t : CachedTokenRecord) : option bool :=
  match chain with
  | QString s =>
      Some (bool_decide (toLowerCase (units_of (c_chainName t))
                         = toLowerCase s))
  | _ => None
  end.

(** [GET /trending-tokens], lines 427-461; [limit] and [chain] are
    [req.query.limit] and [req.query.chain] as Express hands them over. *)
Definition get_trending_tokens (limit chain : query)
    (keys : Await (list string))
    (get : string -> Await (option CachedTokenRecord)) : Reply :=
  let limit := effective_limit limit in
  match keys with
  | Rejects _ => Status500 "Failed to fetch trending tokens"
  | Resolves keys =>
      match get_all get keys with
      | Rejects _ => Status500 "Failed to fetch trending tokens"
      | Resolves tokens =>
          let filtered := omap id tokens in
          match
            (if query_truthy chain
             then Array_filter (of_chain chain) filtered
             else Some filtered)
          with
          | None => Status500 "Failed to fetch trending tokens"
          | Some filtered =>
              let sorted :=
                Array_slice (Array_sort by_score_descending filtered) (Int 0)
                  (ToIntegerOrInfinity limit) in
              Status200 {| l_total := length filtered;
                           l_returned := length sorted;
                           l_chain := chain_or_all chain;
                           l_tokens := sorted |}
          end
      end
  end.

End Handler.

End Trending.

(** ** The ranking of [GET /trending-tokens] *)

Module Ranking.
Import JS Scoring Scheduler Routes Trending.

(** The chain is asked for at most once: the parameter is absent or a
    single string. *)
Definition once (chain : query) : Prop :=
  match chain with
  | QAbsent | QString _ => True
  | _ => False
  end.

(** The records that are ranked, lines 441-445: the values found, without
    the missing ones, and of the chain asked for when one is. *)
Definition candidates (toLowerCase : units -> units) (chain : query)
    (found : list (option CachedTokenRecord)) : list CachedTokenRecord :=
  let filtered := omap id found in
  match chain with
  | QString (u :: rest) =>
      filter (fun t => toLowerCase (units_of (c_chainName t))
                       = toLowerCase (u :: rest)) filtered
  | _ => filtered
  end.

(** The rational a record is ranked by. *)
Definition score_value (t : CachedTokenRecord) : Q :=
  match score_or_zero t with
  | Fin q => q
  | _ => 0
  end.

(** No record comes before one with a higher score. *)
Definition descending (l : list CachedTokenRecord) : Prop :=
  StronglySorted (fun a b => (score_value b <= score_value a)%Q) l.

(** The records whose score is [q], in their order. *)
Definition tied (q : Q) (l : list CachedTokenRecord) : list CachedTokenRecord :=
  List.filter (fun t => Qeq_bool (score_value t) q) l.

(** A limit that is a whole number other than 0, or an infinity. *)
Definition whole (x : number) : Prop :=
  match x with
  | Fin q => exists z, z <> 0 /\ (q == inject_Z z)%Q
  | PInf | NInf => True
  | NaN => False
  end.

(** The number of records [slice(0, limit)] keeps of [total]. *)
Definition kept (total : Z) (limit : integer) : Z :=
  match limit with
  | Int z => if z <? 0 then Z.max (total + z) 0 else Z.min z total
  | PlusInf => total
  | MinusInf => 0
  end.

End Ranking.

(** ** [stringifyBigInts] and [GET /analyze-wallets/:address] *)

Module Wallets.
Import JS Routes.

(** The values [stringifyBigInts] is applied to: JSON-like data with
    bigints.  An object is the list of its own enumerable properties, in the
    order [for ... in] visits them. *)
#[local] Unset Elimination Schemes.
Inductive value : Type :=
| VUndefined
| VNull
| VBool (b : bool)
| VNumber (n : number)
| VString (s : string)
| VBigInt (z : Z)
| VArray (items : list value)
| VObject (props : list (string * value)).
#[local] Set Elimination Schemes.

(** [BigInt.prototype.toString()]: the decimal digits, after a minus sign
    for a negative number. *)
Definition BigInt_toString (z : Z) : string :=
  NilZero.string_of_int (Z.to_int z).

(** The loop of lines 562-564 on a fresh object [res]: each property of
    [obj] is assigned to [res] with its value converted by [f].  The
    assignment to the key [__proto__] creates no property of [res]: it
    replaces the prototype of [res], which the values of this model do not
    carry.  [plain] and [settled] below single out the values without such
    a key, on which nothing is lost. *)
Definition assign_each (f : value -> value)
    : list (string * value) -> list (string * value) :=
  fix each props :=
    match props with
    | [] => []
    | (key, v) :: rest =>
        if String.eqb key "__proto__" then each rest
        else (key, f v) :: each rest
    end.

(** [stringifyBigInts(obj)], lines 557-568. *)
Fixpoint stringifyBigInts (obj : value) : value :=
  match obj with
  | VBigInt z => VString (BigInt_toString z)
  | VArray items => VArray (map stringifyBigInts items)
  | VObject props => VObject (assign_each stringifyBigInts props)
  | _ => obj
  end.

(** No bigint occurs in the value: [JSON.stringify] does not throw on it. *)
Fixpoint serializable (v : value) : bool :=
  match v with
  | VBigInt _ => false
  | VArray items => forallb serializable items
  | VObject props => forallb (fun p => serializable p.2) props
  | _ => true
  end.

(** No property named [__proto__] occurs in the value. *)
Fixpoint plain (v : value) : bool :=
  match v with
  | VArray items => forallb plain items
  | VObject props =>
      forallb (fun p => negb (String.eqb p.1 "__proto__") && plain p.2) props
  | _ => true
  end.

(** No bigint and no property named [__proto__] occurs in the value. *)
Fixpoint settled (v : value) : bool :=
  match v with
  | VBigInt _ => false
  | VArray items => forallb settled items
  | VObject props =>
      forallb (fun p => negb (String.eqb p.1 "__proto__") && settled p.2) props
  | _ => true
  end.

(** A JSON response. *)
Record Reply : Type := mkReply {
  code : Z;
  json : value;
}.

Definition error_body (message : string) : value :=
  VObject [("error"%string, VString message)].

(** [GET /analyze-wallets/:address], lines 570-583; [analysis] is what
    [analyzeTokenWalletsMultiChain] settles with. *)
Definition get_analyze_wallets (tokenAddress : string)
    (analysis : Await value) : Reply :=
  if negb (string_truthy tokenAddress) then
    {| code := 400; json := error_body "Token address is required" |}
  else
    match analysis with
    | Resolves analysis => {| code := 200; json := stringifyBigInts analysis |}
    | Rejects _ => {| code := 500; json := error_body "Failed to analyze wallets" |}
    end.

End Wallets.

(** ** [GET /debug/analyze/:address] *)

Module Debug.
Import JS Scoring Scheduler Routes.

Section WithCollaborators.
Context `{Collaborators}.

(** The response: an error body with its status, or the report of lines
    493-514, whose [breakdown] is read off [rawMetrics] and [tokenData] and
    whose [formula] is constant. *)
Inductive DebugReply : Type :=
| DebugError (status : Z) (error : string)
| DebugReport (address : string) (trendingScore : number)
    (rawMetrics : Metrics) (tokenData : TokenData).

(** [GET /debug/analyze/:address], lines 464-519; [transactions] and
    [analysis] are what [getAllTokenTransactions] and [metadata] settle
    with.  Line 473 reads [transactions.length] before line 476 tests
    [transactions]: it throws when the fetch resolved with nothing. *)
Definition get_debug_analyze (address : string)
    (transactions : Await (option (list Transaction)))
    (analysis : Await (option TokenData)) : DebugReply :=
  match transactions with
  | Rejects _ => DebugError 500 "Failed to analyze token"
  | Resolves transactions =>
      match analysis with
      | Rejects _ => DebugError 500 "Failed to analyze token"
      | Resolves analysis =>
          match transactions with
          | None => DebugError 500 "Failed to analyze token"
          | Some [] => DebugError 404 "No transactions found"
          | Some transactions =>
              match analysis with
              | None => DebugError 404 "No metadata found"
              | Some analysis =>
                  match analyzeOnChain transactions analysis with
                  | inl _ => DebugError 500 "Failed to analyze token"
                  | inr onChainMetrics =>
                      DebugReport address
                        (calculateTrendingScore onChainMetrics)
                        onChainMetrics analysis
                  end
              end
          end
      end
  end.

End WithCollaborators.

End Debug.

(** ** [GET /stats] *)

Module Stats.
Import JS Scoring Scheduler Routes.

(** An entry of [chainStats], line 538. *)
Record ChainStat : Type := mkChainStat {
  count : Z;
  avgScore : number;
  totalScore : number;
}.

(** The property names an object literal inherits from [Object.prototype]:
    under such a name [acc[chain]] is a function or the prototype itself,
    which is truthy, so no entry is created and the three assignments of
    lines 540-542 land on that inherited object. *)
Definition inherited (name : string) : bool :=
  existsb (String.eqb name)
    [ "constructor"; "__proto__"; "hasOwnProperty"; "isPrototypeOf";
      "propertyIsEnumerable"; "toLocaleString"; "toString"; "valueOf";
      "__defineGetter__"; "__defineSetter__"; "__lookupGetter__";
      "__lookupSetter__" ]%string.

(** [token.chainName || 'Unknown'] *)
Definition chain_of (token : CachedTokenRecord) : string :=
  if string_truthy (c_chainName token) then c_chainName token else "Unknown".

(** The reducer of lines 535-544. *)
Definition tally (acc : gmap string ChainStat) (token : CachedTokenRecord)
    : gmap string ChainStat :=
  let chain := chain_of token in
  if inherited chain then acc
  else
    let acc :=
      match acc !! chain with
      | Some _ => acc
      | None =>
          <[chain := {| count := 0; avgScore := int 0; totalScore := int 0 |}]>
            acc
      end in
    match acc !! chain with
    | Some entry =>
        let count := count entry + 1 in
        let totalScore := (totalScore entry + score_or_zero token)%js in
        <[chain := {| count := count;
                      avgScore := (totalScore / int count)%js;
                      totalScore := totalScore |}]> acc
    | None => acc
    end.

Inductive StatsReply : Type :=
| StatsError (status : Z) (error : string)
| StatsBody (totalTokens : nat) (chainDistribution : gmap string ChainStat)
    (lastUpdated : string).

(** [GET /stats], lines 522-555; [now] is the text of the current date. *)
Definition get_stats (keys : Await (list string))
    (get : string -> Await (option CachedTokenRecord)) (now : string)
    : StatsReply :=
  match keys with
  | Rejects _ => StatsError 500 "Failed to fetch stats"
  | Resolves keys =>
      match get_all get keys with
      | Rejects _ => StatsError 500 "Failed to fetch stats"
      | Resolves tokens =>
          let validTokens := omap id tokens in
          let chainStats := fold_left tally validTokens ∅ in
          StatsBody (length validTokens) chainStats now
      end
  end.

(** The records of a chain, in the order they were read. *)
Definition members (chain : string) (tokens : list CachedTokenRecord)
    : list CachedTokenRecord :=
  List.filter (fun t => String.eqb (chain_of t) chain) tokens.

(** The sum of the scores of the records, added in order from 0. *)
Definition total_of (tokens : list CachedTokenRecord) : number :=
  fold_left (fun sum t => (sum + score_or_zero t)%js) tokens (int 0).

(** What the distribution says of a chain: nothing when the chain has no
    record, and otherwise their number, the sum of their scores and the
    quotient of the two. *)
Definition describes (distribution : gmap string ChainStat) (chain : string)
    (tokens : list CachedTokenRecord) : Prop :=
  match distribution !! chain with
  | None => members chain tokens = []
  | Some entry =>
      members chain tokens <> []
      /\ count entry = Z.of_nat (length (members chain tokens))
      /\ totalScore entry = total_of (members chain tokens)
      /\ avgScore entry = (totalScore entry / int (count entry))%js
  end.

End Stats.

(** ** The commands of one token *)

Module Protocol.
Import JS Scoring Scheduler.

(** The position an event is about. *)
Definition position (e : Event) : nat :=
  match e with
  | Started q | Called q _ | Settled q => q
  end.

(** The events of a token at position [p] with address [a], in the order of
    lines 74-146: it starts and sends [client.get]; then the first [k] of
    the transaction fetch and the metadata fetch; then [client.set] if
    [write] gives a record; then its settling if [settled]. *)
Definition shape (a : string) (p k : nat) (write : option CachedTokenRecord)
    (settled : bool) : list Event :=
  [Started p; Called p (CallGet a)]
  ++ take k [Called p (CallTransactions a); Called p (CallMetadata a)]
  ++ match write with
     | Some value => [Called p (CallSet a value)]
     | None => []
     end
  ++ if settled then [Settled p] else [].

(** The events have such a shape, with a cache write only after both
    fetches. *)
Definition shaped (a : string) (p : nat) (settled : bool)
    (events : list Event) : Prop :=
  exists k write,
    (is_Some write -> (2 <= k)%nat) /\ events = shape a p k write settled.

(** What can be observed of one token: nothing, or events of that shape. *)
Definition lifecycle (a : string) (p : nat) (events : list Event) : Prop :=
  events = [] \/ exists settled, shaped a p settled events.

Section WithCollaborators.
Context `{Collaborators}.

(** The events a task has behind it at each of its points. *)
Definition at_point (t : Task) (events : list Event) : Prop :=
  let a := address (token t) in
  match point t with
  | AwaitGet => events = shape a (pos t) 0 None false
  | AwaitTransactions => events = shape a (pos t) 1 None false
  | AwaitMetadata _ => events = shape a (pos t) 2 None false
  | AwaitSet key value =>
      key = a /\ events = shape a (pos t) 2 (Some value) false
  | Fulfilled => shaped a (pos t) true events
  | RejectedWith _ => False
  end.

(** While the chunk of the positions [lo], [lo + 1], ... is awaited: the
    tokens before [lo] have settled, the ones of the chunk stand where
    their events say, and the ones after it have no event. *)
Definition chunk_in_flight (tokens : list TokenAddress) (lo : nat)
    (pool : list Task) (s : State) : Prop :=
  (forall p token, (p < lo)%nat -> tokens !! p = Some token ->
     shaped (address token) p true (events_of p (trace s)))
  /\ (forall p, (lo + length pool <= p)%nat -> events_of p (trace s) = [])
  /\ (forall j t, pool !! j = Some t ->
        pos t = (lo + j)%nat /\ tokens !! (lo + j)%nat = Some (token t)
        /\ at_point t (events_of (pos t) (trace s))).

(** Every position has the events of a lifecycle, and a position that holds
    no token has none. *)
Definition lifecycles (tokens : list TokenAddress) (tr : list Event) : Prop :=
  forall p,
    match tokens !! p with
    | Some token => lifecycle (address token) p (events_of p tr)
    | None => events_of p tr = []
    end.

End WithCollaborators.

End Protocol.

(** ** The hourly job *)

Module Hourly.
Import JS Scoring Scheduler Routes Maintenance.

Section Job.
Context `{Collaborators}.

(** How a run of the hourly job ends: both steps have settled and line 606
    is reached, the [catch] block of lines 609-614 is, or an awaited step
    has not settled. *)
Inductive Hour : Type :=
| HourCompleted
| HourFailed (err : string)
| HourPending.

(** The store a call of one of the two jobs leaves. *)
Definition store_after (db : gmap string CachedTokenRecord) (report : Report)
    : gmap string CachedTokenRecord :=
  match report with
  | Analyzed run => store run.2
  | NothingToDo | Failed _ => db
  end.

(** The second step, lines 600-602, against the store [db]. *)
Definition update_step (fuel : nat) (schedule : list Entry)
    (db : gmap string CachedTokenRecord) (keys : Await (list string))
    (get : string -> Await (option CachedTokenRecord))
    : Hour * gmap string CachedTokenRecord :=
  let updateResult :=
    updateAllTokenScores fuel schedule db keys get (Some (int 10)) in
  match updateResult with
  | Failed err => (HourFailed err, db)
  | Analyzed (Aborted err, s) => (HourFailed err, store s)
  | Analyzed (Running, s) => (HourPending, store s)
  | NothingToDo | Analyzed (Completed _, _) =>
      (HourCompleted, store_after db updateResult)
  end.

(** The callback of lines 587-615 against the store [db]: [addNewTokens(1,
    300)] is awaited, then [updateAllTokenScores(10)], in one [try] block.
    [fetch] and [exists_] answer the first step, [keys] and [get] the
    second; each step has its own schedule. *)
Definition hourly_refresh (fuel1 : nat) (schedule1 : list Entry)
    (fuel2 : nat) (schedule2 : list Entry)
    (db : gmap string CachedTokenRecord)
    (fetch : number -> Await (list TokenAddress))
    (exists_ : string -> Await Z) (keys : Await (list string))
    (get : string -> Await (option CachedTokenRecord))
    : Hour * gmap string CachedTokenRecord :=
  let newTokensResult :=
    addNewTokens fuel1 schedule1 db fetch exists_ (Some (int 1))
      (Some (int 300)) in
  match newTokensResult with
  | Failed err => (HourFailed err, db)
  | Analyzed (Aborted err, s) => (HourFailed err, store s)
  | Analyzed (Running, s) => (HourPending, store s)
  | NothingToDo | Analyzed (Completed _, _) =>
      update_step fuel2 schedule2 (store_after db newTokensResult) keys get
  end.

End Job.

End Hourly.

(** ** Order and integrality of scores *)

Module ScoringOrder.
Import JS Scoring.

(** [x <= y] between two finite numbers. *)
Definition le (x y : number) : Prop :=
  match x, y with
  | Fin a, Fin b => (a <= b)%Q
  | _, _ => False
  end.


(** An integer between 0 and 100. *)
Definition whole_percent (x : number) : Prop :=
  exists z : Z, 0 <= z <= 100 /\ x = int z.

End ScoringOrder.

(** ** Concrete stores, replies and values *)

Module Fixtures.
Import JS Scoring Scheduler Routes Demo Maintenance Wallets.


(** A token on Base, and the record the pipeline builds for it under
    [Demo.succeeds]. *)
Definition base_token : TokenAddress := token_on 8453 "Base" "0xbb".

Definition base_record : CachedTokenRecord :=
  record_of base_token (calculateTrendingScore example_metrics) 1700000500
    example_metrics.

(** A store with one record, and one with two. *)
Definition one_record : gmap string CachedTokenRecord :=
  {[ "0xaa"%string := cached ]}.

Definition two_records : gmap string CachedTokenRecord :=
  <["0xbb"%string := record_of base_token (int 80) 1700000000 example_metrics]>
    one_record.

(** Collaborators that answer from a store, and a discovery that resolves
    with given tokens. *)
Definition reads (db : gmap string CachedTokenRecord)
    : string -> Await (option CachedTokenRecord) :=
  fun k => Resolves (db !! k).

Definition answers (db : gmap string CachedTokenRecord) : string -> Await Z :=
  fun k => Resolves (match db !! k with Some _ => 1 | None => 0 end).

Definition discovers (tokens : list TokenAddress)
    : number -> Await (list TokenAddress) :=
  fun _ => Resolves tokens.

(** A wallet analysis with bigints, and one without. *)
Definition wallet_report : value :=
  VObject
    [ ("holders"%string,
       VArray [VObject [("wallet"%string, VString "0x01");
                        ("balance"%string, VBigInt 1200)]]);
      ("net"%string, VBigInt (-5)) ].

Definition plain_report : value :=
  VObject
    [ ("holders"%string, VArray [VString "0x01"]);
      ("count"%string, VNumber (int 1)) ].

End Fixtures.

(** * Verification *)

(** ** Properties of the number model *)

Module JSFacts.
Import JS.

Lemma same_refl x : same x x.
Proof. destruct x; simpl; auto with qarith. Qed.

Lemma inf_of_sign_same a b c d :
  (a == b)%Q -> (c == d)%Q -> inf_of_sign (a ?= c)%Q = inf_of_sign (b ?= d)%Q.
Proof. intros Hab Hcd. now rewrite (Qcompare_comp _ _ Hab _ _ Hcd). Qed.

Lemma add_same x x' y y' : same x x' -> same y y' -> same (x + y) (x' + y').
Proof.
  destruct x, x', y, y'; simpl; try tauto.
  intros -> ->. reflexivity.
Qed.

Ltac sign_same :=
  repeat match goal with
  | H : (?a == ?b)%Q |- context [inf_of_sign (?a ?= 0)%Q] =>
      rewrite (inf_of_sign_same a b 0%Q 0%Q H (Qeq_refl _))
  | H : (?a == ?b)%Q |- context [inf_of_sign (0 ?= ?a)%Q] =>
      rewrite (inf_of_sign_same 0%Q 0%Q a b (Qeq_refl _) H)
  end.

Lemma mul_same x x' y y' : same x x' -> same y y' -> same (x * y) (x' * y').
Proof.
  destruct x, x', y, y'; simpl; try tauto; intros H1 H2;
    sign_same; try apply same_refl.
  now rewrite H1, H2.
Qed.

Lemma Qeq_bool_same a b c d :
  (a == b)%Q -> (c == d)%Q -> Qeq_bool a c = Qeq_bool b d.
Proof.
  intros Hab Hcd. apply eq_true_iff_eq.
  rewrite !Qeq_bool_iff, Hab, Hcd. tauto.
Qed.

Lemma Qle_bool_same a b c d :
  (a == b)%Q -> (c == d)%Q -> Qle_bool a c = Qle_bool b d.
Proof. intros Hab Hcd. now rewrite (Qleb_comp _ _ Hab _ _ Hcd). Qed.

Lemma div_same x x' y y' : same x x' -> same y y' -> same (x / y) (x' / y').
Proof.
  destruct x, x', y, y'; simpl; try tauto; intros H1 H2;
    try reflexivity.
  - rewrite (Qeq_bool_same q1 q2 0%Q 0%Q H2 (Qeq_refl _)).
    destruct (Qeq_bool q2 0) eqn:E; sign_same; try apply same_refl.
    simpl. now rewrite H1, H2.
  - rewrite (Qle_bool_same 0%Q 0%Q q q0 (Qeq_refl _) H2).
    destruct (Qle_bool 0 q0); exact I.
  - rewrite (Qle_bool_same 0%Q 0%Q q q0 (Qeq_refl _) H2).
    destruct (Qle_bool 0 q0); exact I.
Qed.

Lemma Math_min_same x x' y y' :
  same x x' -> same y y' -> same (Math_min x y) (Math_min x' y').
Proof.
  destruct x, x', y, y'; simpl; try tauto; intros H1 H2.
  rewrite (Qle_bool_same _ _ _ _ H1 H2). now destruct (Qle_bool q0 q2).
Qed.

Lemma Math_max_same x x' y y' :
  same x x' -> same y y' -> same (Math_max x y) (Math_max x' y').
Proof.
  destruct x, x', y, y'; simpl; try tauto; intros H1 H2.
  rewrite (Qle_bool_same _ _ _ _ H1 H2). now destruct (Qle_bool q0 q2).
Qed.

(** Rounding yields the same representation for equal values. *)
Lemma Math_round_same x x' : same x x' -> Math_round x = Math_round x'.
Proof.
  destruct x, x'; cbn [same Math_round]; try tauto.
  intros H. do 2 f_equal. apply Qfloor_comp. now rewrite H.
Qed.

Lemma Qle_bool_inject a b : Qle_bool (inject_Z a) (inject_Z b) = (a <=? b).
Proof. unfold Qle_bool; simpl. now rewrite !Z.mul_1_r. Qed.

(** The integer [Math.round] produces, against the bounds 0 and 100. *)
Lemma round_nonpos q : (q <= 0)%Q -> Qfloor (q + (1 # 2)) <= 0.
Proof.
  intros H. change 0 with (Qfloor (0 + (1 # 2))).
  apply Qfloor_resp_le. now apply Qplus_le_l.
Qed.

Lemma round_nonneg q : (0 <= q)%Q -> 0 <= Qfloor (q + (1 # 2)).
Proof.
  intros H. change 0 with (Qfloor (0 + (1 # 2))).
  apply Qfloor_resp_le. now apply Qplus_le_l.
Qed.

Lemma round_le_100 q : (q <= 100)%Q -> Qfloor (q + (1 # 2)) <= 100.
Proof.
  intros H. change 100 with (Qfloor (100 + (1 # 2))).
  apply Qfloor_resp_le. now apply Qplus_le_l.
Qed.

Lemma round_ge_100 q : (100 <= q)%Q -> 100 <= Qfloor (q + (1 # 2)).
Proof.
  intros H. change 100 with (Qfloor (100 + (1 # 2))).
  apply Qfloor_resp_le. now apply Qplus_le_l.
Qed.

Lemma Qle_bool_false a b : Qle_bool a b = false -> (b <= a)%Q.
Proof.
  intros H. apply Qlt_le_weak, Qnot_le_lt. intros Hle.
  apply Qle_bool_iff in Hle. congruence.
Qed.

End JSFacts.

(** ** The trending score against the specification's formula *)

Module ScoringProofs.
Import JS JSFacts Scoring.

Lemma clamp_below_only v lo : clamp v lo PInf = Math_max v lo.
Proof. unfold clamp. now destruct (Math_max v lo). Qed.

(** Clamping the rounded value and rounding the clamped value agree. *)
Lemma clamp_round_commute s s' :
  same s s' ->
  Math_max (int 0) (Math_min (int 100) (Math_round s))
  = Math_round (clamp s' (int 0) (int 100)).
Proof.
  destruct s as [q| | |], s' as [q'| | |]; cbn [same]; try tauto;
    try reflexivity.
  intros Hq.
  unfold clamp, int. cbn [Math_round Math_max Math_min].
  rewrite (Qfloor_comp _ _ (Qplus_comp _ _ Hq _ _ (Qeq_refl (1 # 2)))).
  set (z := Qfloor (q' + (1 # 2))).
  rewrite Qle_bool_inject.
  destruct (Qle_bool q' (inject_Z 0)) eqn:E0.
  - apply Qle_bool_iff in E0. pose proof (round_nonpos q' E0) as Hz.
    fold z in Hz. cbn [Math_round].
    destruct (100 <=? z) eqn:E1; [apply Z.leb_le in E1; lia|].
    cbn [Math_max]. rewrite Qle_bool_inject.
    destruct (0 <=? z) eqn:E2; [apply Z.leb_le in E2|]; simpl.
    + now replace z with 0 by lia.
    + reflexivity.
  - apply Qle_bool_false in E0. pose proof (round_nonneg q' E0) as Hz.
    fold z in Hz. cbn [Math_min].
    destruct (Qle_bool q' (inject_Z 100)) eqn:E1.
    + apply Qle_bool_iff in E1. pose proof (round_le_100 q' E1) as Hz'.
      fold z in Hz'. cbn [Math_round]. fold z.
      destruct (100 <=? z) eqn:E2; [apply Z.leb_le in E2|];
        cbn [Math_max]; rewrite Qle_bool_inject.
      * simpl. now replace z with 100 by lia.
      * destruct (0 <=? z) eqn:E3; [reflexivity|].
        apply Z.leb_gt in E3. lia.
    + apply Qle_bool_false in E1. pose proof (round_ge_100 q' E1) as Hz'.
      fold z in Hz'.
      destruct (100 <=? z) eqn:E2; [|apply Z.leb_gt in E2; lia].
      reflexivity.
Qed.

(** The rounded and clamped value of any number other than NaN is a finite
    number of [0, 100]. *)
Lemma clamp_round_between s :
  s <> NaN ->
  between 0 100 (Math_max (int 0) (Math_min (int 100) (Math_round s))).
Proof.
  destruct s as [q| | |]; intros Hs; try congruence;
    try (simpl; split; discriminate).
  unfold int. cbn [Math_round Math_min]. rewrite Qle_bool_inject.
  set (z := Qfloor (q + (1 # 2))).
  destruct (100 <=? z) eqn:E1.
  - simpl. split; discriminate.
  - apply Z.leb_gt in E1. cbn [Math_max]. rewrite Qle_bool_inject.
    destruct (0 <=? z) eqn:E2; cbn [between].
    + apply Z.leb_le in E2. split.
      * change 0%Q with (inject_Z 0). rewrite <- Zle_Qle. lia.
      * change 100%Q with (inject_Z 100). rewrite <- Zle_Qle. lia.
    + split; discriminate.
Qed.









(** A NaN property makes the score NaN: finiteness is needed for the bound. *)
Example calculateTrendingScore_nan :
  calculateTrendingScore
    {| activityScore := Some NaN; liquidityHealthScore := None;
       momentumScore := None; distributionScore := None;
       buyVsSellRatio := None; priceChange24h := None |} = NaN.
Proof. reflexivity. Qed.

End ScoringProofs.

(** ** The composite score in binary64 arithmetic *)

Module DoubleProofs.
Import JS JSFacts Scoring ScoringProofs.

(** The literals of the formula are the literals of the code. *)
Lemma same_literals :
  Double.literal 0.20 = Double.literal 0.2
  /\ Double.literal 0.10 = Double.literal 0.1.
Proof. split; vm_compute; reflexivity. Qed.

(** The sum of the code is the sum inside the specification's formula. *)
Lemma weighted_sum_is_formula m :
  Double.weighted_sum m
  = (Double.add
       (Double.add
          (Double.add
             (Double.add
                (Double.add
                   (Double.mul (or_default (int 0) (activityScore m))
                      (Double.literal 0.25))
                   (Double.mul (or_default (int 0) (liquidityHealthScore m))
                      (Double.literal 0.20)))
                (Double.mul (or_default (int 0) (distributionScore m))
                   (Double.literal 0.15)))
             (Double.mul (or_default (int 0) (momentumScore m))
                (Double.literal 0.10)))
          (Double.mul
             (Math_min (or_default (int 1) (buyVsSellRatio m)) (int 100))
             (Double.literal 0.10)))
       (Double.div
          (clamp (or_default (int 0) (priceChange24h m)) (int (-100)) PInf)
          (int 2))).
Proof.
  destruct same_literals as [-> ->]. rewrite clamp_below_only. reflexivity.
Qed.

(** The rounding agrees with the Standard Library's binary64 on the
    literals of the code, on the products and the sum that separate the
    code from exact arithmetic, on ties, on subnormal numbers and at the
    overflow threshold. *)
Example round64_as_the_library :
  Double.literal 0.25 = Double.of_spec (Double.spec_quotient 25 100)
  /\ Double.literal 0.2 = Double.of_spec (Double.spec_quotient 2 10)
  /\ Double.literal 0.15 = Double.of_spec (Double.spec_quotient 15 100)
  /\ Double.literal 0.1 = Double.of_spec (Double.spec_quotient 1 10)
  /\ Double.mul (int 6) (Double.literal 0.15)
     = Double.of_spec
         (SpecFloat.SFmul 53 1024 (Double.spec_dyadic 6 0)
            (Double.spec_quotient 15 100))
  /\ Double.add (Double.literal 0.1) (Double.literal 0.2)
     = Double.of_spec
         (SpecFloat.SFadd 53 1024 (Double.spec_quotient 1 10)
            (Double.spec_quotient 2 10))
  /\ round64 (inject_Z (2 ^ 53 + 1))
     = Double.of_spec (Double.spec_dyadic (2 ^ 53 + 1) 0)
  /\ round64 (inject_Z (2 ^ 53 + 3))
     = Double.of_spec (Double.spec_dyadic (2 ^ 53 + 3) 0)
  /\ round64 (3 # Pos.pow 2 1075)
     = Double.of_spec (Double.spec_dyadic 3 (-1075))
  /\ round64 (1 # Pos.pow 2 1075)
     = Double.of_spec (Double.spec_dyadic 1 (-1075))
  /\ round64 (inject_Z (2 ^ 1024 - 2 ^ 970))
     = Double.of_spec (Double.spec_dyadic (2 ^ 54 - 1) 970)
  /\ round64 (inject_Z (2 ^ 1024 - 2 ^ 970 - 1))
     = Double.of_spec (Double.spec_dyadic (2 ^ 1024 - 2 ^ 970 - 1) 0).
Proof. repeat split; vm_compute; reflexivity. Qed.

(** In exact arithmetic the score can differ: at these metrics the sum of
    the code is below 3/2 and the score is 1, where the exact sum is 3/2
    and would round to 2. *)
Example rounding_of_the_sum_shows :
  Double.calculateTrendingScore Double.just_below_half = int 1
  /\ Scoring.calculateTrendingScore Double.just_below_half = int 2
  /\ lt (Double.weighted_sum Double.just_below_half) (Fin 1.5) = true.
Proof. repeat split; vm_compute; reflexivity. Qed.

(** The bounds of the score do not depend on the arithmetic. *)
Lemma binary64_score_between m :
  Double.weighted_sum m <> NaN ->
  between 0 100 (Double.calculateTrendingScore m).
Proof. apply clamp_round_between. Qed.

(** C1. For every metrics input [calculateTrendingScore], computed in
    binary64 arithmetic as the code computes it, returns the value of the
    specification's formula in the same arithmetic, the rounding of the sum
    clamped to [0, 100]: the code clamps the rounded sum, and the two
    orders give the same number on every input (NaN and the infinities
    included).  On the specification's example (80, 50, 60, 30, ratio 2,
    price change 10) it returns 47. *)
Theorem score_matches_formula :
  (forall metrics : Metrics,
     Double.calculateTrendingScore metrics = Double.spec_score metrics)
  /\ Double.calculateTrendingScore example_metrics = int 47.
Proof.
  split.
  - intros m. unfold Double.calculateTrendingScore, Double.spec_score.
    rewrite weighted_sum_is_formula.
    apply clamp_round_commute, same_refl.
  - vm_compute. reflexivity.
Qed.

End DoubleProofs.

(** ** The per-token pipeline *)

Module PipelineProofs.
Import JS Scoring Scheduler.

Section WithCollaborators.
Context `{Collaborators}.

Lemma failure_lines_app l1 l2 :
  failure_lines (l1 ++ l2) = failure_lines l1 + failure_lines l2.
Proof.
  induction l1 as [|[] l1 IH]; simpl; rewrite ?IH; lia.
Qed.

(** The validation and scoring segment either returns after counting the
    token as having no data, throws, or suspends on [client.set]. *)
Lemma validate_and_score_cases token transactions analysis now s s1 c :
  validate_and_score token transactions analysis now s = (s1, c) ->
  (c = Return /\ s1 = count incr_noData s)
  \/ (exists err, c = Throw err /\ s1 = s)
  \/ (exists value, c = Suspend (AwaitSet (address token) value)
                        (CallSet (address token) value)
        /\ counters s1 = counters s /\ store s1 = store s
        /\ trace s1 = trace s
        /\ failure_lines (console s1) = failure_lines (console s)).
Proof.
  unfold validate_and_score. intros Hv.
  destruct transactions as [[|tx txs]|]; simplify_eq; auto.
  destruct analysis as [a|]; simplify_eq; auto.
  destruct (analyzeOnChain (tx :: txs) a) as [err|m]; simplify_eq.
  - right; left. eauto.
  - right; right. eexists. split; [reflexivity|].
    destruct (_ || _); simpl; rewrite ?failure_lines_app; simpl;
      repeat split; lia.
Qed.

(** Every resumption has one of the five effects of [Resumed], and only a
    suspended task is resumed. *)
Lemma resume_Resumed forceUpdate t reply now s t' s' :
  resume forceUpdate t reply now s = Some (t', s') ->
  pending (point t) /\ Resumed t s t' s'.
Proof.
  unfold resume, try_body, finally_block. intros Hr.
  destruct (point t) eqn:Hp, reply; simplify_eq; simpl;
    try (split; [exact I|]; try (constructor; fail)).
  - destruct (_ && _); simplify_eq.
    + apply Resumed_skip.
    + now apply Resumed_suspend.
  - now apply Resumed_suspend.
  - destruct (validate_and_score _ _ _ _ _) as [s1 c] eqn:Hv.
    apply validate_and_score_cases in Hv
      as [[-> ->]|[(err & -> & ->)|(v & -> & Hc & Hs & Ht & Hl)]];
      simplify_eq.
    + apply Resumed_noData.
    + apply Resumed_throw.
    + now apply Resumed_suspend.
  - now apply Resumed_update.
Qed.

(** A settled task is never resumed. *)
Lemma settled_is_inert forceUpdate t reply now s :
  ~ pending (point t) -> resume forceUpdate t reply now s = None.
Proof.
  unfold resume, try_body. destruct (point t), reply; simpl; tauto.
Qed.

(** C5. When [client.get] resolves for a token whose address the store
    holds and [forceUpdate] is false, the resumption counts the token as
    skipped, exactly once, and as processed; no other counter moves, the
    store and the console are unchanged, no command is sent (the only event
    is the settling of the task), and the task is over: nothing resumes it
    again, so no transaction fetch, metadata fetch or cache write is ever
    made for it. *)
Theorem cache_hit_is_skipped (t : Task) (now : Z) (s : State)
    (existing : CachedTokenRecord) :
  point t = AwaitGet ->
  store s !! address (token t) = Some existing ->
  exists t' s',
    resume false t GotData now s = Some (t', s')
    /\ skipped (counters s') = skipped (counters s) + 1
    /\ processed (counters s') = processed (counters s) + 1
    /\ updated (counters s') = updated (counters s)
    /\ noData (counters s') = noData (counters s)
    /\ failed (counters s') = failed (counters s)
    /\ store s' = store s
    /\ console s' = console s
    /\ trace s' = trace s ++ [Settled (pos t)]
    /\ point t' = Fulfilled
    /\ (forall forceUpdate reply now' s'',
          resume forceUpdate t' reply now' s'' = None).
Proof.
  intros Hp Hs. unfold resume, try_body. rewrite Hp, Hs. simpl.
  do 2 eexists. split; [reflexivity|]. simpl.
  repeat split; intros; now apply settled_is_inert.
Qed.

(** C6, as the code has it.  A task whose transaction fetch has resolved,
    whatever it gave (nothing and an empty array included), counts nothing
    and writes nothing at that point: it sends the metadata fetch and waits
    for it.  The validation runs once both fetches have
    resolved: if the transaction fetch gave nothing or an empty array, or
    the metadata fetch gave nothing, the token is counted as having no data
    (not as failed), exactly once, and as processed; the store is unchanged
    and no command is sent.  If the metadata fetch rejects, the token is
    counted as failed whatever the transaction fetch gave, an empty array
    included. *)
Theorem no_data_after_both_fetches (forceUpdate : bool) (t : Task)
    (transactions : option (list Transaction)) (now : Z) (s : State) :
  point t = AwaitMetadata transactions ->
  (forall analysis,
     transactions = None \/ transactions = Some [] \/ analysis = None ->
     exists t' s',
       resume forceUpdate t (GotMetadata analysis) now s = Some (t', s')
       /\ noData (counters s') = noData (counters s) + 1
       /\ failed (counters s') = failed (counters s)
       /\ processed (counters s') = processed (counters s) + 1
       /\ updated (counters s') = updated (counters s)
       /\ skipped (counters s') = skipped (counters s)
       /\ store s' = store s
       /\ trace s' = trace s ++ [Settled (pos t)]
       /\ point t' = Fulfilled)
  /\ (forall err,
        exists t' s',
          resume forceUpdate t (Rejected err) now s = Some (t', s')
          /\ noData (counters s') = noData (counters s)
          /\ failed (counters s') = failed (counters s) + 1
          /\ store s' = store s
          /\ point t' = Fulfilled)
  /\ (forall before now0 s0,
        point before = AwaitTransactions ->
        resume forceUpdate before (GotTransactions transactions) now0 s0
        = Some (move before (AwaitMetadata transactions),
                emit (Called (pos before)
                        (CallMetadata (address (token before)))) s0))
  /\ (forall before now0 s0 analysis,
        point before = AwaitTransactions ->
        transactions = None \/ transactions = Some [] \/ analysis = None ->
        exists t1 s1 t2 s2,
          resume forceUpdate before (GotTransactions transactions) now0 s0
          = Some (t1, s1)
          /\ counters s1 = counters s0
          /\ store s1 = store s0
          /\ point t1 = AwaitMetadata transactions
          /\ resume forceUpdate t1 (GotMetadata analysis) now s1
             = Some (t2, s2)
          /\ noData (counters s2) = noData (counters s0) + 1
          /\ failed (counters s2) = failed (counters s0)
          /\ processed (counters s2) = processed (counters s0) + 1
          /\ store s2 = store s0
          /\ trace s2
             = trace s0
               ++ [Called (pos before) (CallMetadata (address (token before)));
                   Settled (pos before)]
          /\ point t2 = Fulfilled).
Proof.
  assert (Hv : forall tok analysis now1 s1,
            transactions = None \/ transactions = Some [] \/ analysis = None ->
            validate_and_score tok transactions analysis now1 s1
            = (count incr_noData s1, Return)).
  { intros tok analysis now1 s1 Hno. unfold validate_and_score.
    destruct Hno as [->|[->| ->]]; try reflexivity.
    now destruct transactions as [[|]|]. }
  intros Hp. split; [|split; [|split]].
  - intros analysis Hno. unfold resume, try_body. rewrite Hp.
    rewrite (Hv _ _ _ _ Hno).
    do 2 eexists. split; [reflexivity|]. simpl. repeat split.
  - intros err. unfold resume, try_body. rewrite Hp.
    do 2 eexists. split; [reflexivity|].
    unfold finally_block, catch_block. simpl.
    destruct (_ <=? 5); simpl; repeat split.
  - intros before now0 s0 Hb. unfold resume, try_body. now rewrite Hb.
  - intros before now0 s0 analysis Hb Hno.
    exists (move before (AwaitMetadata transactions)),
      (emit (Called (pos before) (CallMetadata (address (token before)))) s0).
    do 2 eexists.
    split; [unfold resume, try_body; now rewrite Hb|].
    split; [done|]. split; [done|]. split; [done|].
    split.
    { unfold resume, try_body. simpl. rewrite (Hv _ _ _ _ Hno). reflexivity. }
    simpl. rewrite <- app_assoc. repeat split.
Qed.

(** A scoring pass: from the resolution of the metadata fetch to the
    resolution of [client.set]. *)
Lemma scoring_pass forceUpdate t transactions analysis metrics now now' s :
  point t = AwaitMetadata (Some transactions) ->
  transactions <> [] ->
  analyzeOnChain transactions analysis = inr metrics ->
  let value :=
    record_of (token t) (calculateTrendingScore metrics) now metrics in
  exists t1 s1 t2 s2,
    resume forceUpdate t (GotMetadata (Some analysis)) now s = Some (t1, s1)
    /\ resume forceUpdate t1 SetDone now' s1 = Some (t2, s2)
    /\ trace s1 = trace s ++ [Called (pos t) (CallSet (address (token t)) value)]
    /\ store s1 = store s
    /\ store s2 = <[address (token t) := value]> (store s)
    /\ updated (counters s2) = updated (counters s) + 1
    /\ point t2 = Fulfilled.
Proof.
  intros Hp Hne Ha value. unfold resume, try_body. rewrite Hp.
  unfold validate_and_score.
  destruct transactions as [|tx txs]; [congruence|]. rewrite Ha.
  do 4 eexists. split; [reflexivity|]. simpl. split; [reflexivity|].
  destruct (_ || _); simpl; repeat split.
Qed.

(** C9. The key of the cache write is the token's address and nothing else:
    when two tokens have the same address, whatever their chains, the
    successful pass of the first stores its record under that address and
    the successful pass of the second replaces it whole; the store ends as
    if the first pass had not written, and holds under that address the
    record of the second token, chain included. *)
Theorem cache_key_is_address_only (forceUpdate : bool) (t1 t2 : Task)
    (txs1 txs2 : list Transaction) (a1 a2 : TokenData) (m1 m2 : Metrics)
    (now1 now1' now2 now2' : Z) (s : State) :
  address (token t1) = address (token t2) ->
  point t1 = AwaitMetadata (Some txs1) -> txs1 <> [] ->
  analyzeOnChain txs1 a1 = inr m1 ->
  point t2 = AwaitMetadata (Some txs2) -> txs2 <> [] ->
  analyzeOnChain txs2 a2 = inr m2 ->
  let r1 := record_of (token t1) (calculateTrendingScore m1) now1 m1 in
  let r2 := record_of (token t2) (calculateTrendingScore m2) now2 m2 in
  exists t1a s1 t1b s2 t2a s3 t2b s4,
    resume forceUpdate t1 (GotMetadata (Some a1)) now1 s = Some (t1a, s1)
    /\ resume forceUpdate t1a SetDone now1' s1 = Some (t1b, s2)
    /\ resume forceUpdate t2 (GotMetadata (Some a2)) now2 s2 = Some (t2a, s3)
    /\ resume forceUpdate t2a SetDone now2' s3 = Some (t2b, s4)
    /\ store s2 = <[address (token t1) := r1]> (store s)
    /\ store s4 = <[address (token t1) := r2]> (store s)
    /\ store s4 !! address (token t1) = Some r2
    /\ c_chainId r2 = chainId (token t2)
    /\ dom (store s4) = {[address (token t1)]} ∪ dom (store s).
Proof.
  intros Haddr Hp1 Hn1 Ha1 Hp2 Hn2 Ha2 r1 r2.
  destruct (scoring_pass forceUpdate t1 txs1 a1 m1 now1 now1' s Hp1 Hn1 Ha1)
    as (t1a & s1 & t1b & s2 & R1 & R2 & _ & _ & Hs2 & _).
  destruct (scoring_pass forceUpdate t2 txs2 a2 m2 now2 now2' s2 Hp2 Hn2 Ha2)
    as (t2a & s3 & t2b & s4 & R3 & R4 & _ & _ & Hs4 & _).
  exists t1a, s1, t1b, s2, t2a, s3, t2b, s4.
  assert (E : store s4 = <[address (token t1) := r2]> (store s)).
  { rewrite Hs4, Hs2, <- Haddr. apply insert_insert_eq. }
  repeat split; try assumption.
  - rewrite E. apply lookup_insert_eq.
  - rewrite E. apply dom_insert_L.
Qed.

End WithCollaborators.

End PipelineProofs.

(** ** Runs of the batch scheduler *)

Module BatchProofs.
Import JS Scoring Scheduler PipelineProofs.

(** *** Properties of the state that every step of a run keeps *)

Section StateInvariant.
Context `{Collaborators}.
Variable P : State -> Prop.
Hypothesis P_emit : forall e s, P s -> P (emit e s).
Hypothesis P_log :
  forall l s, (forall a e, l <> LogFailure a e) -> P s -> P (log l s).
Hypothesis P_resume : forall t s t' s', Resumed t s t' s' -> P s -> P s'.

Lemma start_batch_keeps batch : forall first s,
  P s -> P (start_batch first batch s).2.
Proof.
  induction batch as [|token rest IH]; intros first s Hs; simpl; [done|].
  specialize (IH (S first)
    (emit (Called first (CallGet (address token))) (emit (Started first) s))).
  destruct (start_batch _ rest _) as [pool s']. simpl in *.
  apply IH. now do 2 apply P_emit.
Qed.

Lemma await_all_keeps forceUpdate schedule : forall pool s,
  P s -> P (await_all forceUpdate schedule pool s).2.
Proof.
  induction schedule as [|e schedule IH]; intros pool s Hs; simpl.
  - now destruct (Promise_all pool).
  - destruct (Promise_all pool); try done.
    destruct (pool !! who e) as [t|]; [|now apply IH].
    destruct (resume forceUpdate t (answer e) (clock e) s) as [[t' s']|] eqn:Hr;
      [|now apply IH].
    apply IH. apply resume_Resumed in Hr as [_ Hr]. eauto.
Qed.

Lemma batches_keeps fuel tokens forceUpdate concurrency :
  forall i schedule s,
    P s -> P (batches fuel tokens forceUpdate concurrency i schedule s).2.
Proof.
  induction fuel as [|fuel IH]; intros i schedule s Hs; simpl; [done|].
  destruct (lt i _).
  - set (batch := Array_slice _ _ _). set (first := Z.to_nat _).
    pose proof (start_batch_keeps batch first s Hs) as H1.
    destruct (start_batch _ _ s) as [pool s1]. simpl in H1.
    pose proof (await_all_keeps forceUpdate schedule pool s1 H1) as H2.
    destruct (await_all _ _ _ _) as [[schedule' pool'] s2]. simpl in H2.
    destruct (Promise_all pool'); try done.
    apply IH. now apply P_log.
  - simpl. now apply P_log.
Qed.

End StateInvariant.

Section Runs.
Context `{Collaborators}.

Lemma balanced_Resumed t s t' s' :
  Resumed t s t' s' -> balanced (counters s) -> balanced (counters s').
Proof.
  unfold balanced.
  destruct 1 as [next c s1 _ Hc _ _ _| | |key value _|err]; simpl;
    rewrite ?Hc; try lia.
  unfold catch_block. destruct (_ <=? 5); simpl; lia.
Qed.

Lemma failures_logged_Resumed t s t' s' :
  Resumed t s t' s' -> failures_logged s -> failures_logged s'.
Proof.
  unfold failures_logged.
  destruct 1 as [next c s1 _ Hc _ _ Hl| | |key value _|err]; simpl;
    rewrite ?Hc, ?Hl; try lia.
  unfold catch_block. simpl.
  destruct (failed (counters s) + 1 <=? 5) eqn:E; simpl;
    rewrite ?failure_lines_app; simpl; lia.
Qed.

Lemma failures_logged_log l s :
  (forall a e, l <> LogFailure a e) ->
  failures_logged s -> failures_logged (log l s).
Proof.
  unfold failures_logged. simpl. rewrite failure_lines_app.
  intros Hl. destruct l; simpl; try lia. now destruct (Hl addr err).
Qed.

(** The counter equation and the bound on the failure lines hold in every
    state a run reaches. *)
Lemma run_balanced fuel schedule db tokens forceUpdate concurrency :
  balanced (counters
    (analyzeAndStoreTokens fuel schedule db tokens forceUpdate concurrency).2).
Proof.
  apply (batches_keeps (fun s => balanced (counters s))); try done.
  intros; eauto using balanced_Resumed.
Qed.

Lemma run_failures_logged fuel schedule db tokens forceUpdate concurrency :
  failures_logged
    (analyzeAndStoreTokens fuel schedule db tokens forceUpdate concurrency).2.
Proof.
  apply (batches_keeps failures_logged); try done.
  - apply failures_logged_log.
  - intros; eauto using failures_logged_Resumed.
Qed.

(** *** Properties of a batch and the state that every resumption keeps *)

Lemma await_all_inv forceUpdate (Q : list Task -> State -> Prop) :
  (forall pool s j t reply now t' s',
     pool !! j = Some t ->
     resume forceUpdate t reply now s = Some (t', s') ->
     Q pool s -> Q (<[j := t']> pool) s') ->
  forall schedule pool s,
    Q pool s ->
    Q (await_all forceUpdate schedule pool s).1.2
      (await_all forceUpdate schedule pool s).2.
Proof.
  intros Hstep. induction schedule as [|e schedule IH]; intros pool s HQ; simpl.
  - now destruct (Promise_all pool).
  - destruct (Promise_all pool); try done.
    destruct (pool !! who e) as [t|] eqn:Ht; [|now apply IH].
    destruct (resume forceUpdate t (answer e) (clock e) s) as [[t' s']|] eqn:Hr;
      [|now apply IH].
    apply IH. eauto.
Qed.

(** What [start_batch] builds: one task per token, in order, each
    suspended on [client.get]; only the trace changes. *)
Lemma start_batch_spec batch : forall first s,
  let r := start_batch first batch s in
  length r.1 = length batch
  /\ (forall j t, r.1 !! j = Some t ->
        pos t = (first + j)%nat /\ point t = AwaitGet)
  /\ counters r.2 = counters s /\ store r.2 = store s
  /\ console r.2 = console s.
Proof.
  induction batch as [|token rest IH]; intros first s; simpl.
  - split; [done|]. split; [|done].
    intros j t Hj. now rewrite lookup_nil in Hj.
  - specialize (IH (S first)
      (emit (Called first (CallGet (address token))) (emit (Started first) s))).
    destruct (start_batch _ rest _) as [pool s']. simpl in *.
    destruct IH as (Hlen & Hpool & Hc & Hst & Hco).
    split; [congruence|]. split; [|done].
    intros [|j] t Hj; simpl in Hj.
    + simplify_eq. simpl. split; [lia|done].
    + apply Hpool in Hj as [-> ->]. split; [lia|done].
Qed.

(** No task is ever rejected, so [Promise.all] never rejects. *)
Lemma Resumed_not_rejected t s t' s' err :
  Resumed t s t' s' -> point t' <> RejectedWith err.
Proof.
  destruct 1 as [next c s1 Hn _ _ _ _| | |key value _|e]; simpl; try done.
  intros ->. exact Hn.
Qed.

Lemma none_rejected_insert pool j t' :
  none_rejected pool ->
  (forall err, point t' <> RejectedWith err) ->
  none_rejected (<[j := t']> pool).
Proof.
  intros Hpool Ht' k t Hk.
  destruct (decide (j = k)) as [->|Hne].
  - destruct (decide (k < length pool)%nat) as [Hlt|Hge].
    + rewrite list_lookup_insert_eq in Hk by done. now simplify_eq.
    + rewrite list_insert_ge in Hk by lia. eauto.
  - rewrite list_lookup_insert_ne in Hk by done. eauto.
Qed.

Lemma Promise_all_not_rejected pool err :
  none_rejected pool -> Promise_all pool <> SomeRejected err.
Proof.
  induction pool as [|t rest IH]; intros Hpool; simpl; [done|].
  assert (Hrest : none_rejected rest).
  { intros j u Hj. apply (Hpool (S j) u Hj). }
  specialize (IH Hrest).
  pose proof (Hpool 0%nat t eq_refl) as Ht.
  destruct (point t); try (destruct (Promise_all rest); congruence);
    try done.
  now destruct (Ht err0).
Qed.

Lemma await_all_none_rejected forceUpdate schedule pool s :
  none_rejected pool ->
  none_rejected (await_all forceUpdate schedule pool s).1.2.
Proof.
  intros Hpool.
  apply (await_all_inv forceUpdate (fun pool _ => none_rejected pool));
    [|done].
  intros pool0 s0 j t reply now t' s' _ Hr Hq.
  apply resume_Resumed in Hr as [_ Hr].
  apply none_rejected_insert; [done|].
  intros err. eapply Resumed_not_rejected, Hr.
Qed.

Lemma start_batch_none_rejected first batch s :
  none_rejected (start_batch first batch s).1.
Proof.
  intros j t Hj err.
  destruct (start_batch_spec batch first s) as (_ & Hpool & _).
  apply Hpool in Hj as [_ ->]. done.
Qed.

(** A call of [analyzeAndStoreTokens] is never rejected. *)
Lemma batches_never_aborted fuel tokens forceUpdate concurrency err :
  forall i schedule s,
    (batches fuel tokens forceUpdate concurrency i schedule s).1 <> Aborted err.
Proof.
  induction fuel as [|fuel IH]; intros i schedule s; simpl; [done|].
  destruct (lt i _); [|done].
  set (batch := Array_slice _ _ _). set (first := Z.to_nat _).
  pose proof (start_batch_none_rejected first batch s) as H1.
  destruct (start_batch _ _ s) as [pool s1]. simpl in H1.
  pose proof (await_all_none_rejected forceUpdate schedule pool s1 H1) as H2.
  destruct (await_all _ _ _ _) as [[schedule' pool'] s2]. simpl in H2.
  destruct (Promise_all pool') eqn:E; [done|apply IH|].
  now apply Promise_all_not_rejected in E.
Qed.

(** *** Every token of the list is processed once *)

Lemma unsettled_insert pool : forall j t t',
  pool !! j = Some t ->
  unsettled (<[j := t']> pool)
  = unsettled pool - weight (point t) + weight (point t').
Proof.
  induction pool as [|u rest IH]; intros [|j] t t' Hj; simpl in *;
    simplify_eq; try lia.
  rewrite (IH j t t' Hj). lia.
Qed.

Lemma Resumed_processed t s t' s' :
  pending (point t) -> Resumed t s t' s' ->
  processed (counters s') + weight (point t')
  = processed (counters s) + weight (point t).
Proof.
  intros Hp Hr.
  assert (Hw : weight (point t) = 1) by (now destruct (point t)).
  rewrite Hw.
  destruct Hr as [next c s1 Hn Hc _ _ _| | |key value _|err]; simpl;
    rewrite ?Hc; try lia.
  - now destruct next.
  - unfold catch_block. destruct (_ <=? 5); simpl; lia.
Qed.

Lemma await_all_processed forceUpdate schedule pool s :
  let r := await_all forceUpdate schedule pool s in
  processed (counters r.2) + unsettled r.1.2
  = processed (counters s) + unsettled pool.
Proof.
  apply (await_all_inv forceUpdate
    (fun pool0 s0 => processed (counters s0) + unsettled pool0
                     = processed (counters s) + unsettled pool)); [|done].
  intros pool0 s0 j t reply now t' s' Hj Hr HQ.
  apply resume_Resumed in Hr as [Hp Hr].
  rewrite (unsettled_insert pool0 j t t' Hj).
  pose proof (Resumed_processed t s0 t' s' Hp Hr). lia.
Qed.

Lemma all_fulfilled_unsettled pool :
  Promise_all pool = AllFulfilled -> unsettled pool = 0.
Proof.
  induction pool as [|t rest IH]; simpl; [done|].
  destruct (point t); simpl; try done;
    destruct (Promise_all rest); try done; intros _; rewrite IH; done.
Qed.

Lemma start_batch_unsettled batch : forall first s,
  unsettled (start_batch first batch s).1 = Z.of_nat (length batch).
Proof.
  induction batch as [|token rest IH]; intros first s; simpl; [done|].
  specialize (IH (S first)
    (emit (Called first (CallGet (address token))) (emit (Started first) s))).
  destruct (start_batch _ rest _) as [pool s']. simpl in *. lia.
Qed.

(** The batch taken at index [i] when the chunk size is positive. *)
Lemma slice_length {A} (l : list A) i c :
  0 <= i < Z.of_nat (length l) -> 1 <= c ->
  Z.of_nat (length (Array_slice l (Int i) (Int (i + c))))
  = Z.min (i + c) (Z.of_nat (length l)) - i.
Proof.
  intros Hi Hc. unfold Array_slice, relative_index.
  destruct (i <? 0) eqn:E1; [apply Z.ltb_lt in E1; lia|].
  destruct (i + c <? 0) eqn:E2; [apply Z.ltb_lt in E2; lia|].
  rewrite length_take, length_drop. lia.
Qed.

Lemma batches_processed fuel tokens forceUpdate concurrency :
  1 <= concurrency ->
  forall i schedule s summary s',
    0 <= i ->
    processed (counters s) = Z.min i (Z.of_nat (length tokens)) ->
    batches_int fuel tokens forceUpdate concurrency i schedule s
    = (Completed summary, s') ->
    processed (counters s') = Z.of_nat (length tokens).
Proof.
  intros Hc. induction fuel as [|fuel IH];
    intros i schedule s summary s' Hi Hp; simpl; [done|].
  destruct (i <? _) eqn:E.
  - apply Z.ltb_lt in E.
    pose proof (slice_length tokens i concurrency (conj Hi E) Hc) as Hlen.
    set (batch := Array_slice tokens (Int i) (Int (i + concurrency))) in *.
    set (first := Z.to_nat _).
    pose proof (start_batch_unsettled batch first s) as Hu.
    destruct (start_batch_spec batch first s) as (_ & _ & Hcs & _).
    destruct (start_batch first batch s) as [pool s1]. simpl in *.
    pose proof (await_all_processed forceUpdate schedule pool s1) as Ha.
    destruct (await_all _ _ _ _) as [[schedule' pool'] s2]. simpl in Ha.
    destruct (Promise_all pool') eqn:EP; try done.
    apply all_fulfilled_unsettled in EP.
    rewrite Hcs in Ha.
    intros Hb. eapply IH; [| |exact Hb]; [lia|]. simpl. lia.
  - apply Z.ltb_ge in E. intros [= <- <-]. simpl. lia.
Qed.

(** With a chunk size of zero or less the index never reaches the length
    of a list that is not empty: the call does not return. *)
Lemma batches_not_positive fuel tokens forceUpdate concurrency summary :
  concurrency <= 0 -> tokens <> [] ->
  forall i schedule s,
    i <= 0 ->
    (batches_int fuel tokens forceUpdate concurrency i schedule s).1
    <> Completed summary.
Proof.
  intros Hc Hne. induction fuel as [|fuel IH]; intros i schedule s Hi; simpl;
    [done|].
  assert (0 < Z.of_nat (length tokens)) by (destruct tokens; simpl; [done|lia]).
  destruct (i <? _) eqn:E; [|apply Z.ltb_ge in E; lia].
  destruct (start_batch _ _ s) as [pool s1].
  destruct (await_all _ _ _ _) as [[schedule' pool'] s2].
  destruct (Promise_all pool'); try done.
  apply IH. lia.
Qed.

(** *** Integer chunk sizes *)

Lemma truncate_integer q z : (q == inject_Z z)%Q -> truncate q = z.
Proof.
  intros Hq. unfold truncate.
  rewrite (Qleb_comp _ _ (Qeq_refl 0%Q) _ _ Hq).
  rewrite (Qfloor_comp _ _ Hq), (Qceiling_comp _ _ Hq).
  rewrite Qfloor_Z, Qceiling_Z. now destruct (Qle_bool 0 (inject_Z z)).
Qed.

Lemma lt_integer q a b :
  (q == inject_Z a)%Q -> lt (Fin q) (int b) = (a <? b).
Proof.
  intros Hq. unfold lt, int, Z.ltb.
  rewrite (Qcompare_comp _ _ Hq _ _ (Qeq_refl (inject_Z b))).
  unfold Qcompare. simpl. now rewrite !Z.mul_1_r.
Qed.

(** With an integer chunk size and an integer index, the loop is the
    integer loop. *)
Lemma batches_integer fuel tokens forceUpdate c :
  forall i iz schedule s,
    JS.same i (int iz) ->
    batches fuel tokens forceUpdate (int c) i schedule s
    = batches_int fuel tokens forceUpdate c iz schedule s.
Proof.
  induction fuel as [|fuel IH]; intros i iz schedule s Hi; [done|].
  destruct i as [q| | |]; try done. simpl in Hi.
  assert (Hnext : (q + inject_Z c == inject_Z (iz + c))%Q)
    by (rewrite Hi, inject_Z_plus; reflexivity).
  cbn [batches batches_int].
  rewrite (lt_integer q iz _ Hi).
  unfold int. cbn [add ToIntegerOrInfinity].
  rewrite (truncate_integer q iz Hi), (truncate_integer _ _ Hnext).
  destruct (iz <? _); [|done].
  destruct (start_batch _ _ s) as [pool s1].
  destruct (await_all _ _ _ _) as [[schedule' pool'] s2].
  destruct (Promise_all pool'); try done.
  now apply IH.
Qed.

Lemma run_integer fuel schedule db tokens forceUpdate c :
  analyzeAndStoreTokens fuel schedule db tokens forceUpdate (int c)
  = batches_int fuel tokens forceUpdate c 0 schedule
      (initial db tokens forceUpdate (int c)).
Proof. apply batches_integer. reflexivity. Qed.

Lemma run_processed fuel schedule db tokens forceUpdate c summary s :
  analyzeAndStoreTokens fuel schedule db tokens forceUpdate (int c)
  = (Completed summary, s) ->
  processed (counters s) = Z.of_nat (length tokens).
Proof.
  rewrite run_integer. intros Hrun.
  destruct (decide (1 <= c)) as [Hc|Hc].
  - eapply batches_processed; [exact Hc| | |exact Hrun]; simpl; lia.
  - destruct tokens as [|token tokens].
    + destruct fuel; simpl in Hrun; [done|]. now simplify_eq.
    + exfalso.
      eapply (batches_not_positive fuel (token :: tokens) forceUpdate
                c summary); [lia|done| |].
      2: { rewrite Hrun. reflexivity. }
      lia.
Qed.

Lemma run_summary fuel tokens forceUpdate concurrency :
  forall i schedule s summary s',
    batches fuel tokens forceUpdate concurrency i schedule s
    = (Completed summary, s') ->
    summary = {| r_updated := updated (counters s');
                 r_skipped := skipped (counters s');
                 r_noData := noData (counters s');
                 r_failed := failed (counters s') |}.
Proof.
  induction fuel as [|fuel IH]; intros i schedule s summary s'; simpl; [done|].
  destruct (lt i _).
  - destruct (start_batch _ _ s) as [pool s1].
    destruct (await_all _ _ _ _) as [[schedule' pool'] s2].
    destruct (Promise_all pool'); try done. apply IH.
  - now intros [= <- <-].
Qed.

(** *** Chunk sizes of any kind *)

Lemma truncate_floor q : (0 <= q)%Q -> truncate q = Qfloor q /\ 0 <= Qfloor q.
Proof.
  intros Hq. unfold truncate.
  rewrite (proj2 (Qle_bool_iff 0 q) Hq). split; [done|].
  apply (Qfloor_resp_le 0 q Hq).
Qed.

Lemma lt_Fin q n : lt (Fin q) (int n) = true <-> (q < inject_Z n)%Q.
Proof.
  unfold lt, int. rewrite Qlt_alt. now destruct (q ?= inject_Z n)%Q.
Qed.

Lemma floor_below q n : (q < inject_Z n)%Q -> Qfloor q < n.
Proof.
  intros Hq. rewrite Zlt_Qlt.
  eapply Qle_lt_trans; [apply Qfloor_le|exact Hq].
Qed.

Lemma floor_above q n : ~ (q < inject_Z n)%Q -> n <= Qfloor q.
Proof.
  intros Hq. apply Qnot_lt_le in Hq.
  rewrite <- (Qfloor_Z n). now apply Qfloor_resp_le.
Qed.

(** The batch taken from the index [a] up to [final]. *)
Lemma slice_length_upto {A} (l : list A) a final :
  0 <= a < Z.of_nat (length l) ->
  a <= relative_index (Z.of_nat (length l)) final ->
  Z.of_nat (length (Array_slice l (Int a) final))
  = relative_index (Z.of_nat (length l)) final - a.
Proof.
  intros Ha Hfinal. unfold Array_slice.
  assert (Hle : relative_index (Z.of_nat (length l)) final
                <= Z.of_nat (length l)).
  { unfold relative_index. destruct final as [z| |]; [|lia|lia].
    destruct (z <? 0) eqn:E; [apply Z.ltb_lt in E|]; lia. }
  assert (Hk : relative_index (Z.of_nat (length l)) (Int a) = a).
  { unfold relative_index.
    destruct (a <? 0) eqn:E; [apply Z.ltb_lt in E|]; lia. }
  rewrite Hk, length_take, length_drop. lia.
Qed.

(** With a positive chunk size, a fraction or [Infinity] included, a call
    that completes has counted every token: the batches are the slices
    between the integer parts of consecutive values of the index, and the
    argument uses of the index only that it starts at 0 and never
    decreases, which is as true of its rounded sums. *)
Lemma batches_counts_all fuel tokens forceUpdate concurrency :
  match concurrency with
  | Fin qc => (0 < qc)%Q
  | PInf => True
  | _ => False
  end ->
  forall i schedule s summary s',
    match i with
    | Fin q =>
        (0 <= q)%Q
        /\ processed (counters s)
           = Z.min (truncate q) (Z.of_nat (length tokens))
    | PInf => processed (counters s) = Z.of_nat (length tokens)
    | _ => False
    end ->
    batches fuel tokens forceUpdate concurrency i schedule s
    = (Completed summary, s') ->
    processed (counters s') = Z.of_nat (length tokens).
Proof.
  intros Hc. induction fuel as [|fuel IH];
    intros i schedule s summary s' Hi; [done|].
  cbn [batches].
  destruct (lt i (int (Z.of_nat (length tokens)))) eqn:E.
  - destruct i as [q| | |]; try done.
    apply lt_Fin in E. destruct Hi as [Hq Hp].
    destruct (truncate_floor q Hq) as [Ht H0].
    pose proof (floor_below q _ E) as Hlt.
    cbn [ToIntegerOrInfinity]. rewrite Ht in *.
    set (next := (Fin q + concurrency)%js).
    assert (Hnext :
      Qfloor q <= relative_index (Z.of_nat (length tokens))
                    (ToIntegerOrInfinity next)
      /\ match next with
         | Fin q' =>
             (0 <= q')%Q
             /\ relative_index (Z.of_nat (length tokens))
                  (ToIntegerOrInfinity next)
                = Z.min (truncate q') (Z.of_nat (length tokens))
         | PInf =>
             relative_index (Z.of_nat (length tokens))
               (ToIntegerOrInfinity next)
             = Z.of_nat (length tokens)
         | _ => False
         end).
    { unfold next. destruct concurrency as [qc| | |]; try done;
        cbn [add ToIntegerOrInfinity relative_index]; [|lia].
      assert (Hq' : (0 <= q + qc)%Q) by lra.
      destruct (truncate_floor (q + qc) Hq') as [Ht' H0'].
      assert (Hmono : Qfloor q <= Qfloor (q + qc))
        by (apply Qfloor_resp_le; lra).
      rewrite Ht'.
      destruct (Qfloor (q + qc) <? 0) eqn:En; [apply Z.ltb_lt in En; lia|].
      split; [lia|]. split; [done|reflexivity]. }
    destruct Hnext as [Hfinal Hinv].
    pose proof (slice_length_upto tokens (Qfloor q)
                  (ToIntegerOrInfinity next) (conj H0 Hlt) Hfinal) as Hlen.
    set (batch := Array_slice tokens (Int (Qfloor q))
                    (ToIntegerOrInfinity next)) in *.
    set (first := Z.to_nat _).
    pose proof (start_batch_unsettled batch first s) as Hu.
    destruct (start_batch_spec batch first s) as (_ & _ & Hcs & _).
    destruct (start_batch first batch s) as [pool s1]. simpl in Hu, Hcs.
    pose proof (await_all_processed forceUpdate schedule pool s1) as Ha.
    destruct (await_all _ _ _ _) as [[schedule' pool'] s2]. simpl in Ha.
    destruct (Promise_all pool') eqn:EP; try done.
    apply all_fulfilled_unsettled in EP.
    rewrite Hcs in Ha.
    intros Hb. eapply IH; [|exact Hb].
    fold next. destruct next as [q'| | |]; try done; simpl.
    + destruct Hinv as [Hq' Hrel]. split; [done|]. lia.
    + lia.
  - intros [= <- <-].
    destruct i as [q| | |]; try done.
    destruct Hi as [Hq Hp].
    destruct (truncate_floor q Hq) as [Ht H0]. rewrite Ht in Hp.
    assert (Hge : Z.of_nat (length tokens) <= Qfloor q).
    { apply floor_above. intros Hlt. apply lt_Fin in Hlt. congruence. }
    simpl. lia.
Qed.

(** With a chunk size of zero or less, [-Infinity] included, the index
    never reaches the length of a list that is not empty. *)
Lemma batches_never_reach fuel tokens forceUpdate concurrency summary :
  match concurrency with
  | Fin qc => (qc <= 0)%Q
  | NInf => True
  | _ => False
  end ->
  tokens <> [] ->
  forall i schedule s,
    match i with
    | Fin q => (q <= 0)%Q
    | NInf => True
    | _ => False
    end ->
    (batches fuel tokens forceUpdate concurrency i schedule s).1
    <> Completed summary.
Proof.
  intros Hc Hne. induction fuel as [|fuel IH]; intros i schedule s Hi;
    [done|].
  cbn [batches].
  assert (Hn : (0 < inject_Z (Z.of_nat (length tokens)))%Q).
  { change 0%Q with (inject_Z 0). rewrite <- Zlt_Qlt.
    destruct tokens; simpl; [done|lia]. }
  assert (E : lt i (int (Z.of_nat (length tokens))) = true).
  { destruct i as [q| | |]; try done. apply lt_Fin. lra. }
  rewrite E.
  destruct (start_batch _ _ s) as [pool s1].
  destruct (await_all _ _ _ _) as [[schedule' pool'] s2].
  destruct (Promise_all pool'); try done.
  apply IH.
  destruct i as [q| | |], concurrency as [qc| | |]; try done; simpl. lra.
Qed.

(** Whatever the chunk size, NaN apart, a call that completes has counted
    every token. *)
Lemma run_counts_all fuel schedule db tokens forceUpdate concurrency
    summary s :
  concurrency <> NaN ->
  analyzeAndStoreTokens fuel schedule db tokens forceUpdate concurrency
  = (Completed summary, s) ->
  processed (counters s) = Z.of_nat (length tokens).
Proof.
  intros Hnan Hrun. unfold analyzeAndStoreTokens in Hrun.
  assert (Hstart :
    (0 <= 0)%Q
    /\ processed (counters (initial db tokens forceUpdate concurrency))
       = Z.min (truncate 0) (Z.of_nat (length tokens))).
  { split; [lra|]. change (truncate 0) with 0. simpl. lia. }
  assert (Hstuck :
    match concurrency with
    | Fin qc => (qc <= 0)%Q
    | NInf => True
    | _ => False
    end -> processed (counters s) = Z.of_nat (length tokens)).
  { intros Hc. destruct tokens as [|token tokens].
    - destruct fuel as [|fuel]; [done|]. cbn [batches] in Hrun.
      change (lt (int 0) (int (Z.of_nat (length (@nil TokenAddress)))))
        with false in Hrun.
      injection Hrun as _ <-. reflexivity.
    - exfalso.
      eapply (batches_never_reach fuel (token :: tokens) forceUpdate
                concurrency summary Hc ltac:(done) (int 0)).
      2: { rewrite Hrun. reflexivity. }
      apply Qle_refl. }
  destruct concurrency as [qc| | |]; try done.
  - destruct (Qlt_le_dec 0 qc) as [Hpos|Hle]; [|now apply Hstuck].
    eapply (batches_counts_all _ _ _ (Fin qc) Hpos (int 0)); [|exact Hrun].
    exact Hstart.
  - eapply (batches_counts_all _ _ _ PInf I (int 0)); [|exact Hrun].
    exact Hstart.
  - now apply Hstuck.
Qed.

(** With a chunk size that is not a number the loop is left after one
    empty batch: the call completes and has processed no token. *)
Lemma run_with_NaN fuel schedule db tokens forceUpdate :
  (analyzeAndStoreTokens (S (S fuel)) schedule db tokens forceUpdate NaN).1
  = Completed {| r_updated := 0; r_skipped := 0; r_noData := 0;
                 r_failed := 0 |}.
Proof.
  unfold analyzeAndStoreTokens. cbn [batches].
  destruct (lt (int 0) _) eqn:E; [|done].
  cbn [add int ToIntegerOrInfinity].
  change (truncate (inject_Z 0)) with 0.
  assert (Hb : forall l : list TokenAddress, Array_slice l (Int 0) (Int 0) = [])
    by (intros l; unfold Array_slice; simpl; now rewrite Z.sub_diag).
  rewrite Hb. cbn [start_batch].
  assert (Ha : forall s, await_all forceUpdate schedule [] s = (schedule, [], s))
    by (now destruct schedule).
  rewrite Ha. reflexivity.
Qed.

Lemma run_with_NaN_idle fuel schedule db tokens forceUpdate :
  let s :=
    (analyzeAndStoreTokens (S (S fuel)) schedule db tokens forceUpdate NaN).2 in
  processed (counters s) = 0 /\ store s = db /\ trace s = [].
Proof.
  unfold analyzeAndStoreTokens. cbn [batches].
  destruct (lt (int 0) _) eqn:E; [|done].
  cbn [add int ToIntegerOrInfinity].
  change (truncate (inject_Z 0)) with 0.
  assert (Hb : forall l : list TokenAddress, Array_slice l (Int 0) (Int 0) = [])
    by (intros l; unfold Array_slice; simpl; now rewrite Z.sub_diag).
  rewrite Hb. cbn [start_batch].
  assert (Ha : forall s, await_all forceUpdate schedule [] s = (schedule, [], s))
    by (now destruct schedule).
  rewrite Ha. done.
Qed.

Lemma Resumed_counters t s t' s' :
  Resumed t s t' s' ->
  (pending (point t') /\ counters s' = counters s)
  \/ (point t' = Fulfilled /\ counted_once (counters s) (counters s')).
Proof.
  unfold counted_once.
  destruct 1 as [next c s1 Hn Hc _ _ _| | |key value _|err]; simpl;
    [now left|right; (split; [done|])..].
  - right. now left.
  - do 2 right. now left.
  - now left.
  - do 3 right. unfold catch_block. simpl.
    now destruct (failed (counters s) + 1 <=? 5).
Qed.

(** C3, as the code has it.  A resumption of the task of a token either
    leaves the five counters as they are, the task going on to its next
    [await], or settles the task and increments [processed] and exactly one
    of [updated], [skipped], [noData] and [failed]; a settled task is not
    resumed again.  So when a call of [analyzeAndStoreTokens] completes, for
    every token list, [forceUpdate] flag, chunk size (any number) and
    schedule, the counters satisfy
    [processed = updated + skipped + noData + failed] and the summary
    returned holds the four counters.  When the chunk size is any number
    but NaN (an integer, a fraction, an infinity),
    every token has been counted: [processed] is the number of tokens of the
    list.  When the chunk size is NaN, no token is: the call completes with
    every counter 0, the store as it was and no token started. *)
Theorem counters_add_up (forceUpdate : bool) :
  (forall t reply now s t' s',
     resume forceUpdate t reply now s = Some (t', s') ->
     pending (point t)
     /\ ((pending (point t') /\ counters s' = counters s)
         \/ (point t' = Fulfilled /\ counted_once (counters s) (counters s'))))
  /\ (forall fuel schedule db tokens (concurrency : number) summary s,
        analyzeAndStoreTokens fuel schedule db tokens forceUpdate concurrency
        = (Completed summary, s) ->
        processed (counters s)
        = updated (counters s) + skipped (counters s) + noData (counters s)
          + failed (counters s)
        /\ processed (counters s)
           = r_updated summary + r_skipped summary + r_noData summary
             + r_failed summary)
  /\ (forall fuel schedule db tokens (concurrency : number) summary s,
        concurrency <> NaN ->
        analyzeAndStoreTokens fuel schedule db tokens forceUpdate concurrency
        = (Completed summary, s) ->
        processed (counters s) = Z.of_nat (length tokens))
  /\ (forall fuel schedule db tokens,
        let run :=
          analyzeAndStoreTokens (S (S fuel)) schedule db tokens forceUpdate
            NaN in
        run.1 = Completed {| r_updated := 0; r_skipped := 0; r_noData := 0;
                             r_failed := 0 |}
        /\ processed (counters run.2) = 0
        /\ store run.2 = db /\ trace run.2 = []).
Proof.
  split; [|split; [|split]]; [| | |intros fuel schedule db tokens run;
    split; [apply run_with_NaN|apply run_with_NaN_idle]].
  - intros t reply now s t' s' Hr.
    apply resume_Resumed in Hr as [Hp Hr]. split; [done|].
    now apply Resumed_counters in Hr.
  - intros fuel schedule db tokens concurrency summary s Hrun.
    pose proof (run_balanced fuel schedule db tokens forceUpdate concurrency)
      as Hb.
    rewrite Hrun in Hb. unfold balanced in Hb. simpl in Hb.
    apply run_summary in Hrun. subst summary. simpl. lia.
  - intros fuel schedule db tokens concurrency summary s Hnan Hrun.
    exact (run_counts_all _ _ _ _ _ _ _ _ Hnan Hrun).
Qed.

(** *** Faults *)

Lemma rejection_is_caught forceUpdate t err now s :
  pending (point t) ->
  exists t' s',
    resume forceUpdate t (Rejected err) now s = Some (t', s')
    /\ caught t err s t' s'.
Proof.
  intros Hp. unfold resume, try_body.
  destruct (point t); try done; do 2 eexists; (split; [reflexivity|]);
    unfold caught, finally_block, catch_block; simpl;
    destruct (_ <=? 5); simpl; repeat split.
Qed.

Lemma aggregator_fault_is_caught forceUpdate t transactions analysis err now s :
  point t = AwaitMetadata (Some transactions) ->
  transactions <> [] ->
  analyzeOnChain transactions analysis = inl err ->
  exists t' s',
    resume forceUpdate t (GotMetadata (Some analysis)) now s = Some (t', s')
    /\ caught t err s t' s'.
Proof.
  intros Hp Hne Ha. unfold resume, try_body. rewrite Hp.
  unfold validate_and_score.
  destruct transactions as [|tx txs]; [done|]. rewrite Ha.
  do 2 eexists. split; [reflexivity|].
  unfold caught, finally_block, catch_block; simpl.
  destruct (_ <=? 5); simpl; repeat split.
Qed.

(** *** Every call can complete *)

Lemma Promise_all_fulfilled pool :
  (forall j t, pool !! j = Some t -> point t = Fulfilled) ->
  Promise_all pool = AllFulfilled.
Proof.
  induction pool as [|t rest IH]; intros Hall; simpl; [done|].
  rewrite (Hall 0%nat t eq_refl). apply IH.
  intros j u Hj. apply (Hall (S j) u Hj).
Qed.

Lemma Promise_all_pending pre t todo :
  (forall j u, pre !! j = Some u -> point u = Fulfilled) ->
  pending (point t) ->
  (forall j u, todo !! j = Some u -> pending (point u)) ->
  Promise_all (pre ++ t :: todo) = StillPending.
Proof.
  intros Hpre Ht Htodo.
  assert (Hrest : forall err, Promise_all todo <> SomeRejected err).
  { intros err. apply Promise_all_not_rejected. intros j u Hj err' Hu.
    apply Htodo in Hj. now rewrite Hu in Hj. }
  induction pre as [|u pre IH]; simpl.
  - destruct (point t); try done;
      destruct (Promise_all todo) eqn:E; try done; now destruct (Hrest err).
  - rewrite (Hpre 0%nat u eq_refl). apply IH.
    intros j v Hj. apply (Hpre (S j) v Hj).
Qed.

Lemma await_all_rejecting forceUpdate todo : forall pre s,
  (forall j u, pre !! j = Some u -> point u = Fulfilled) ->
  (forall j u, todo !! j = Some u -> pending (point u)) ->
  exists pool' s',
    Promise_all pool' = AllFulfilled
    /\ forall rest,
         await_all forceUpdate
           (rejecting_from (length pre) (length todo) ++ rest) (pre ++ todo) s
         = (rest, pool', s').
Proof.
  induction todo as [|t todo IH]; intros pre s Hpre Htodo.
  - exists pre, s. rewrite app_nil_r.
    pose proof (Promise_all_fulfilled pre Hpre) as Hall.
    split; [done|]. intros rest. simpl.
    destruct rest; simpl; now rewrite Hall.
  - pose proof (Htodo 0%nat t eq_refl) as Ht.
    assert (Htodo' : forall j u, todo !! j = Some u -> pending (point u)).
    { intros j u Hj. apply (Htodo (S j) u Hj). }
    destruct (rejection_is_caught forceUpdate t "unavailable" 0 s Ht)
      as (t' & s1 & Hr & Hf & _).
    destruct (IH (pre ++ [t']) s1) as (pool' & s' & Hall & Hrun); [|done|].
    { intros j u Hj. apply lookup_snoc_Some in Hj as [[_ Hj]|[_ <-]]; eauto. }
    exists pool', s'. split; [done|]. intros rest.
    specialize (Hrun rest).
    rewrite length_app in Hrun. simpl in Hrun.
    rewrite Nat.add_1_r, <- app_assoc in Hrun. simpl in Hrun.
    unfold rejecting_from in *. simpl.
    rewrite (Promise_all_pending pre t todo Hpre Ht Htodo').
    rewrite list_lookup_middle by done. rewrite Hr.
    rewrite insert_app_r_alt by done. rewrite Nat.sub_diag. exact Hrun.
Qed.

Lemma batches_can_complete tokens forceUpdate concurrency :
  1 <= concurrency ->
  forall fuel i s,
    0 <= i ->
    Z.of_nat (length tokens) - i <= Z.of_nat fuel * concurrency ->
    exists schedule summary,
      (batches_int (S fuel) tokens forceUpdate concurrency i schedule s).1
      = Completed summary.
Proof.
  intros Hc. induction fuel as [|fuel IH]; intros i s Hi Hfuel.
  - exists [], (mkSummary (updated (counters s)) (skipped (counters s))
                  (noData (counters s)) (failed (counters s))).
    simpl. destruct (i <? _) eqn:E; [apply Z.ltb_lt in E; lia|done].
  - cbn [batches_int].
    destruct (i <? Z.of_nat (length tokens)) eqn:E;
      [|exists []; eexists; reflexivity].
    set (batch := Array_slice _ _ _). set (first := Z.to_nat _).
    destruct (start_batch_spec batch first s) as (_ & Hsp & _).
    destruct (start_batch first batch s) as [pool s1]. simpl in Hsp.
    destruct (await_all_rejecting forceUpdate pool [] s1)
      as (pool' & s' & Hall & Hrun).
    { intros j u Hj. now rewrite lookup_nil in Hj. }
    { intros j u Hj. apply Hsp in Hj as [_ ->]. exact I. }
    simpl in Hrun.
    destruct (IH (i + concurrency)
                (log (LogProgress (processed (counters s'))
                        (Z.of_nat (length tokens)) (updated (counters s'))
                        (skipped (counters s')) (noData (counters s'))
                        (failed (counters s'))) s'))
      as (schedule & summary & Hdone); [lia|lia|].
    exists (rejecting_from 0 (length pool) ++ schedule), summary.
    rewrite Hrun, Hall. exact Hdone.
Qed.

(** Whatever the tokens, the store and the flag, a call with a positive
    integer chunk size completes under some schedule. *)
Lemma some_schedule_completes db tokens forceUpdate c :
  1 <= c ->
  exists fuel schedule summary,
    (analyzeAndStoreTokens fuel schedule db tokens forceUpdate (int c)).1
    = Completed summary.
Proof.
  intros Hc.
  destruct (batches_can_complete tokens forceUpdate c Hc (length tokens) 0
              (initial db tokens forceUpdate (int c)))
    as (schedule & summary & Hdone); [lia|nia|].
  exists (S (length tokens)), schedule, summary.
  now rewrite run_integer.
Qed.

(** C7. A fault in the pipeline of one token, the rejection of any of the
    four awaited calls or a throw of the aggregator, is caught in the task
    of that token: the task is fulfilled, [failed] grows by exactly 1, and
    the fault is logged if it is one of the first five.  In every run the
    call is never rejected and the console holds as many failure lines as
    there were failures, up to five; with an integer chunk size a call that
    completes has processed every token of the list. *)
Theorem faults_are_isolated (forceUpdate : bool) :
  (forall t err now s,
     pending (point t) ->
     exists t' s',
       resume forceUpdate t (Rejected err) now s = Some (t', s')
       /\ caught t err s t' s')
  /\ (forall t transactions analysis err now s,
        point t = AwaitMetadata (Some transactions) ->
        transactions <> [] ->
        analyzeOnChain transactions analysis = inl err ->
        exists t' s',
          resume forceUpdate t (GotMetadata (Some analysis)) now s
          = Some (t', s')
          /\ caught t err s t' s')
  /\ (forall fuel schedule db tokens (concurrency : number),
        let run :=
          analyzeAndStoreTokens fuel schedule db tokens forceUpdate
            concurrency in
        (forall err, run.1 <> Aborted err)
        /\ failure_lines (console run.2) = Z.min (failed (counters run.2)) 5)
  /\ (forall fuel schedule db tokens (c : Z) summary,
        let run :=
          analyzeAndStoreTokens fuel schedule db tokens forceUpdate (int c) in
        run.1 = Completed summary ->
        processed (counters run.2) = Z.of_nat (length tokens)).
Proof.
  split; [|split; [|split]].
  - intros. now apply rejection_is_caught.
  - intros t transactions analysis err now s Hp Hne Ha.
    exact (aggregator_fault_is_caught forceUpdate t transactions analysis
             err now s Hp Hne Ha).
  - intros fuel schedule db tokens concurrency run. split.
    + intros err. apply batches_never_aborted.
    + apply run_failures_logged.
  - intros fuel schedule db tokens c summary run Hrun.
    apply (run_processed fuel schedule db tokens forceUpdate c summary).
    fold run. rewrite <- Hrun. now destruct run.
Qed.

End Runs.

End BatchProofs.

(** ** The chunk barrier *)

Module BarrierProofs.
Import JS Scoring Scheduler PipelineProofs BatchProofs.

Lemma precedes_snoc (tr : list Event) a b e :
  precedes tr a b -> (e = b -> a ∈ tr) -> precedes (tr ++ [e]) a b.
Proof.
  intros Hpre He j Hj.
  apply lookup_snoc_Some in Hj as [[Hlt Hj]|[-> ->]].
  - destruct (Hpre j Hj) as (i & Hi & Ha).
    exists i. split; [done|]. apply lookup_app_l_Some, Ha.
  - destruct (proj1 (list_elem_of_lookup _ _) (He eq_refl)) as (i & Ha).
    exists i. split; [eapply lookup_lt_Some, Ha|].
    apply lookup_app_l_Some, Ha.
Qed.

(** Chunks of positive size. *)
Lemma chunk_of_inside c k q :
  1 <= c -> k * c <= Z.of_nat q < k * c + c -> chunk_of c q = k.
Proof.
  intros Hc Hq. unfold chunk_of. symmetry.
  apply (Z.div_unique _ _ k (Z.of_nat q - k * c)); lia.
Qed.

Lemma chunk_of_bounds c q :
  1 <= c ->
  chunk_of c q * c <= Z.of_nat q < chunk_of c q * c + c.
Proof.
  intros Hc. unfold chunk_of.
  pose proof (Z.div_mod (Z.of_nat q) c ltac:(lia)).
  pose proof (Z.mod_pos_bound (Z.of_nat q) c ltac:(lia)). lia.
Qed.

Lemma chunk_of_before c k p :
  1 <= c -> chunk_of c p < k -> Z.of_nat p < k * c.
Proof.
  intros Hc Hp. pose proof (chunk_of_bounds c p Hc). nia.
Qed.

Section Trace.
Variables (c : Z) (n : nat).

Lemma in_chunk_called lo hi tr pos call :
  in_chunk c n lo hi tr -> in_chunk c n lo hi (tr ++ [Called pos call]).
Proof.
  intros (Hb & Hd & Hlo & Hhi). repeat split.
  - intros p q Hpq. apply precedes_snoc; [now apply Hb|done].
  - intros p q Hq Hpq. apply precedes_snoc; [now apply Hd|done].
  - intros p Hp. apply elem_of_app. left. now apply Hlo.
  - intros q Hq. apply elem_of_app. left. now apply Hhi.
Qed.

Lemma in_chunk_started lo hi tr :
  (forall p, chunk_of c p < chunk_of c hi -> (p < lo)%nat) ->
  in_chunk c n lo hi tr -> in_chunk c n lo (S hi) (tr ++ [Started hi]).
Proof.
  intros Hchunk (Hb & Hd & Hlo & Hhi). repeat split.
  - intros p q Hpq. apply precedes_snoc; [now apply Hb|].
    intros [= <-]. apply Hlo, Hchunk, Hpq.
  - intros p q Hq Hpq. apply precedes_snoc; [now apply Hd|done].
  - intros p Hp. apply elem_of_app. left. now apply Hlo.
  - intros q Hq. apply elem_of_app.
    destruct (decide (q = hi)) as [->|Hne].
    + right. apply list_elem_of_singleton. reflexivity.
    + left. apply Hhi. lia.
Qed.

Lemma in_chunk_settled lo hi tr p :
  (forall q, (q < n)%nat -> chunk_of c q = chunk_of c p -> (q < hi)%nat) ->
  in_chunk c n lo hi tr -> in_chunk c n lo hi (tr ++ [Settled p]).
Proof.
  intros Hchunk (Hb & Hd & Hlo & Hhi). repeat split.
  - intros p' q Hpq. apply precedes_snoc; [now apply Hb|done].
  - intros p' q Hq Hpq. apply precedes_snoc; [now apply Hd|].
    intros [= <-]. apply Hhi, Hchunk; done.
  - intros p' Hp. apply elem_of_app. left. now apply Hlo.
  - intros q Hq. apply elem_of_app. left. now apply Hhi.
Qed.

End Trace.

Section Runs.
Context `{Collaborators}.
Variables (c : Z) (n : nat).

Lemma Resumed_trace t s t' s' :
  Resumed t s t' s' ->
  pos t' = pos t
  /\ ((exists call, trace s' = trace s ++ [Called (pos t) call]
                    /\ pending (point t'))
      \/ (trace s' = trace s ++ [Settled (pos t)] /\ point t' = Fulfilled)).
Proof.
  destruct 1 as [next call s1 Hn _ _ Ht _| | |key value _|err]; simpl;
    (split; [done|]); try (right; split; [|done]).
  - left. exists call. now rewrite Ht.
  - done.
  - done.
  - done.
  - unfold catch_block. now destruct (_ <=? 5).
Qed.

Lemma start_batch_in_chunk lo batch : forall first s,
  in_chunk c n lo first (trace s) ->
  (forall j p, (j < length batch)%nat ->
     chunk_of c p < chunk_of c (first + j) -> (p < lo)%nat) ->
  in_chunk c n lo (first + length batch) (trace (start_batch first batch s).2).
Proof.
  induction batch as [|token rest IH]; intros first s Hin Hchunk; simpl.
  - now rewrite Nat.add_0_r.
  - specialize (IH (S first)
      (emit (Called first (CallGet (address token))) (emit (Started first) s))).
    destruct (start_batch _ rest _) as [pool s']. simpl in *.
    replace (first + S (length rest))%nat with (S first + length rest)%nat
      by lia.
    apply IH.
    + apply in_chunk_called, in_chunk_started; [|done].
      intros p Hp. apply (Hchunk 0%nat); [lia|]. now rewrite Nat.add_0_r.
    + intros j p Hj Hp. apply (Hchunk (S j)); [lia|].
      now replace (first + S j)%nat with (S first + j)%nat by lia.
Qed.

Lemma await_all_in_chunk forceUpdate lo hi schedule pool s :
  (forall j q, (j < length pool)%nat -> (q < n)%nat ->
     chunk_of c q = chunk_of c (lo + j) -> (q < hi)%nat) ->
  awaiting c n lo hi pool s ->
  let r := await_all forceUpdate schedule pool s in
  awaiting c n lo hi r.1.2 r.2 /\ length r.1.2 = length pool.
Proof.
  intros Hchunk Hstart.
  apply (await_all_inv forceUpdate
    (fun pool0 s0 => awaiting c n lo hi pool0 s0
                     /\ length pool0 = length pool));
    [|done].
  intros pool0 s0 j t reply now t' s' Hj Hr [[Hin Hpool] Hlen].
  apply resume_Resumed in Hr as [_ Hr].
  apply Resumed_trace in Hr as [Hpos Ht].
  destruct (Hpool j t Hj) as [Hposj _].
  assert (Hjl : (j < length pool)%nat).
  { rewrite <- Hlen. eapply lookup_lt_Some, Hj. }
  split; [|now rewrite length_insert].
  assert (Hmono : forall e, e ∈ trace s0 -> e ∈ trace s').
  { intros e He.
    destruct Ht as [(call & -> & _)|[-> _]]; apply elem_of_app; now left. }
  split.
  - destruct Ht as [(call & -> & _)|[-> _]].
    + now apply in_chunk_called.
    + apply in_chunk_settled; [|done].
      intros q Hq Hqc. apply (Hchunk j q Hjl Hq). now rewrite <- Hposj.
  - intros k u Hk.
    destruct (decide (j = k)) as [->|Hne].
    + rewrite list_lookup_insert_eq in Hk by (eapply lookup_lt_Some, Hj).
      simplify_eq. split; [congruence|].
      intros Hf. destruct Ht as [(call & _ & Hp)|[-> _]].
      * rewrite Hf in Hp. done.
      * rewrite Hpos. apply elem_of_app. right.
        apply list_elem_of_singleton. reflexivity.
    + rewrite list_lookup_insert_ne in Hk by done.
      destruct (Hpool k u Hk) as [Hpk Hfk]. split; [done|].
      intros Hf. now apply Hmono, Hfk.
Qed.

Lemma all_fulfilled_lookup pool : 
  Promise_all pool = AllFulfilled ->
  forall j t, pool !! j = Some t -> point t = Fulfilled.
Proof.
  induction pool as [|u rest IH]; simpl; intros Hall j t Hj;
    [now rewrite lookup_nil in Hj|].
  destruct (point u) eqn:Hu; try (destruct (Promise_all rest); done).
  destruct j as [|j]; simpl in Hj.
  - now simplify_eq.
  - now apply (IH Hall j).
Qed.

End Runs.

Section Loop.
Context `{Collaborators}.

Lemma batches_in_chunk (c : Z) tokens forceUpdate :
  1 <= c ->
  let n := length tokens in
  forall fuel k schedule s,
    0 <= k ->
    let at_head := Z.to_nat (Z.min (k * c) (Z.of_nat n)) in
    in_chunk c n at_head at_head (trace s) ->
    let r := batches_int fuel tokens forceUpdate c (k * c) schedule s in
    barrier_holds c (trace r.2)
    /\ dispatched_together c n (trace r.2)
    /\ (forall summary, r.1 = Completed summary ->
          forall p, (p < n)%nat -> Started p ∈ trace r.2 /\ Settled p ∈ trace r.2).
Proof.
  intros Hc n. induction fuel as [|fuel IH]; intros k schedule s Hk at_head Hin;
    simpl.
  { destruct Hin as (Hb & Hd & _). done. }
  assert (Hi : 0 <= k * c) by nia.
  destruct (k * c <? Z.of_nat (length tokens)) eqn:E.
  - apply Z.ltb_lt in E.
    pose proof (slice_length tokens (k * c) c (conj Hi E) Hc) as Hlen.
    replace (k * c + c) with ((k + 1) * c) in * by lia.
    set (batch := Array_slice tokens (Int (k * c)) (Int ((k + 1) * c))) in *.
    destruct (k * c <? 0) eqn:E0; [apply Z.ltb_lt in E0; lia|].
    change (Z.to_nat (Z.min (k * c) (Z.of_nat (length tokens)))) with at_head.
    assert (Hlo : Z.of_nat at_head = k * c) by (unfold at_head, n; lia).
    assert (Hinside : forall j, (j < length batch)%nat ->
              chunk_of c (at_head + j) = k).
    { intros j Hj. apply chunk_of_inside; [done|]. lia. }
    pose proof (start_batch_in_chunk c n at_head batch at_head s Hin) as Hs.
    destruct (start_batch_spec batch at_head s) as (Hsl & Hsp & _).
    destruct (start_batch at_head batch s) as [pool s1]. simpl in *.
    assert (Hin1 : in_chunk c n at_head (at_head + length batch) (trace s1)).
    { apply Hs. intros j p Hj Hp. rewrite (Hinside j Hj) in Hp.
      apply chunk_of_before in Hp; [lia|done]. }
    clear Hs.
    pose proof (await_all_in_chunk c n forceUpdate at_head
      (at_head + length batch) schedule pool s1) as Ha.
    destruct (await_all forceUpdate schedule pool s1)
      as [[schedule' pool'] s2]. simpl in Ha.
    destruct Ha as [[Hin2 Hpool2] Hlen2].
    { intros j q Hj Hq Hqc. rewrite Hsl in Hj. rewrite (Hinside j Hj) in Hqc.
      pose proof (chunk_of_bounds c q Hc) as Hb. rewrite Hqc in Hb.
      unfold n in Hq. lia. }
    { split; [done|]. intros j t Hj. apply Hsp in Hj as [-> ->]. done. }
    destruct (Promise_all pool') eqn:EP.
    + destruct Hin2 as (Hb & Hd & _). done.
    + apply (IH (k + 1)); [lia|]. simpl.
      assert (Hhi : Z.to_nat (Z.min ((k + 1) * c) (Z.of_nat n))
                    = (at_head + length batch)%nat) by (unfold n; lia).
      rewrite Hhi.
      destruct Hin2 as (Hb & Hd & Hset & Hsta).
      repeat split; try done.
      intros p Hp.
      destruct (decide (p < at_head)%nat) as [Hlt|Hge]; [now apply Hset|].
      assert (Hj : (p - at_head < length pool')%nat) by lia.
      apply lookup_lt_is_Some_2 in Hj as [t Ht].
      destruct (Hpool2 _ _ Ht) as [Hpos Hf].
      replace p with (pos t) by lia.
      apply Hf. eapply all_fulfilled_lookup; done.
    + destruct Hin2 as (Hb & Hd & _). done.
  - apply Z.ltb_ge in E. simpl.
    destruct Hin as (Hb & Hd & Hset & Hsta).
    repeat split; try done.
    + apply Hsta. unfold at_head, n in *. lia.
    + apply Hset. unfold at_head, n in *. lia.
Qed.

Lemma start_batch_trace batch : forall first s,
  trace (start_batch first batch s).2 = trace s ++ dispatch first batch.
Proof.
  induction batch as [|token rest IH]; intros first s; simpl.
  - now rewrite app_nil_r.
  - specialize (IH (S first)
      (emit (Called first (CallGet (address token))) (emit (Started first) s))).
    destruct (start_batch _ rest _) as [pool s']. simpl in *.
    rewrite IH. now rewrite <- !app_assoc.
Qed.

Lemma started_dispatch batch : forall first,
  started_positions (dispatch first batch) = seq first (length batch).
Proof.
  induction batch as [|token rest IH]; intros first; simpl; [done|].
  f_equal. apply IH.
Qed.

Lemma await_all_started forceUpdate schedule pool s :
  started_positions (trace (await_all forceUpdate schedule pool s).2)
  = started_positions (trace s).
Proof.
  apply (await_all_inv forceUpdate
    (fun _ s0 => started_positions (trace s0) = started_positions (trace s)));
    [|done].
  intros pool0 s0 j t reply now t' s' _ Hr HQ.
  apply resume_Resumed in Hr as [_ Hr].
  apply Resumed_trace in Hr as [_ [(call & -> & _)|[-> _]]];
    unfold started_positions; rewrite omap_app; simpl; rewrite app_nil_r;
    exact HQ.
Qed.

Lemma slice_chunk_at tokens i c :
  0 <= i < Z.of_nat (length tokens) -> 1 <= c ->
  Array_slice tokens (Int i) (Int (i + c)) = chunk_at c i tokens.
Proof.
  intros Hi Hc. unfold Array_slice, chunk_at, relative_index.
  destruct (i <? 0) eqn:E1; [apply Z.ltb_lt in E1; lia|].
  destruct (i + c <? 0) eqn:E2; [apply Z.ltb_lt in E2; lia|].
  replace (Z.to_nat (Z.min i (Z.of_nat (length tokens)))) with (Z.to_nat i)
    by lia.
  destruct (decide (i + c <= Z.of_nat (length tokens))) as [Hle|Hgt].
  - f_equal. lia.
  - rewrite !take_ge; [done| |]; rewrite length_drop; lia.
Qed.

Lemma batches_started (c : Z) tokens forceUpdate :
  1 <= c ->
  let n := length tokens in
  forall fuel k schedule s,
    0 <= k ->
    started_positions (trace s) = seq 0 (in_chunks c n k) ->
    let r := batches_int fuel tokens forceUpdate c (k * c) schedule s in
    (exists k', 0 <= k'
       /\ started_positions (trace r.2) = seq 0 (in_chunks c n k'))
    /\ (forall summary, r.1 = Completed summary ->
          started_positions (trace r.2) = seq 0 n).
Proof.
  intros Hc n. induction fuel as [|fuel IH]; intros k schedule s Hk Hs; simpl.
  { split; [now exists k|done]. }
  assert (Hi : 0 <= k * c) by nia.
  destruct (k * c <? Z.of_nat (length tokens)) eqn:E.
  - apply Z.ltb_lt in E.
    pose proof (slice_length tokens (k * c) c (conj Hi E) Hc) as Hlen.
    replace (k * c + c) with ((k + 1) * c) in * by lia.
    set (batch := Array_slice tokens (Int (k * c)) (Int ((k + 1) * c))) in *.
    destruct (k * c <? 0) eqn:E0; [apply Z.ltb_lt in E0; lia|].
    change (Z.to_nat (Z.min (k * c) (Z.of_nat (length tokens))))
      with (in_chunks c n k).
    pose proof (start_batch_trace batch (in_chunks c n k) s) as Ht.
    destruct (start_batch (in_chunks c n k) batch s) as [pool s1].
    simpl in Ht.
    pose proof (await_all_started forceUpdate schedule pool s1) as Ha.
    destruct (await_all forceUpdate schedule pool s1)
      as [[schedule' pool'] s2]. simpl in Ha.
    assert (Hnext : started_positions (trace s2)
                    = seq 0 (in_chunks c n (k + 1))).
    { rewrite Ha, Ht. unfold started_positions. rewrite omap_app.
      fold (started_positions (trace s)).
      fold (started_positions (dispatch (in_chunks c n k) batch)).
      rewrite Hs, started_dispatch.
      replace (in_chunks c n (k + 1))
        with (in_chunks c n k + length batch)%nat
        by (unfold in_chunks, n in *; lia).
      now rewrite seq_app. }
    destruct (Promise_all pool') eqn:EP; simpl.
    + split; [|done]. exists (k + 1). split; [lia|done].
    + apply (IH (k + 1)); [lia|]. exact Hnext.
    + split; [|done]. exists (k + 1). split; [lia|done].
  - apply Z.ltb_ge in E. simpl.
    split; [now exists k|]. intros _ _. rewrite Hs. f_equal.
    unfold in_chunks, n. lia.
Qed.

(** The trace only grows. *)
Lemma trace_extends (pre : list Event) :
  (forall e s, (exists later, trace s = pre ++ later) ->
     exists later, trace (emit e s) = pre ++ later)
  /\ (forall l s, (exists later, trace s = pre ++ later) ->
        exists later, trace (log l s) = pre ++ later)
  /\ (forall t s t' s', Resumed t s t' s' ->
        (exists later, trace s = pre ++ later) ->
        exists later, trace s' = pre ++ later).
Proof.
  split; [|split].
  - intros e s [later Hs]. exists (later ++ [e]). simpl.
    now rewrite Hs, app_assoc.
  - intros l s [later Hs]. now exists later.
  - intros t s t' s' Hr [later Hs].
    apply Resumed_trace in Hr as [_ [(call & -> & _)|[-> _]]];
      eexists; rewrite Hs, <- app_assoc; reflexivity.
Qed.

Lemma await_all_extends forceUpdate schedule pool s :
  exists later,
    trace (await_all forceUpdate schedule pool s).2 = trace s ++ later.
Proof.
  destruct (trace_extends (trace s)) as (He & Hl & Hr).
  apply (await_all_keeps (fun s' => exists later, trace s' = trace s ++ later));
    try done.
  exists []. now rewrite app_nil_r.
Qed.

Lemma batches_extends fuel tokens forceUpdate concurrency i schedule s :
  exists later,
    trace (batches fuel tokens forceUpdate concurrency i schedule s).2
    = trace s ++ later.
Proof.
  destruct (trace_extends (trace s)) as (He & Hl & Hr).
  apply (batches_keeps (fun s' => exists later, trace s' = trace s ++ later));
    try done; try (intros l s' _; apply Hl).
  exists []. now rewrite app_nil_r.
Qed.

(** A chunk is handed out whole before any reply is looked at: whatever
    the schedule, the iteration that begins at the index [k * c] first
    starts every token of the chunk and sends its [client.get], in the order
    of the list; with nothing delivered it then stays suspended on its
    [Promise.all]. *)
Lemma chunk_is_dispatched (c : Z) tokens forceUpdate fuel k schedule s :
  1 <= c -> 0 <= k -> k * c < Z.of_nat (length tokens) ->
  let r :=
    batches (S fuel) tokens forceUpdate (int c) (int (k * c)) schedule s in
  (exists later,
     trace r.2
     = trace s ++ dispatch (Z.to_nat (k * c)) (chunk_at c (k * c) tokens)
       ++ later)
  /\ (schedule = [] ->
      r.1 = Running
      /\ trace r.2
         = trace s ++ dispatch (Z.to_nat (k * c)) (chunk_at c (k * c) tokens))
  /\ chunk_at c (k * c) tokens <> [].
Proof.
  intros Hc Hk E.
  assert (Hi : 0 <= k * c) by nia.
  pose proof (slice_length tokens (k * c) c (conj Hi E) Hc) as Hlen.
  rewrite (batches_integer _ _ _ _ _ (k * c)) by reflexivity.
  cbn [batches_int].
  rewrite (proj2 (Z.ltb_lt _ _) E).
  rewrite slice_chunk_at in * by lia.
  cbn [relative_index].
  destruct (k * c <? 0) eqn:E0; [apply Z.ltb_lt in E0; lia|].
  replace (Z.to_nat (Z.min (k * c) (Z.of_nat (length tokens))))
    with (Z.to_nat (k * c)) by lia.
  pose proof (start_batch_trace (chunk_at c (k * c) tokens)
                (Z.to_nat (k * c)) s) as Ht.
  destruct (start_batch_spec (chunk_at c (k * c) tokens)
              (Z.to_nat (k * c)) s) as (Hsl & Hsp & _).
  destruct (start_batch _ _ s) as [pool s1]. simpl in Ht, Hsl, Hsp.
  assert (Hne : chunk_at c (k * c) tokens <> []).
  { intros Hnil. rewrite Hnil in Hlen. simpl in Hlen. lia. }
  assert (Hpending : Promise_all pool = StillPending).
  { destruct pool as [|t rest].
    - destruct (chunk_at c (k * c) tokens); [done|simpl in Hsl; lia].
    - apply (Promise_all_pending [] t rest).
      + intros j u Hj. now rewrite lookup_nil in Hj.
      + destruct (Hsp 0%nat t eq_refl) as [_ ->]. done.
      + intros j u Hj. destruct (Hsp (S j) u Hj) as [_ ->]. done. }
  split; [|split; [|exact Hne]].
  - destruct (await_all_extends forceUpdate schedule pool s1) as [l1 H1].
    destruct (await_all forceUpdate schedule pool s1)
      as [[schedule' pool'] s2]. simpl in H1.
    destruct (Promise_all pool').
    + exists l1. simpl. now rewrite H1, Ht, <- app_assoc.
    + rewrite <- (batches_integer fuel tokens forceUpdate c
                    (int (k * c + c)) (k * c + c)) by reflexivity.
      match goal with
      | |- context [batches ?f ?t ?u ?cc ?i ?sch ?st] =>
          destruct (batches_extends f t u cc i sch st) as [l2 H2]
      end.
      exists (l1 ++ l2). rewrite H2. simpl.
      now rewrite H1, Ht, <- !app_assoc.
    + exists l1. simpl. now rewrite H1, Ht, <- app_assoc.
  - intros ->. cbn [await_all]. rewrite Hpending. rewrite Hpending. simpl.
    split; done.
Qed.

(** C4. With an integer chunk size [c] of at least 1, in every run and at
    every moment of it: the token at position [q], of chunk [q / c], starts
    only after every token of the chunks before it has settled, whatever
    the order in which the tasks of a chunk are served (a barrier); a token
    settles only after every token of its own chunk has started (the tasks
    of a chunk are in flight together); and in a run that completes every
    token has started and settled.  In particular, with a chunk size of 2,
    the tokens at positions 2 and 3 start only after those at positions 0
    and 1 have both settled.  The list is cut into consecutive chunks of [c]
    tokens, the last one shorter when the length is no multiple of [c]: the
    iteration at the index [k * c] hands out the whole chunk, every token of
    it started and its cache lookup sent, before any reply is served,
    whatever the schedule of the replies; at
    every moment the tokens that have started are those of the first [k]
    chunks, for some [k], each once and in the order of the list; in a run
    that completes they are all the tokens; and some run completes. *)
Theorem chunks_are_barriers (fuel : nat) (schedule : list Entry)
    (db : gmap string CachedTokenRecord) (tokens : list TokenAddress)
    (forceUpdate : bool) (c : Z) :
  1 <= c ->
  let run :=
    analyzeAndStoreTokens fuel schedule db tokens forceUpdate (int c) in
  barrier_holds c (trace run.2)
  /\ dispatched_together c (length tokens) (trace run.2)
  /\ (forall summary, run.1 = Completed summary ->
        forall p, (p < length tokens)%nat ->
          Started p ∈ trace run.2 /\ Settled p ∈ trace run.2)
  /\ (c = 2 ->
        precedes (trace run.2) (Settled 0) (Started 2)
        /\ precedes (trace run.2) (Settled 1) (Started 2)
        /\ precedes (trace run.2) (Settled 0) (Started 3)
        /\ precedes (trace run.2) (Settled 1) (Started 3))
  /\ (forall more k replies s, 0 <= k -> k * c < Z.of_nat (length tokens) ->
        let r :=
          batches (S more) tokens forceUpdate (int c) (int (k * c)) replies
            s in
        (exists later,
           trace r.2
           = trace s
             ++ dispatch (Z.to_nat (k * c)) (chunk_at c (k * c) tokens)
             ++ later)
        /\ (replies = [] ->
            r.1 = Running
            /\ trace r.2
               = trace s
                 ++ dispatch (Z.to_nat (k * c)) (chunk_at c (k * c) tokens))
        /\ chunk_at c (k * c) tokens <> [])
  /\ (exists k, 0 <= k
        /\ started_positions (trace run.2)
           = seq 0 (in_chunks c (length tokens) k))
  /\ (forall summary, run.1 = Completed summary ->
        started_positions (trace run.2) = seq 0 (length tokens))
  /\ (exists fuel' schedule' summary,
        (analyzeAndStoreTokens fuel' schedule' db tokens forceUpdate
           (int c)).1 = Completed summary).
Proof.
  intros Hc run.
  pose proof (batches_in_chunk c tokens forceUpdate Hc fuel 0 schedule
    (initial db tokens forceUpdate (int c))) as Hrun.
  pose proof (batches_started c tokens forceUpdate Hc fuel 0 schedule
    (initial db tokens forceUpdate (int c))) as Hstarted.
  simpl in Hrun, Hstarted. unfold run. rewrite run_integer.
  destruct Hrun as (Hb & Hd & Hall); [lia| |].
  { repeat split.
    - intros p q _ j Hj. now rewrite lookup_nil in Hj.
    - intros p q _ _ j Hj. now rewrite lookup_nil in Hj.
    - intros p Hp. rewrite Z.min_l in Hp by lia. simpl in Hp. lia.
    - intros p Hp. rewrite Z.min_l in Hp by lia. simpl in Hp. lia. }
  destruct Hstarted as [Hsome Hdone]; [lia| |].
  { unfold in_chunks. rewrite Z.min_l by lia. reflexivity. }
  split; [exact Hb|]. split; [exact Hd|]. split; [exact Hall|].
  split; [intros ->; repeat split; now apply Hb|].
  split; [intros more k replies s Hk Hlt; now apply chunk_is_dispatched|].
  split; [exact Hsome|]. split; [exact Hdone|].
  now apply some_schedule_completes.
Qed.

End Loop.

End BarrierProofs.

(** ** The scores held by the store *)

Module StoreProofs.
Import JS Scoring Scheduler ScoringProofs PipelineProofs BatchProofs.

Section Runs.
Context `{Collaborators}.







End Runs.

End StoreProofs.

(** ** The routes *)

Module RoutesProofs.
Import JS Scoring Scheduler Routes Middleware.

Section WithPlatform.
Context `{Platform}.


Lemma slice_prefix {A} (l : list A) (k : Z) :
  0 <= k -> Array_slice l (Int 0) (Int k) = take (Z.to_nat k) l.
Proof.
  intros Hk. unfold Array_slice, relative_index.
  destruct (k <? 0) eqn:E; [apply Z.ltb_lt in E; lia|]. simpl.
  rewrite (Z.min_l 0) by lia. rewrite Z.sub_0_r.
  change (Z.to_nat 0) with 0%nat. rewrite drop_0.
  destruct (decide (k <= Z.of_nat (length l))) as [Hle|Hgt].
  - now rewrite Z.min_l by lia.
  - rewrite Z.min_r by lia. rewrite Nat2Z.id.
    rewrite !take_ge; [done|lia|lia].
Qed.

Lemma slice_prefix_length {A} (l : list A) (k : Z) :
  0 <= k -> Z.of_nat (length (Array_slice l (Int 0) (Int k))) <= k.
Proof.
  intros Hk. rewrite slice_prefix by done. rewrite length_take. lia.
Qed.





End WithPlatform.

End RoutesProofs.

(** ** The theorems at concrete inputs *)

Module Examples.
Import JS Scoring Scheduler Routes Middleware Demo.
Import ScoringProofs PipelineProofs BatchProofs BarrierProofs StoreProofs
  RoutesProofs.



Lemma counters_add_up_witness :
  analyzeAndStoreTokens 5 slow_first_chunk ∅ four_tokens false (int 2)
  = (Completed {| r_updated := 4; r_skipped := 0; r_noData := 0;
                  r_failed := 0 |},
     (analyzeAndStoreTokens 5 slow_first_chunk ∅ four_tokens false (int 2)).2)
  /\ processed
       (counters (analyzeAndStoreTokens 5 slow_first_chunk ∅ four_tokens
                    false (int 2)).2) = 4
  /\ analyzeAndStoreTokens 5 slow_first_chunk ∅ four_tokens false
       (Fin (5 # 2))
     = (Completed {| r_updated := 4; r_skipped := 0; r_noData := 0;
                     r_failed := 0 |},
        (analyzeAndStoreTokens 5 slow_first_chunk ∅ four_tokens false
           (Fin (5 # 2))).2)
  /\ processed
       (counters (analyzeAndStoreTokens 5 slow_first_chunk ∅ four_tokens
                    false (Fin (5 # 2))).2) = 4.
Proof.
  assert (Hrun :
    analyzeAndStoreTokens 5 slow_first_chunk ∅ four_tokens false (int 2)
    = (Completed {| r_updated := 4; r_skipped := 0; r_noData := 0;
                    r_failed := 0 |},
       (analyzeAndStoreTokens 5 slow_first_chunk ∅ four_tokens false (int 2)).2))
    by (vm_compute; reflexivity).
  assert (Hhalf :
    analyzeAndStoreTokens 5 slow_first_chunk ∅ four_tokens false (Fin (5 # 2))
    = (Completed {| r_updated := 4; r_skipped := 0; r_noData := 0;
                    r_failed := 0 |},
       (analyzeAndStoreTokens 5 slow_first_chunk ∅ four_tokens false
          (Fin (5 # 2))).2))
    by (vm_compute; reflexivity).
  split; [exact Hrun|].
  split;
    [exact (proj1 (proj2 (proj2 (counters_add_up false))) _ _ _ _ (int 2) _ _
              ltac:(discriminate) Hrun)|].
  split; [exact Hhalf|].
  exact (proj1 (proj2 (proj2 (counters_add_up false))) _ _ _ _ (Fin (5 # 2))
           _ _ ltac:(discriminate) Hhalf).
Defined.

(** With a chunk size that is not a number the call completes and reports
    four zeros for a list of four tokens: no token has incremented
    [processed]. *)
Lemma nan_chunk_size_counts_no_token :
  length four_tokens = 4%nat
  /\ (analyzeAndStoreTokens 2 (succeeds 0) ∅ four_tokens false NaN).1
     = Completed {| r_updated := 0; r_skipped := 0; r_noData := 0;
                    r_failed := 0 |}
  /\ processed
       (counters (analyzeAndStoreTokens 2 (succeeds 0) ∅ four_tokens false
                    NaN).2) = 0.
Proof. repeat split. Qed.

Lemma chunks_are_barriers_witness :
  1 <= 2
  /\ precedes
       (trace (analyzeAndStoreTokens 5 slow_first_chunk ∅ four_tokens false
                 (int 2)).2)
       (Settled 1) (Started 2)
  /\ started_positions
       (trace (analyzeAndStoreTokens 5 slow_first_chunk ∅ four_tokens false
                 (int 2)).2)
     = [0; 1; 2; 3]%nat
  /\ trace (batches 1 four_tokens false (int 2) (int (1 * 2)) []
              (initial ∅ four_tokens false (int 2))).2
     = dispatch 2 (chunk_at 2 2 four_tokens).
Proof.
  assert (Hc : 1 <= 2) by lia.
  split; [exact Hc|].
  pose proof (chunks_are_barriers 5 slow_first_chunk ∅ four_tokens false 2 Hc)
    as (_ & _ & _ & Hfour & Hchunk & _ & Hdone & _).
  split; [exact (proj1 (proj2 (Hfour eq_refl)))|].
  split.
  - apply (Hdone {| r_updated := 4; r_skipped := 0; r_noData := 0;
                    r_failed := 0 |}).
    vm_compute. reflexivity.
  - apply (Hchunk 0%nat 1 [] (initial ∅ four_tokens false (int 2)));
      [lia|simpl; lia|reflexivity].
Defined.

Lemma cache_hit_is_skipped_witness :
  point at_get = AwaitGet
  /\ store holding !! address (token at_get) = Some cached
  /\ exists t' s',
       resume false at_get GotData 0 holding = Some (t', s')
       /\ skipped (counters s') = 1
       /\ trace s' = [Settled 0].
Proof.
  assert (Hp : point at_get = AwaitGet) by reflexivity.
  assert (Hs : store holding !! address (token at_get) = Some cached)
    by (vm_compute; reflexivity).
  split; [exact Hp|]. split; [exact Hs|].
  destruct (cache_hit_is_skipped at_get 0 holding cached Hp Hs)
    as (t' & s' & Hr & Hsk & _ & _ & _ & _ & _ & _ & Ht & _).
  exists t', s'. split; [exact Hr|]. split; [exact Hsk|exact Ht].
Defined.

Lemma no_data_after_both_fetches_witness :
  point (at_metadata on_ethereum []) = AwaitMetadata (Some [])
  /\ (exists t' s',
        resume false (at_metadata on_ethereum []) (GotMetadata (Some tt)) 0
          holding = Some (t', s')
        /\ noData (counters s') = 1
        /\ failed (counters s') = 0)
  /\ (exists t1 s1 t2 s2,
        resume false (move at_get AwaitTransactions)
          (GotTransactions (Some [])) 0 holding = Some (t1, s1)
        /\ point t1 = AwaitMetadata (Some [])
        /\ resume false t1 (GotMetadata (Some tt)) 0 s1 = Some (t2, s2)
        /\ noData (counters s2) = 1
        /\ trace s2 = [Called 0 (CallMetadata "0xaa"); Settled 0]).
Proof.
  assert (Hp : point (at_metadata on_ethereum []) = AwaitMetadata (Some []))
    by reflexivity.
  split; [exact Hp|].
  pose proof (no_data_after_both_fetches false (at_metadata on_ethereum [])
                (Some []) 0 holding Hp) as (Hno & _ & _ & Hboth).
  split.
  - destruct (Hno (Some tt) (or_intror (or_introl eq_refl)))
      as (t' & s' & Hr & Hn & Hf & _).
    exists t', s'. split; [exact Hr|]. split; [exact Hn|exact Hf].
  - destruct (Hboth (move at_get AwaitTransactions) 0 holding (Some tt)
                eq_refl (or_intror (or_introl eq_refl)))
      as (t1 & s1 & t2 & s2 & H1 & _ & _ & Hp1 & H2 & Hn & _ & _ & _ & Ht & _).
    exists t1, s1, t2, s2.
    split; [exact H1|]. split; [exact Hp1|]. split; [exact H2|].
    split; [exact Hn|exact Ht].
Defined.

(** The transaction fetch of the only token resolves with an empty array
    and its metadata fetch rejects: the token is counted as failed, and
    not as having no data. *)
Lemma empty_transactions_counted_failed :
  (analyzeAndStoreTokens 5 (empty_then_rejected 0) ∅ [on_ethereum] false (int 1)).1
  = Completed {| r_updated := 0; r_skipped := 0; r_noData := 0;
                 r_failed := 1 |}
  /\ trace (analyzeAndStoreTokens 5 (empty_then_rejected 0) ∅ [on_ethereum]
              false (int 1)).2
     = [Started 0; Called 0 (CallGet "0xaa");
        Called 0 (CallTransactions "0xaa"); Called 0 (CallMetadata "0xaa");
        Settled 0].
Proof. split; vm_compute; reflexivity. Qed.

Lemma faults_are_isolated_witness :
  pending (point at_get)
  /\ (exists t' s',
        resume false at_get (Rejected "connection lost") 0 holding
        = Some (t', s')
        /\ caught at_get "connection lost" holding t' s')
  /\ (analyzeAndStoreTokens 5 all_rejected ∅ six_tokens false (int 6)).1
     = Completed {| r_updated := 0; r_skipped := 0; r_noData := 0;
                    r_failed := 6 |}
  /\ failure_lines
       (console (analyzeAndStoreTokens 5 all_rejected ∅ six_tokens false (int 6)).2)
     = 5
  /\ processed
       (counters (analyzeAndStoreTokens 5 all_rejected ∅ six_tokens false (int 6)).2)
     = 6.
Proof.
  destruct (faults_are_isolated false) as (Hstep & _ & Hrun & Hall).
  assert (Hp : pending (point at_get)) by exact I.
  split; [exact Hp|]. split; [exact (Hstep at_get _ 0 holding Hp)|].
  destruct (Hrun 5%nat all_rejected ∅ six_tokens (int 6)) as (_ & Hlines).
  assert (Hdone :
    (analyzeAndStoreTokens 5 all_rejected ∅ six_tokens false (int 6)).1
    = Completed {| r_updated := 0; r_skipped := 0; r_noData := 0;
                   r_failed := 6 |}) by (vm_compute; reflexivity).
  split; [exact Hdone|]. split.
  - rewrite Hlines. vm_compute. reflexivity.
  - exact (Hall 5%nat all_rejected ∅ six_tokens 6 _ Hdone).
Defined.

Lemma cache_key_is_address_only_witness :
  address on_ethereum = address on_base
  /\ chainId on_ethereum <> chainId on_base
  /\ exists s2 s4,
       store s2 !! "0xaa"%string
       = Some (record_of on_ethereum (int 47) 1 example_metrics)
       /\ store s4 !! "0xaa"%string
          = Some (record_of on_base (int 47) 3 example_metrics)
       /\ dom (store s4) = {[ "0xaa"%string ]} ∪ dom (store holding).
Proof.
  split; [reflexivity|]. split; [discriminate|].
  destruct (cache_key_is_address_only false
              (at_metadata on_ethereum [1%nat]) (at_metadata on_base [2%nat])
              [1%nat] [2%nat] tt tt example_metrics example_metrics
              1 2 3 4 holding eq_refl eq_refl ltac:(discriminate) eq_refl
              eq_refl ltac:(discriminate) eq_refl)
    as (t1a & s1 & t1b & s2 & t2a & s3 & t2b & s4
        & _ & _ & _ & _ & Hs2 & _ & Hs4 & _ & Hdom).
  exists s2, s4. split; [|split; [exact Hs4|exact Hdom]].
  rewrite Hs2. apply lookup_insert_eq.
Defined.

(** The same address on two chains, one token per chunk, no forced update:
    the first pass stores its record, and the second token finds it and is
    skipped after its [client.get], with no other call. *)
Example second_chain_is_skipped :
  let run :=
    analyzeAndStoreTokens 5 (succeeds 0 ++ succeeds 0) ∅ [on_ethereum; on_base]
      false (int 1) in
  run.1 = Completed {| r_updated := 1; r_skipped := 1; r_noData := 0;
                       r_failed := 0 |}
  /\ c_chainId <$> store run.2 !! "0xaa"%string = Some 1
  /\ events_of 1 (trace run.2)
     = [Started 1; Called 1 (CallGet "0xaa"); Settled 1].
Proof. vm_compute. repeat split. Qed.

(** The same two tokens in one chunk, both [client.get] served first: both
    find the store empty, both write, and the record of the one served last
    is the one that stays. *)
Example same_chunk_last_writer_wins :
  let run :=
    analyzeAndStoreTokens 5
      (take 1 (succeeds 0) ++ take 1 (succeeds 1) ++ drop 1 (succeeds 1)
       ++ drop 1 (succeeds 0))
      ∅ [on_ethereum; on_base] false (int 2) in
  run.1 = Completed {| r_updated := 2; r_skipped := 0; r_noData := 0;
                       r_failed := 0 |}
  /\ c_chainId <$> store run.2 !! "0xaa"%string = Some 1
  /\ size (store run.2) = 1%nat.
Proof.
  vm_compute.
  repeat split.
Qed.



End Examples.

(** * Further properties of the code *)

(** ** The score: integrality, monotonicity, saturation *)

Module ScoringExtras.
Import JS JSFacts Scoring ScoringOrder ScoringProofs.

(** The rounded and clamped value of a finite sum. *)
Lemma clamp_round_value q :
  Math_max (int 0) (Math_min (int 100) (Math_round (Fin q)))
  = int (Z.max 0 (Z.min 100 (Qfloor (q + (1 # 2))))).
Proof.
  unfold int. cbn [Math_round Math_min]. rewrite Qle_bool_inject.
  set (z := Qfloor (q + (1 # 2))).
  destruct (100 <=? z) eqn:E1; cbn [Math_max]; rewrite Qle_bool_inject.
  - apply Z.leb_le in E1. simpl. do 2 f_equal. lia.
  - apply Z.leb_gt in E1.
    destruct (0 <=? z) eqn:E2;
      [apply Z.leb_le in E2|apply Z.leb_gt in E2]; do 2 f_equal; lia.
Qed.

Lemma clamp_round_whole s :
  s <> NaN ->
  whole_percent (Math_max (int 0) (Math_min (int 100) (Math_round s))).
Proof.
  destruct s as [q| | |]; intros Hs; try done.
  - rewrite clamp_round_value. eexists. split; [|reflexivity]. lia.
  - exists 100. split; [lia|reflexivity].
  - exists 0. split; [lia|reflexivity].
Qed.

(** X1. Whatever the metrics, [calculateTrendingScore] returns either NaN,
    and then only because the weighted sum is NaN, or a whole number between
    0 and 100: never a fraction, never an infinity. *)
Theorem score_is_whole_or_NaN (metrics : Metrics) :
  (weighted_sum metrics = NaN /\ calculateTrendingScore metrics = NaN)
  \/ (weighted_sum metrics <> NaN
      /\ whole_percent (calculateTrendingScore metrics)).
Proof.
  unfold calculateTrendingScore.
  destruct (weighted_sum metrics) as [q| | |] eqn:E.
  - right. split; [done|]. now apply clamp_round_whole.
  - right. split; [done|]. now apply clamp_round_whole.
  - right. split; [done|]. now apply clamp_round_whole.
  - left. split; reflexivity.
Qed.









Lemma same_sym x y : same x y -> same y x.
Proof. destruct x, y; simpl; try tauto. intros H. now symmetry. Qed.

Lemma same_trans x y z : same x y -> same y z -> same x z.
Proof.
  destruct x, y, z; simpl; try tauto. intros H1 H2. now rewrite H1.
Qed.

Lemma clamp_round_same s s' :
  same s s' ->
  Math_max (int 0) (Math_min (int 100) (Math_round s))
  = Math_max (int 0) (Math_min (int 100) (Math_round s')).
Proof. intros Hs. now rewrite (Math_round_same s s' Hs). Qed.

Lemma cap_reached b :
  le (int 100) b \/ b = PInf -> same (Math_min b (int 100)) (int 100).
Proof.
  intros [Hb| ->]; [|reflexivity].
  destruct b as [q| | |]; simpl in *; try tauto.
  destruct (Qle_bool q (inject_Z 100)) eqn:E; simpl; [|reflexivity].
  apply Qle_bool_iff in E. lra.
Qed.

Lemma floor_reached p :
  le p (int (-100)) \/ p = NInf -> same (Math_max p (int (-100))) (int (-100)).
Proof.
  intros [Hp| ->]; [|reflexivity].
  destruct p as [q| | |]; simpl in *; try tauto.
  destruct (Qle_bool q (inject_Z (-100))) eqn:E; simpl; [reflexivity|].
  apply Qle_bool_false in E. lra.
Qed.

(** X3. The buy/sell ratio is capped at 100 and the price change is floored
    at -100: a ratio of 100 or more (up to +Infinity) scores as a ratio of
    100, and a price change of -100 or less (down to -Infinity) scores as a
    price change of -100, whatever the other properties. *)
Theorem ratio_and_price_saturate (a l mo d : option number) :
  (forall b p,
     le (int 100) b \/ b = PInf ->
     calculateTrendingScore (mkMetrics a l mo d (Some b) p)
     = calculateTrendingScore (mkMetrics a l mo d (Some (int 100)) p))
  /\ (forall b p,
        le p (int (-100)) \/ p = NInf ->
        calculateTrendingScore (mkMetrics a l mo d b (Some p))
        = calculateTrendingScore (mkMetrics a l mo d b (Some (int (-100))))).
Proof.
  split; intros b p H; unfold calculateTrendingScore; apply clamp_round_same;
    unfold weighted_sum; cbn [activityScore liquidityHealthScore momentumScore
      distributionScore buyVsSellRatio priceChange24h or_default].
  - repeat apply add_same; try apply same_refl.
    apply mul_same; [|apply same_refl].
    apply (same_trans _ (int 100)); [now apply cap_reached|].
    apply same_sym. apply cap_reached. left. simpl. lra.
  - repeat apply add_same; try apply same_refl.
    apply div_same; [|apply same_refl].
    apply (same_trans _ (int (-100))); [now apply floor_reached|].
    apply same_sym. apply floor_reached. left. simpl. lra.
Qed.

End ScoringExtras.

(** ** The store after a run *)

Module FrameProofs.
Import JS Scoring Scheduler Writes PipelineProofs BatchProofs.

(** *** Properties of the tasks and the state that every step keeps *)

Section TaskInvariant.
Context `{Collaborators}.
Variable forceUpdate : bool.
Variable tokens : list TokenAddress.
Variable I : State -> Prop.
Variable T : Task -> Prop.
Hypothesis I_emit : forall e s, I s -> I (emit e s).
Hypothesis I_log : forall l s, I s -> I (log l s).
Hypothesis T_start : forall first token,
  token ∈ tokens -> T {| pos := first; token := token; point := AwaitGet |}.
Hypothesis step : forall t reply now s t' s',
  T t -> I s -> resume forceUpdate t reply now s = Some (t', s') ->
  T t' /\ I s'.

Lemma start_batch_tasks batch : forall first s,
  batch ⊆ tokens -> I s ->
  Forall T (start_batch first batch s).1 /\ I (start_batch first batch s).2.
Proof.
  induction batch as [|token rest IH]; intros first s Hsub Hs; simpl.
  - split; [constructor|done].
  - specialize (IH (S first)
      (emit (Called first (CallGet (address token))) (emit (Started first) s))).
    destruct (start_batch _ rest _) as [pool s']. simpl in *.
    destruct IH as [Hpool Hs'].
    + intros x Hx. apply Hsub. now right.
    + now do 2 apply I_emit.
    + split; [|done]. constructor; [|done].
      apply T_start, Hsub. now left.
Qed.

Lemma await_all_tasks schedule pool s :
  Forall T pool -> I s ->
  Forall T (await_all forceUpdate schedule pool s).1.2
  /\ I (await_all forceUpdate schedule pool s).2.
Proof.
  intros Hpool Hs.
  apply (await_all_inv forceUpdate (fun pool s => Forall T pool /\ I s));
    [|done].
  intros pool0 s0 j t reply now t' s' Hj Hr [Hp0 Hs0].
  assert (Ht : T t) by (eapply Forall_lookup_1; eassumption).
  destruct (step _ _ _ _ _ _ Ht Hs0 Hr) as [Ht' Hs'].
  split; [|done]. now apply Forall_insert.
Qed.

Lemma slice_subseteq {A} (l : list A) a b : Array_slice l a b ⊆ l.
Proof.
  unfold Array_slice. etransitivity; [apply subseteq_take|apply subseteq_drop].
Qed.

Lemma batches_tasks fuel concurrency : forall i schedule s,
  I s -> I (batches fuel tokens forceUpdate concurrency i schedule s).2.
Proof.
  induction fuel as [|fuel IH]; intros i schedule s Hs; simpl; [done|].
  destruct (lt i _).
  - set (batch := Array_slice _ _ _). set (first := Z.to_nat _).
    destruct (start_batch_tasks batch first s) as [H1 H2];
      [apply slice_subseteq|done|].
    destruct (start_batch _ _ s) as [pool s1]. simpl in H1, H2.
    destruct (await_all_tasks schedule pool s1 H1 H2) as [H3 H4].
    destruct (await_all _ _ _ _) as [[schedule' pool'] s2]. simpl in H3, H4.
    destruct (Promise_all pool'); try done.
    apply IH. now apply I_log.
  - simpl. now apply I_log.
Qed.

End TaskInvariant.

Section Runs.
Context `{Collaborators}.

Lemma Resumed_token t s t' s' : Resumed t s t' s' -> token t' = token t.
Proof. now destruct 1. Qed.

Lemma Resumed_store_cases t s t' s' :
  Resumed t s t' s' ->
  store s' = store s
  \/ exists key value,
       point t = AwaitSet key value /\ store s' = <[key := value]> (store s).
Proof.
  destruct 1 as [next call s1 _ _ Hs _ _| | |key value Hp|err]; simpl; auto.
  - right. eauto.
  - left. unfold catch_block. now destruct (_ <=? 5).
Qed.

(** The record a task is about to write was built for its own token, from a
    non-empty transaction list, and goes under that token's address. *)
Lemma resume_set_written forceUpdate t reply now s t' s' key value :
  resume forceUpdate t reply now s = Some (t', s') ->
  point t' = AwaitSet key value ->
  exists transactions analysis metrics,
    transactions <> []
    /\ analyzeOnChain transactions analysis = inr metrics
    /\ key = address (token t)
    /\ value = record_of (token t) (calculateTrendingScore metrics) now metrics.
Proof.
  unfold resume, try_body, finally_block. intros Hr Hp.
  destruct (point t) eqn:Ht, reply; simplify_eq; simpl in *; try done.
  - destruct (_ && _); simplify_eq; done.
  - unfold validate_and_score in Hr.
    destruct transactions as [[|tx txs]|]; simplify_eq; try done.
    destruct analysis as [a|]; simplify_eq; try done.
    destruct (analyzeOnChain (tx :: txs) a) as [err|m] eqn:Ha;
      simplify_eq; try done.
    simpl in Hp. simplify_eq. exists (tx :: txs), a, m. done.
Qed.

Lemma run_provenance fuel schedule db tokens forceUpdate concurrency :
  let after :=
    store (analyzeAndStoreTokens fuel schedule db tokens forceUpdate
             concurrency).2 in
  from_db_or_written db tokens after /\ dom db ⊆ dom after.
Proof.
  apply (batches_tasks forceUpdate tokens
    (fun s => from_db_or_written db tokens (store s)
              /\ dom db ⊆ dom (store s))
    (fun t => token t ∈ tokens
              /\ forall key value, point t = AwaitSet key value ->
                   written_for tokens key value)); try done.
  - intros t reply now s t' s' [Ht Hw] [Hs Hd] Hr.
    pose proof Hr as Hr'. apply resume_Resumed in Hr' as [_ Hr'].
    rewrite (Resumed_token _ _ _ _ Hr'). split.
    + split; [done|]. intros key value Hp.
      destruct (resume_set_written _ _ _ _ _ _ _ _ _ Hr Hp)
        as (txs & a & m & Hne & Ha & -> & ->).
      exists (token t), txs, a, m, now. done.
    + destruct (Resumed_store_cases _ _ _ _ Hr')
        as [->|(key & value & Hp & ->)]; [done|]. split.
      * intros k v Hk. destruct (decide (key = k)) as [->|Hne].
        -- rewrite lookup_insert_eq in Hk. simplify_eq. right. eauto.
        -- rewrite lookup_insert_ne in Hk by done. eauto.
      * rewrite dom_insert. set_solver.
  - split; [|done]. intros key value Hk. now left.
Qed.

(** X4. A run never deletes a key, and it writes nothing but the records of
    the listed tokens: every record of the store after a run (complete or
    not, under any schedule) is the record the store held under that key
    before, or a record built for a listed token from a non-empty transaction
    list and stored under that token's address. *)
Theorem run_writes_only_listed_tokens (fuel : nat) (schedule : list Entry)
    (db : gmap string CachedTokenRecord) (tokens : list TokenAddress)
    (forceUpdate : bool) (concurrency : number) :
  let after :=
    store (analyzeAndStoreTokens fuel schedule db tokens forceUpdate
             concurrency).2 in
  (forall key value, after !! key = Some value ->
     db !! key = Some value \/ written_for tokens key value)
  /\ (forall key, is_Some (db !! key) -> is_Some (after !! key)).
Proof.
  intros after.
  destruct (run_provenance fuel schedule db tokens forceUpdate concurrency)
    as [Hfrom Hdom].
  split; [exact Hfrom|].
  intros key Hk. apply elem_of_dom, Hdom, elem_of_dom, Hk.
Qed.

Lemma run_keeps_db fuel schedule db tokens concurrency :
  db ⊆ store (analyzeAndStoreTokens fuel schedule db tokens false
                concurrency).2.
Proof.
  apply (batches_tasks false tokens (fun s => db ⊆ store s)
           (past_cache_check db)); try done.
  intros t reply now s t' s' Ht Hs.
  unfold resume, try_body, finally_block, past_cache_check in *.
  destruct (point t) eqn:Hp, reply; intros Hr; simplify_eq; simpl;
    try (split; [done|]; unfold catch_block; destruct (_ <=? 5); done).
  - destruct (store s !! address (token t)) as [r|] eqn:E; simpl in Hr;
      simplify_eq; simpl; [done|].
    split; [|done]. eapply lookup_weaken_None; eassumption.
  - done.
  - unfold validate_and_score in Hr.
    destruct transactions as [[|tx txs]|]; simplify_eq; try done.
    destruct analysis as [a|]; simplify_eq; try done.
    destruct (analyzeOnChain (tx :: txs) a) as [err|m];
      simplify_eq; simpl.
    + split; [done|]. unfold catch_block. destruct (_ <=? 5); done.
    + split; [done|]. destruct (_ || _); done.
  - split; [done|]. now apply insert_subseteq_r.
Qed.

(** X5. Without [forceUpdate] a run changes no record the store already
    holds: whatever the tokens, the schedule and the chunk size, every key
    of the store keeps its record. *)
Theorem existing_records_are_kept (fuel : nat) (schedule : list Entry)
    (db : gmap string CachedTokenRecord) (tokens : list TokenAddress)
    (concurrency : number) (key : string) (value : CachedTokenRecord) :
  db !! key = Some value ->
  store (analyzeAndStoreTokens fuel schedule db tokens false concurrency).2
    !! key = Some value.
Proof.
  intros Hk. eapply lookup_weaken; [exact Hk|apply run_keeps_db].
Qed.

(** A resumption with [forceUpdate] leaves the [skipped] counter as it
    is. *)
Lemma forced_resume_skips_nothing t reply now s t' s' :
  resume true t reply now s = Some (t', s') ->
  skipped (counters s') = skipped (counters s).
Proof.
  unfold resume, try_body, finally_block.
  destruct (point t) eqn:Hp, reply; intros Hr; simplify_eq; simpl;
    try (unfold catch_block; destruct (_ <=? 5); done).
  - rewrite andb_false_r in Hr. now simplify_eq.
  - done.
  - unfold validate_and_score in Hr.
    destruct transactions as [[|tx txs]|]; simplify_eq; try done.
    destruct analysis as [a|]; simplify_eq; try done.
    destruct (analyzeOnChain (tx :: txs) a) as [err|m]; simplify_eq; simpl.
    + unfold catch_block. destruct (_ <=? 5); done.
    + destruct (_ || _); done.
  - done.
Qed.

Lemma forced_run_skipped fuel schedule db tokens concurrency :
  skipped (counters
    (analyzeAndStoreTokens fuel schedule db tokens true concurrency).2) = 0.
Proof.
  apply (batches_tasks true tokens (fun s => skipped (counters s) = 0)
           (fun _ => True)); try done.
  intros t reply now s t' s' _ Hs Hr. split; [done|].
  now rewrite (forced_resume_skips_nothing _ _ _ _ _ _ Hr).
Qed.

(** X6. With [forceUpdate] nothing is ever skipped: the [skipped] counter
    stays 0 throughout the run, and a completed run reports
    [skipped: 0]. *)
Theorem forced_run_skips_nothing (fuel : nat) (schedule : list Entry)
    (db : gmap string CachedTokenRecord) (tokens : list TokenAddress)
    (concurrency : number) :
  let run := analyzeAndStoreTokens fuel schedule db tokens true concurrency in
  skipped (counters run.2) = 0
  /\ match run.1 with
     | Completed summary => r_skipped summary = 0
     | _ => True
     end.
Proof.
  intros run.
  pose proof (forced_run_skipped fuel schedule db tokens concurrency) as Hs.
  fold run in Hs. split; [exact Hs|].
  destruct run as [[summary|err|] s] eqn:E; try done.
  apply run_summary in E. subst summary. exact Hs.
Qed.

(** X7. A run creates at most as many keys as it counts updates: the store
    after a run has at most [updated] keys more than before. *)
Theorem new_keys_are_counted (fuel : nat) (schedule : list Entry)
    (db : gmap string CachedTokenRecord) (tokens : list TokenAddress)
    (forceUpdate : bool) (concurrency : number) :
  let s :=
    (analyzeAndStoreTokens fuel schedule db tokens forceUpdate concurrency).2 in
  Z.of_nat (size (store s)) <= Z.of_nat (size db) + updated (counters s).
Proof.
  apply (batches_keeps
    (fun s => Z.of_nat (size (store s))
              <= Z.of_nat (size db) + updated (counters s))); try done.
  - intros t s t' s' Hr Hs.
    destruct Hr as [next c s1 _ Hc Hst _ _| | |key value _|err]; simpl;
      rewrite ?Hc, ?Hst; try done.
    + destruct (store s !! key) as [old|] eqn:E.
      * rewrite map_size_insert_Some by (rewrite E; eauto). lia.
      * rewrite map_size_insert_None by done. lia.
    + unfold catch_block. destruct (_ <=? 5); done.
  - simpl. lia.
Qed.

End Runs.

End FrameProofs.

(** ** The maintenance jobs *)

Module MaintenanceProofs.
Import JS Scoring Scheduler Routes Writes Maintenance.
Import PipelineProofs BatchProofs FrameProofs RoutesProofs.

Section Jobs.
Context `{Collaborators}.

Lemma get_all_reads get (f : string -> option CachedTokenRecord) keys :
  (forall k, get k = Resolves (f k)) ->
  get_all get keys = Resolves (map f keys).
Proof.
  intros Hget. induction keys as [|k keys IH]; simpl; [done|].
  now rewrite Hget, IH.
Qed.

(** The tokens of a full update are the conversions of the records of the
    store, each under its own key. *)
Lemma converted_tokens db keys token :
  self_keyed db ->
  token ∈ map token_of_record (omap id (map (fun k => db !! k) keys)) ->
  exists old, db !! address token = Some old /\ token = token_of_record old.
Proof.
  intros Hself Ht.
  apply list_elem_of_fmap in Ht as (old & -> & Hold).
  apply list_elem_of_omap in Hold as (x & Hx & Hid). simpl in Hid. subst x.
  apply list_elem_of_fmap in Hx as (k & Hk & _).
  symmetry in Hk. pose proof (Hself _ _ Hk) as Ha.
  exists old. simpl. now rewrite Ha.
Qed.

Lemma completed_run_accounts fuel schedule db tokens forceUpdate c summary :
  (analyzeAndStoreTokens fuel schedule db tokens forceUpdate (int c)).1
  = Completed summary ->
  accounted summary = Z.of_nat (length tokens).
Proof.
  intros Hrun.
  pose proof (run_balanced fuel schedule db tokens forceUpdate (int c)) as Hb.
  destruct (analyzeAndStoreTokens _ _ _ _ _ _) as [o s] eqn:E.
  simpl in Hrun, Hb. subst o.
  pose proof (run_processed _ _ _ _ _ _ _ _ E) as Hp.
  apply run_summary in E. subst summary.
  unfold accounted, balanced in *. simpl. lia.
Qed.

(** A completed run with [forceUpdate] has counted every token as updated,
    without data or failed. *)
Lemma forced_completed_accounts fuel schedule db tokens c summary :
  (analyzeAndStoreTokens fuel schedule db tokens true (int c)).1
  = Completed summary ->
  r_skipped summary = 0
  /\ r_updated summary + r_noData summary + r_failed summary
     = Z.of_nat (length tokens).
Proof.
  intros Hdone.
  pose proof (completed_run_accounts _ _ _ _ _ _ _ Hdone) as Hacc.
  pose proof (forced_run_skipped fuel schedule db tokens (int c)) as Hskip.
  destruct (analyzeAndStoreTokens fuel schedule db tokens true (int c))
    as [o s1] eqn:Erun.
  cbn [fst snd] in Hdone, Hskip. subst o.
  apply run_summary in Erun. subst summary.
  unfold accounted in Hacc. cbn [r_updated r_skipped r_noData r_failed] in *.
  lia.
Qed.

(** Every listed key that holds a record gives one token. *)
Lemma listed_records (db : gmap string CachedTokenRecord) keys :
  (forall k, k ∈ keys -> is_Some (db !! k)) ->
  length (omap id (map (fun k => db !! k) keys)) = length keys.
Proof.
  induction keys as [|k keys IH]; intros Hk; simpl; [done|].
  destruct (Hk k) as [r Hr]; [now left|]. rewrite Hr. simpl.
  f_equal. apply IH. intros k' Hk'. apply Hk. now right.
Qed.

(** X8. A full update of a store whose records are stored under their own
    addresses, when the key listing and the reads answer from that store,
    neither adds nor removes a key: it is never rejected, it does nothing
    only when the store is empty, and otherwise every key keeps a record
    stored under its own address, which is the old record or the record of
    the token the old record converts to, scored afresh.  When the run
    completes (the chunk size being an integer), it has skipped nothing and
    counted every listed key once, as updated, without data or failed. *)
Theorem full_update_keeps_the_keys (fuel : nat) (schedule : list Entry)
    (db : gmap string CachedTokenRecord) (keys : list string)
    (get : string -> Await (option CachedTokenRecord))
    (concurrency : option number) :
  self_keyed db ->
  (forall k, k ∈ keys <-> is_Some (db !! k)) ->
  (forall k, get k = Resolves (db !! k)) ->
  match updateAllTokenScores fuel schedule db (Resolves keys) get concurrency
  with
  | Failed _ => False
  | NothingToDo => db = ∅
  | Analyzed run =>
      (forall k, is_Some (store run.2 !! k) <-> is_Some (db !! k))
      /\ self_keyed (store run.2)
      /\ (forall k old new,
            db !! k = Some old -> store run.2 !! k = Some new ->
            new = old \/ rescored old new)
      /\ (forall c summary,
            default (int 10) concurrency = int c ->
            run.1 = Completed summary ->
            r_skipped summary = 0
            /\ r_updated summary + r_noData summary + r_failed summary
               = Z.of_nat (length keys))
  end.
Proof.
  intros Hself Hkeys Hget. unfold updateAllTokenScores.
  destruct (Nat.eqb (length keys) 0) eqn:E.
  - apply Nat.eqb_eq, nil_length_inv in E. subst keys.
    apply map_eq. intros k. rewrite lookup_empty.
    destruct (db !! k) as [r|] eqn:Hk; [|done].
    assert (Hin : k ∈ @nil string) by (apply Hkeys; rewrite Hk; eauto).
    now apply elem_of_nil in Hin.
  - rewrite (get_all_reads get (fun k => db !! k)) by done.
    set (tokens := map token_of_record _).
    destruct (run_provenance fuel schedule db tokens true
                (default (int 10) concurrency)) as [Hfrom Hdom].
    assert (Hcount : forall c summary,
              default (int 10) concurrency = int c ->
              (analyzeAndStoreTokens fuel schedule db tokens true
                 (default (int 10) concurrency)).1 = Completed summary ->
              r_skipped summary = 0
              /\ r_updated summary + r_noData summary + r_failed summary
                 = Z.of_nat (length keys)).
    { intros c summary Hc Hdone. rewrite Hc in Hdone.
      destruct (forced_completed_accounts _ _ _ _ _ _ Hdone) as [Hsk Hacc].
      split; [exact Hsk|]. rewrite Hacc. unfold tokens.
      rewrite length_map, listed_records; [done|].
      intros k Hk. now apply Hkeys. }
    set (run := analyzeAndStoreTokens _ _ _ _ _ _) in *.
    split; [|split; [|split; [|exact Hcount]]].
    + intros k. split.
      * intros [new Hk]. destruct (Hfrom _ _ Hk) as [Hdb|Hw]; [eauto|].
        destruct Hw as (token & txs & a & m & now & Ht & _ & _ & -> & _).
        destruct (converted_tokens db keys token Hself Ht) as (old & Ho & _).
        eauto.
      * intros Hk. apply elem_of_dom, Hdom, elem_of_dom, Hk.
    + intros k new Hk. destruct (Hfrom _ _ Hk) as [Hdb|Hw]; [eauto|].
      destruct Hw as (token & txs & a & m & now & _ & _ & _ & -> & ->).
      reflexivity.
    + intros k old new Ho Hk. destruct (Hfrom _ _ Hk) as [Hdb|Hw].
      * left. congruence.
      * right.
        destruct Hw as (token & txs & a & m & now & Ht & Hne & Ha & -> & ->).
        destruct (converted_tokens db keys token Hself Ht) as (old' & Ho' & ->).
        assert (old' = old) by congruence. subst old'.
        exists txs, a, m, now. done.
Qed.

Lemma filter_new_reads db exists_ allTokens : forall newTokens,
  (forall k, exists_ k
             = Resolves (match db !! k with Some _ => 1 | None => 0 end)) ->
  filter_new exists_ allTokens newTokens
  = Resolves (newTokens ++ List.filter (is_new db) allTokens).
Proof.
  intros newTokens Hex. revert newTokens.
  induction allTokens as [|token rest IH]; intros newTokens; simpl.
  - now rewrite app_nil_r.
  - rewrite Hex, IH. unfold is_new.
    destruct (db !! address token); simpl; [done|].
    now rewrite <- app_assoc.
Qed.

Lemma slice_from_start_length {A} (l : list A) e :
  (length (Array_slice l (Int 0) e) <= length l)%nat
  /\ forall z, e = Int z -> 0 <= z ->
       Z.of_nat (length (Array_slice l (Int 0) e)) <= z.
Proof.
  split.
  - unfold Array_slice. rewrite length_take, length_drop. lia.
  - intros z -> Hz. now apply slice_prefix_length.
Qed.

(** X9. When the discovery resolves and [client.exists] answers from the
    store, [addNewTokens] is not rejected; it does nothing only when the
    store holds every discovered address; and otherwise its run keeps every
    record of the store, creates keys only for discovered addresses the
    store did not hold, and, when it completes, has accounted for no more
    tokens than there were new ones, nor more than [maxNewTokens] when that
    is not negative. *)
Theorem addNewTokens_adds_only_new (fuel : nat) (schedule : list Entry)
    (db : gmap string CachedTokenRecord)
    (fetch : number -> Await (list TokenAddress))
    (exists_ : string -> Await Z) (days maxNewTokens : option number)
    (allTokens : list TokenAddress) :
  fetch (default (int 1) days) = Resolves allTokens ->
  (forall k, exists_ k
             = Resolves (match db !! k with Some _ => 1 | None => 0 end)) ->
  match addNewTokens fuel schedule db fetch exists_ days maxNewTokens with
  | Failed _ => False
  | NothingToDo =>
      forall token, token ∈ allTokens -> is_Some (db !! address token)
  | Analyzed run =>
      (forall k value, db !! k = Some value -> store run.2 !! k = Some value)
      /\ (forall k, is_Some (store run.2 !! k) ->
            is_Some (db !! k)
            \/ exists token, token ∈ allTokens /\ address token = k)
      /\ (forall summary, run.1 = Completed summary ->
            accounted summary
            <= Z.of_nat (length (List.filter (is_new db) allTokens))
            /\ forall z,
                 ToIntegerOrInfinity (default (int 500) maxNewTokens) = Int z ->
                 0 <= z -> accounted summary <= z)
  end.
Proof.
  intros Hfetch Hex. unfold addNewTokens. rewrite Hfetch.
  rewrite (filter_new_reads db) by done. simpl.
  set (news := List.filter (is_new db) allTokens).
  destruct (Nat.eqb (length news) 0) eqn:E.
  - apply Nat.eqb_eq, nil_length_inv in E.
    intros token Ht. destruct (db !! address token) as [r|] eqn:Hk; [eauto|].
    assert (Hin : In token news).
    { apply filter_In. split; [now apply list_elem_of_In|].
      unfold is_new. now rewrite Hk. }
    rewrite E in Hin. destruct Hin.
  - set (tokensToAdd := Array_slice news _ _).
    destruct (run_provenance fuel schedule db tokensToAdd false (int 15))
      as [Hfrom _].
    pose proof (run_keeps_db fuel schedule db tokensToAdd (int 15)) as Hkeep.
    split; [|split].
    + intros k value Hk. eapply lookup_weaken; eassumption.
    + intros k [value Hk]. destruct (Hfrom _ _ Hk) as [Hdb|Hw]; [eauto|].
      right.
      destruct Hw as (token & txs & a & m & now & Ht & _ & _ & -> & _).
      exists token. split; [|done].
      apply slice_subseteq in Ht. apply list_elem_of_In in Ht.
      apply filter_In in Ht as [Ht _]. now apply list_elem_of_In.
    + intros summary Hdone.
      apply completed_run_accounts in Hdone. rewrite Hdone.
      destruct (slice_from_start_length news
                  (ToIntegerOrInfinity (default (int 500) maxNewTokens)))
        as [Hle Hmax].
      split; [fold tokensToAdd in Hle; lia|].
      intros z Hz Hpos. fold tokensToAdd in Hmax. now apply Hmax.
Qed.

End Jobs.

End MaintenanceProofs.

(** ** The ranking of the trending tokens *)

Module RankingProofs.
Import JS JSFacts Scoring Scheduler Routes Trending Ranking BatchProofs.

Lemma score_or_zero_finite t : score_or_zero t = Fin (score_value t).
Proof.
  unfold score_value, score_or_zero.
  destruct (trendingscore t) as [q| | |]; try reflexivity.
  now destruct (number_truthy (Fin q)).
Qed.

(** The comparator is positive exactly when its second argument has the
    higher score. *)
Lemma comparator_positive a b :
  positive (by_score_descending a b) = true
  <-> (score_value a < score_value b)%Q.
Proof.
  unfold by_score_descending. rewrite !score_or_zero_finite. simpl.
  rewrite negb_true_iff. split.
  - intros Hle.
    assert (Hlt : (0 < score_value b - score_value a)%Q).
    { apply Qnot_le_lt. intros H. apply Qle_bool_iff in H. congruence. }
    lra.
  - intros Hlt. destruct (Qle_bool _ 0) eqn:E; [|done].
    apply Qle_bool_iff in E. lra.
Qed.

Lemma insert_sorted_perm x l :
  insert_sorted by_score_descending x l ≡ₚ x :: l.
Proof.
  induction l as [|y l IH]; simpl; [done|].
  destruct (positive _); [done|]. rewrite IH. apply Permutation_swap.
Qed.

Lemma insert_sorted_descending x l :
  descending l -> descending (insert_sorted by_score_descending x l).
Proof.
  unfold descending. induction l as [|y l IH]; intros Hl; simpl.
  - repeat constructor.
  - apply StronglySorted_inv in Hl as [Hl Hy].
    destruct (positive (by_score_descending y x)) eqn:E.
    + apply comparator_positive in E.
      constructor; [now constructor|].
      constructor; [lra|].
      eapply Forall_impl; [exact Hy|]. simpl. intros z Hz. lra.
    + constructor; [now apply IH|].
      rewrite insert_sorted_perm. constructor; [|done].
      destruct (Qlt_le_dec (score_value y) (score_value x)) as [Hlt|Hle];
        [|done].
      apply comparator_positive in Hlt. congruence.
Qed.

Lemma sort_from acc l :
  descending acc ->
  let sorted :=
    fold_left (fun sorted x => insert_sorted by_score_descending x sorted)
      l acc in
  descending sorted /\ sorted ≡ₚ acc ++ l.
Proof.
  revert acc. induction l as [|x l IH]; intros acc Hacc; simpl.
  - now rewrite app_nil_r.
  - destruct (IH (insert_sorted by_score_descending x acc)) as [Hs Hp];
      [now apply insert_sorted_descending|].
    split; [exact Hs|]. rewrite Hp, insert_sorted_perm.
    simpl. apply Permutation_middle.
Qed.

(** [sort] with the comparator of line 448 puts the records in descending
    order of score and neither drops nor repeats one. *)
Lemma Array_sort_descending l :
  descending (Array_sort by_score_descending l)
  /\ Array_sort by_score_descending l ≡ₚ l.
Proof. apply (sort_from [] l). constructor. Qed.

(** [slice(0, end)] keeps a prefix. *)
Lemma slice_from_start {A} (l : list A) e :
  Array_slice l (Int 0) e
  = take (Z.to_nat (relative_index (Z.of_nat (length l)) e)) l.
Proof.
  unfold Array_slice. cbn [relative_index].
  change (0 <? 0) with false. cbv iota.
  rewrite (Z.min_l 0) by lia. rewrite Z.sub_0_r.
  change (Z.to_nat 0) with 0%nat. now rewrite drop_0.
Qed.

(** What the route ranks when the chain is asked for at most once. *)
Lemma Array_filter_string toLowerCase s l :
  Array_filter (of_chain toLowerCase (QString s)) l
  = Some (filter (fun t => toLowerCase (units_of (c_chainName t))
                           = toLowerCase s) l).
Proof.
  induction l as [|t l IH]; [done|].
  cbn [Array_filter of_chain] in *. rewrite IH, filter_cons.
  destruct (decide _) as [Heq|Hne].
  - now rewrite bool_decide_true.
  - now rewrite bool_decide_false.
Qed.

Lemma filtered_once toLowerCase chain found :
  once chain ->
  (if query_truthy chain
   then Array_filter (of_chain toLowerCase chain) (omap id found)
   else Some (omap id found))
  = Some (candidates toLowerCase chain found).
Proof.
  destruct chain as [|[|u rest]|items|]; try done.
  intros _. apply Array_filter_string.
Qed.

(** A chain that is no string makes the callback throw at the first record
    it is called on. *)
Lemma filtered_not_once toLowerCase chain l :
  ~ once chain ->
  query_truthy chain = true
  /\ Array_filter (of_chain toLowerCase chain) l
     = match l with [] => Some [] | _ :: _ => None end.
Proof.
  intros Hno.
  destruct chain as [|s|items|]; try (now destruct Hno);
    (split; [done|]); now destruct l.
Qed.

Lemma ranked_split toLowerCase limit chain keys get found :
  get_all get keys = Resolves found ->
  once chain ->
  let ranking :=
    Array_sort by_score_descending (candidates toLowerCase chain found) in
  let k :=
    Z.to_nat (relative_index (Z.of_nat (length ranking))
                (ToIntegerOrInfinity (effective_limit limit))) in
  Trending.get_trending_tokens toLowerCase limit chain (Resolves keys) get
  = Status200 {| l_total := length (take k ranking ++ drop k ranking);
                 l_returned := length (take k ranking);
                 l_chain := chain_or_all chain;
                 l_tokens := take k ranking |}.
Proof.
  intros Hget Honce ranking k. unfold Trending.get_trending_tokens.
  rewrite Hget, (filtered_once toLowerCase chain found Honce).
  fold ranking. rewrite slice_from_start. fold k.
  rewrite take_drop.
  destruct (Array_sort_descending (candidates toLowerCase chain found))
    as [_ Hperm].
  fold ranking in Hperm. now rewrite (Permutation_length Hperm).
Qed.

(** X10. When every read resolves and the chain is asked for at most once,
    [GET /trending-tokens] answers 200 with a prefix of the ranking: the
    returned tokens, followed by the ones left out, are the found records of
    the chain asked for, each exactly once, in descending order of score; so
    no token left out has a higher score than a returned one, [total] counts
    all of them and [returned] the ones returned.  When the chain is an
    array or an object (the parameter is given more than once, or with
    brackets), the route answers 500 as soon as one record is found, and an
    empty listing when none is. *)
Theorem trending_tokens_are_the_top (toLowerCase : units -> units)
    (limit chain : query) (keys : list string)
    (get : string -> Await (option CachedTokenRecord))
    (found : list (option CachedTokenRecord)) :
  get_all get keys = Resolves found ->
  let answer :=
    Trending.get_trending_tokens toLowerCase limit chain (Resolves keys) get in
  (once chain ->
   exists tokens rest,
     answer
     = Status200 {| l_total := length (tokens ++ rest);
                    l_returned := length tokens;
                    l_chain := chain_or_all chain;
                    l_tokens := tokens |}
     /\ tokens ++ rest ≡ₚ candidates toLowerCase chain found
     /\ descending (tokens ++ rest))
  /\ (~ once chain ->
      (omap id found <> [] ->
       answer = Status500 "Failed to fetch trending tokens")
      /\ (omap id found = [] ->
          answer = Status200 {| l_total := 0; l_returned := 0;
                                l_chain := chain; l_tokens := [] |})).
Proof.
  intros Hget answer. split.
  - intros Honce. unfold answer.
    rewrite (ranked_split toLowerCase limit chain keys get found Hget Honce).
    destruct (Array_sort_descending (candidates toLowerCase chain found))
      as [Hdesc Hperm].
    do 2 eexists. split; [reflexivity|].
    rewrite take_drop. done.
  - intros Hno. unfold answer, Trending.get_trending_tokens. rewrite Hget.
    destruct (filtered_not_once toLowerCase chain (omap id found) Hno)
      as [Htruthy Hfilter].
    rewrite Htruthy, Hfilter. unfold chain_or_all. rewrite Htruthy.
    destruct (omap id found) as [|t l]; split; try done.
    intros _. cbn [Array_sort fold_left length].
    now destruct (ToIntegerOrInfinity _) as [[| |]| |].
Qed.

Lemma tied_app q l1 l2 : tied q (l1 ++ l2) = tied q l1 ++ tied q l2.
Proof. apply List.filter_app. Qed.

Lemma tied_below q l :
  Forall (fun t => (score_value t < q)%Q) l -> tied q l = [].
Proof.
  induction 1 as [|t l Ht _ IH]; simpl; [done|].
  destruct (Qeq_bool (score_value t) q) eqn:E; [|exact IH].
  apply Qeq_bool_iff in E. lra.
Qed.

(** [sort] puts a record after the records of the same score that are
    already placed. *)
Lemma insert_sorted_tied q x l :
  descending l ->
  tied q (insert_sorted by_score_descending x l) = tied q l ++ tied q [x].
Proof.
  unfold descending. induction l as [|y l IH]; intros Hl; [done|].
  apply StronglySorted_inv in Hl as [Hl Hy]. cbn [insert_sorted].
  destruct (positive (by_score_descending y x)) eqn:E.
  - apply comparator_positive in E.
    change (x :: y :: l) with ([x] ++ (y :: l)). rewrite tied_app.
    destruct (Qeq_bool (score_value x) q) eqn:Ex.
    + apply Qeq_bool_iff in Ex.
      rewrite (tied_below q (y :: l)); [now rewrite app_nil_r|].
      constructor; [lra|].
      eapply Forall_impl; [exact Hy|]. simpl. intros z Hz. lra.
    + unfold tied at 1 4. simpl. rewrite Ex. now rewrite app_nil_r.
  - change (y :: insert_sorted by_score_descending x l)
      with ([y] ++ insert_sorted by_score_descending x l).
    change (y :: l) with ([y] ++ l).
    rewrite !tied_app, IH by done. now rewrite app_assoc.
Qed.

Lemma sort_from_tied q l : forall acc,
  descending acc ->
  tied q (fold_left (fun sorted x => insert_sorted by_score_descending x sorted)
            l acc)
  = tied q acc ++ tied q l.
Proof.
  induction l as [|x l IH]; intros acc Hacc.
  - simpl. now rewrite app_nil_r.
  - cbn [fold_left]. rewrite IH by now apply insert_sorted_descending.
    rewrite insert_sorted_tied by done.
    change (x :: l) with ([x] ++ l). rewrite tied_app.
    now rewrite app_assoc.
Qed.

(** X17. The ranking of [GET /trending-tokens] is stable: when the chain is
    asked for at most once, among the found records of the chain asked
    for, those with the same score come in the
    order in which their keys were listed, in the returned tokens followed
    by the ones left out. *)
Theorem ties_keep_the_listing_order (toLowerCase : units -> units)
    (limit chain : query) (keys : list string)
    (get : string -> Await (option CachedTokenRecord))
    (found : list (option CachedTokenRecord)) :
  get_all get keys = Resolves found ->
  once chain ->
  exists tokens rest,
    Trending.get_trending_tokens toLowerCase limit chain (Resolves keys) get
    = Status200 {| l_total := length (tokens ++ rest);
                   l_returned := length tokens;
                   l_chain := chain_or_all chain;
                   l_tokens := tokens |}
    /\ forall q,
         tied q (tokens ++ rest)
         = tied q (candidates toLowerCase chain found).
Proof.
  intros Hget Honce.
  rewrite (ranked_split toLowerCase limit chain keys get found Hget Honce).
  do 2 eexists. split; [reflexivity|].
  intros q. rewrite take_drop.
  apply (sort_from_tied q (candidates toLowerCase chain found) []).
  constructor.
Qed.

(** The numbers nearest to integers. *)
Lemma nearest_even_whole q k : (q == inject_Z k)%Q -> nearest_even q = k.
Proof.
  intros Hq. unfold nearest_even.
  rewrite (Qfloor_comp _ _ Hq), Qfloor_Z.
  assert (Hlt : ((q - inject_Z k ?= 1 # 2) = Lt)%Q).
  { apply Qlt_alt. rewrite Hq. unfold Qminus. now rewrite Qplus_opp_r. }
  now rewrite Hlt.
Qed.

Lemma Qred_inject_Z n : Qred (inject_Z n) = inject_Z n.
Proof.
  unfold inject_Z, Qred.
  pose proof (Z.ggcd_gcd n 1) as Hg.
  pose proof (Z.ggcd_correct_divisors n 1) as Hd.
  destruct (Z.ggcd n 1) as [g [a b]]. simpl in *.
  rewrite Z.gcd_1_r in Hg. subst g. destruct Hd as [-> Hb].
  rewrite Z.mul_1_l in Hb. subst b. now rewrite Z.mul_1_l.
Qed.

Lemma dyadic_scaled n e :
  e < 0 ->
  (dyadic (nearest_even (scaled (inject_Z n) e)) e == inject_Z n)%Q.
Proof.
  intros He. unfold dyadic, scaled.
  rewrite (proj2 (Z.ltb_lt _ _) He).
  assert (Hp : 0 < 2 ^ (- e)) by (apply Z.pow_pos_nonneg; lia).
  rewrite (nearest_even_whole _ (n * 2 ^ (- e)))
    by (rewrite inject_Z_mult; reflexivity).
  unfold Qeq. simpl. rewrite Z2Pos.id by done. lia.
Qed.

(** [round64] of an integer is a whole number or an infinity. *)
Lemma round64_whole n :
  match round64 (inject_Z n) with
  | Fin q => exists z, (q == inject_Z z)%Q
  | PInf | NInf => True
  | NaN => False
  end.
Proof.
  unfold round64. destruct (Qeq_bool _ _); [now exists 0|].
  set (e := Z.max _ _). cbv zeta.
  destruct (_ || _); [now destruct (0 <? _)|].
  destruct (decide (e < 0)) as [He|He].
  - exists n. rewrite Qred_correct. now apply dyadic_scaled.
  - eexists. rewrite Qred_correct. unfold dyadic.
    rewrite (proj2 (Z.ltb_ge _ _)) by lia. reflexivity.
Qed.

(** An integer below 2^53 in absolute value is a number. *)
Lemma round64_small n :
  n <> 0 -> Z.abs n < 2 ^ 53 -> round64 (inject_Z n) = int n.
Proof.
  intros Hn Hsmall. unfold round64.
  destruct (Qeq_bool (inject_Z n) 0) eqn:E.
  { apply Qeq_bool_iff in E. unfold Qeq in E. simpl in E. lia. }
  assert (Hm : magnitude (inject_Z n) = Z.log2 (Z.abs n)).
  { unfold magnitude. cbn [inject_Z Qnum Qden].
    change (Z.log2 1) with 0. rewrite Z.pow_0_r.
    pose proof (Z.log2_spec (Z.abs n) ltac:(lia)) as [Hlo _].
    rewrite (proj2 (Z.leb_le _ _)) by lia. lia. }
  rewrite Hm.
  pose proof (Z.log2_nonneg (Z.abs n)) as H0.
  assert (H52 : Z.log2 (Z.abs n) < 53)
    by (apply Z.log2_lt_pow2; lia).
  set (e := Z.max _ _). cbv zeta.
  assert (He : e = Z.log2 (Z.abs n) - 52) by (unfold e; lia).
  rewrite (proj2 (Z.ltb_ge 971 e)) by lia.
  rewrite (proj2 (Z.eqb_neq e 971)) by lia. cbn [orb andb].
  unfold int. f_equal. rewrite <- (Qred_inject_Z n) at 2.
  apply Qred_complete.
  destruct (decide (e < 0)) as [Hneg|Hzero]; [now apply dyadic_scaled|].
  assert (e = 0) as -> by lia.
  unfold dyadic, scaled. cbn [Z.ltb Z.compare].
  rewrite (nearest_even_whole _ n).
  - now rewrite Z.pow_0_r, Z.mul_1_r.
  - rewrite Z.pow_0_r. unfold Qdiv, Qinv, inject_Z. simpl. ring.
Qed.

(** The limit the route applies is never 0 and never NaN; it is a whole
    number or an infinity. *)
Lemma effective_limit_whole limit :
  number_truthy (effective_limit limit) = true
  /\ whole (effective_limit limit).
Proof.
  unfold effective_limit, parseInt.
  destruct (mathInt (ToString limit)) as [n|]; cbv zeta.
  - pose proof (round64_whole n) as Hw.
    destruct (round64 (inject_Z n)) as [q| | |] eqn:E; try done.
    destruct (number_truthy (Fin q)) eqn:Ht.
    + split; [done|]. destruct Hw as [z Hz]. exists z. split; [|done].
      intros ->. simpl in Ht.
      rewrite (proj2 (Qeq_bool_iff q 0)) in Ht by done. done.
    + split; [done|]. exists 100. done.
  - split; [done|]. exists 100. done.
Qed.

(** X11. The limit of [GET /trending-tokens] is never 0: it is the number
    nearest to the integer the parameter starts with, that integer itself
    when it is below 2^53 in absolute value, or 100 when the parameter
    starts with no integer or with 0; an array is read as its elements
    joined by commas.  When the chain is asked for at most once, a positive
    limit [z] returns the [z] first tokens of the ranking (all of them when
    there are fewer), and a negative limit returns all but the last [-z],
    the lowest ranked. *)
Theorem trending_limit_counts (toLowerCase : units -> units)
    (limit chain : query) (keys : list string)
    (get : string -> Await (option CachedTokenRecord))
    (found : list (option CachedTokenRecord)) :
  get_all get keys = Resolves found ->
  once chain ->
  exists total tokens,
    number_truthy (effective_limit limit) = true
    /\ whole (effective_limit limit)
    /\ (forall n, mathInt (ToString limit) = Some n ->
          n <> 0 -> Z.abs n < 2 ^ 53 -> effective_limit limit = int n)
    /\ (mathInt (ToString limit) = None
        \/ mathInt (ToString limit) = Some 0 ->
        effective_limit limit = int 100)
    /\ Trending.get_trending_tokens toLowerCase limit chain (Resolves keys)
         get
       = Status200 {| l_total := total; l_returned := length tokens;
                      l_chain := chain_or_all chain; l_tokens := tokens |}
    /\ total = length (candidates toLowerCase chain found)
    /\ Z.of_nat (length tokens)
       = kept (Z.of_nat total) (ToIntegerOrInfinity (effective_limit limit)).
Proof.
  intros Hget Honce.
  rewrite (ranked_split toLowerCase limit chain keys get found Hget Honce).
  destruct (effective_limit_whole limit) as [Htruthy Hwhole].
  destruct (Array_sort_descending (candidates toLowerCase chain found))
    as [_ Hperm].
  set (ranking := Array_sort by_score_descending _) in *.
  assert (Hlen : length ranking
                 = length (candidates toLowerCase chain found))
    by now rewrite Hperm.
  do 2 eexists.
  split; [exact Htruthy|]. split; [exact Hwhole|].
  split; [|split; [|split; [reflexivity|split]]].
  - intros n Hn Hne Hsmall. unfold effective_limit, parseInt. rewrite Hn.
    rewrite (round64_small n Hne Hsmall). cbn [int number_truthy].
    destruct (Qeq_bool (inject_Z n) 0) eqn:E; [|done].
    apply Qeq_bool_iff in E. unfold Qeq in E. simpl in E. lia.
  - unfold effective_limit, parseInt. now intros [-> | ->].
  - rewrite take_drop. exact Hlen.
  - rewrite take_drop, length_take, Hlen.
    unfold kept, relative_index.
    destruct (ToIntegerOrInfinity _) as [z| |]; [|lia|lia].
    destruct (z <? 0) eqn:E; [apply Z.ltb_lt in E|apply Z.ltb_ge in E]; lia.
Qed.

(** *** Parameters given once *)

Ltac each_ascii c :=
  destruct c as [[] [] [] [] [] [] [] []].

Lemma is_whitespace_units c :
  Trending.is_whitespace (Z.of_nat (nat_of_ascii c)) = JS.is_whitespace c.
Proof. each_ascii c; reflexivity. Qed.

Lemma trim_start_units s :
  units_of (JS.trim_start s) = Trending.trim_start (units_of s).
Proof.
  induction s as [|c s IH]; [done|]. simpl.
  rewrite is_whitespace_units. now destruct (JS.is_whitespace c).
Qed.

Lemma leading_digits_units radix s : forall acc,
  JS.leading_digits radix s acc
  = Trending.leading_digits radix (units_of s) acc.
Proof.
  induction s as [|c s IH]; intros acc; [done|]. simpl.
  change (JS.digit_value c)
    with (Trending.digit_value (Z.of_nat (nat_of_ascii c))).
  destruct (Trending.digit_value _) as [d|]; [|done].
  destruct (d <? radix); [apply IH|done].
Qed.

Lemma sign_units {A} (s : string) (minus plus : string -> A) (other : A) :
  match s with
  | String "-" rest => minus rest
  | String "+" rest => plus rest
  | _ => other
  end
  = match s with
    | String c rest =>
        if Z.of_nat (nat_of_ascii c) =? 45 then minus rest
        else if Z.of_nat (nat_of_ascii c) =? 43 then plus rest
        else other
    | EmptyString => other
    end.
Proof. destruct s as [|c rest]; [done|]. each_ascii c; reflexivity. Qed.

Lemma prefix_units {A} (s : string) (hex : string -> A) (other : A) :
  match s with
  | String "0" (String "x" rest) | String "0" (String "X" rest) => hex rest
  | _ => other
  end
  = match s with
    | String c (String d rest) =>
        if (Z.of_nat (nat_of_ascii c) =? 48)
           && ((Z.of_nat (nat_of_ascii d) =? 120)
               || (Z.of_nat (nat_of_ascii d) =? 88))
        then hex rest else other
    | _ => other
    end.
Proof.
  destruct s as [|c [|d rest]]; [done| |].
  - each_ascii c; reflexivity.
  - each_ascii c; try reflexivity. each_ascii d; reflexivity.
Qed.

(** On a string of code units below 256 the two readings of [parseInt]
    agree. *)
Lemma parseInt_units s :
  JS.parseInt (Some s) = Trending.parseInt (units_of s).
Proof.
  unfold JS.parseInt, Trending.parseInt, mathInt.
  rewrite <- trim_start_units.
  rewrite (sign_units (JS.trim_start s) (fun rest => (-1, rest))
             (fun rest => (1, rest)) (1, JS.trim_start s)).
  destruct (JS.trim_start s) as [|c rest]; [done|]. cbn [units_of].
  assert (Hdigits : forall sign t,
    (let '(radix, t0) :=
       match t with
       | String "0" (String "x" rest0) | String "0" (String "X" rest0) =>
           (16, rest0)
       | _ => (10, t)
       end in
     match JS.leading_digits radix t0 None with
     | Some n => round64 (inject_Z (sign * n))
     | None => NaN
     end)
    = match
        (let '(radix, t0) :=
           match units_of t with
           | u :: v :: rest0 =>
               if (u =? 48) && ((v =? 120) || (v =? 88))
               then (16, rest0) else (10, units_of t)
           | _ => (10, units_of t)
           end in
         match Trending.leading_digits radix t0 None with
         | Some n => Some (sign * n)
         | None => None
         end)
      with
      | Some n => round64 (inject_Z n)
      | None => NaN
      end).
  { intros sign t.
    rewrite (prefix_units t (fun rest0 => (16, rest0)) (10, t)).
    destruct t as [|a [|b rest0]]; cbn [units_of];
      try (destruct (_ && _));
      rewrite leading_digits_units; cbn [units_of];
      now destruct (Trending.leading_digits _ _ _). }
  destruct (Z.of_nat (nat_of_ascii c) =? 45); [apply Hdigits|].
  destruct (Z.of_nat (nat_of_ascii c) =? 43); [apply Hdigits|].
  apply (Hdigits 1 (String c rest)).
Qed.

Lemma lower_units c :
  Z.of_nat (nat_of_ascii (lower c))
  = (let u := Z.of_nat (nat_of_ascii c) in
     if (65 <=? u) && (u <=? 90) || (192 <=? u) && (u <=? 214)
        || (216 <=? u) && (u <=? 222)
     then u + 32 else u).
Proof. each_ascii c; reflexivity. Qed.

Lemma toLowerCase_units s :
  units_of (JS.toLowerCase s) = latin_lower (units_of s).
Proof.
  induction s as [|c s IH]; [done|]. simpl. now rewrite IH, lower_units.
Qed.

Lemma units_of_injective s t : units_of s = units_of t -> s = t.
Proof.
  revert t. induction s as [|c s IH]; intros [|d t] Heq; try done.
  simpl in Heq. injection Heq as Hc Hs.
  apply Nat2Z.inj in Hc.
  rewrite <- (ascii_nat_embedding c), <- (ascii_nat_embedding d), Hc.
  now rewrite (IH t Hs).
Qed.

(** When each parameter is given at most once, as a string of code units
    below 256, the route is the route of [Routes]. *)
Lemma parameters_given_once limit chain keys get :
  Trending.get_trending_tokens latin_lower (of_parameter limit)
    (of_parameter chain) keys get
  = match Routes.get_trending_tokens limit chain keys get with
    | {| body := TrendingBody total returned name tokens |} =>
        Status200 {| l_total := total; l_returned := returned;
                     l_chain := QString (units_of name);
                     l_tokens := tokens |}
    | {| body := ErrorBody error |} => Status500 error
    | _ => Status500 ""
    end.
Proof.
  unfold Trending.get_trending_tokens, Routes.get_trending_tokens.
  assert (Hlimit : effective_limit (of_parameter limit)
                   = (let parsed := JS.parseInt limit in
                      if number_truthy parsed then parsed else int 100)).
  { unfold effective_limit. destruct limit as [s|]; [|reflexivity].
    cbn [of_parameter ToString]. now rewrite parseInt_units. }
  rewrite Hlimit.
  destruct keys as [keys|err]; [|done].
  destruct (get_all get keys) as [found|err]; [|done].
  destruct chain as [[|c rest]|]; try done.
  cbn [of_parameter units_of query_truthy].
  change (Z.of_nat (nat_of_ascii c) :: units_of rest)
    with (units_of (String c rest)).
  rewrite Array_filter_string.
  rewrite (list_filter_iff _
             (fun t => JS.toLowerCase (c_chainName t)
                       = JS.toLowerCase (String c rest))).
  - reflexivity.
  - intros t. rewrite <- !toLowerCase_units. split.
    + apply units_of_injective.
    + now intros ->.
Qed.

End RankingProofs.

(** ** The conversion of bigints *)

Module WalletsProofs.
Import JS Routes Wallets.

Section Induction.
Variable P : value -> Prop.
Hypothesis P_scalar : forall v,
  (forall items, v <> VArray items) -> (forall props, v <> VObject props) ->
  P v.
Hypothesis P_array : forall items, Forall P items -> P (VArray items).
Hypothesis P_object : forall props,
  Forall (fun p => P p.2) props -> P (VObject props).

Lemma value_induction : forall v, P v.
Proof.
  fix IH 1. intros [| | | | | |items|props].
  1-6: apply P_scalar; discriminate.
  - apply P_array.
    induction items as [|x items IHitems]; constructor;
      [apply IH|exact IHitems].
  - apply P_object.
    induction props as [|[k x] props IHprops]; constructor;
      [apply IH|exact IHprops].
Qed.

End Induction.

Ltac scalar v Ha Ho :=
  destruct v as [| | | | | |items|props];
  first [now destruct (Ha items)|now destruct (Ho props)|done].

(** The result holds no bigint and no property named [__proto__]. *)
Lemma stringify_settles v : settled (stringifyBigInts v) = true.
Proof.
  induction v as [v Ha Ho|items IH|props IH] using value_induction.
  - scalar v Ha Ho.
  - simpl. induction IH as [|x items Hx _ IH]; simpl; [done|].
    now rewrite Hx, IH.
  - simpl. induction IH as [|[k x] props Hx _ IH]; simpl; [done|].
    destruct (String.eqb k "__proto__") eqn:E; simpl; [done|].
    simpl in Hx. now rewrite E, Hx, IH.
Qed.

Lemma settled_serializable v : settled v = true -> serializable v = true.
Proof.
  induction v as [v Ha Ho|items IH|props IH] using value_induction.
  - scalar v Ha Ho.
  - simpl. induction IH as [|x items Hx _ IH]; simpl; [done|].
    rewrite !andb_true_iff. intros [H1 H2]. auto.
  - simpl. induction IH as [|[k x] props Hx _ IH]; simpl; [done|].
    rewrite !andb_true_iff. intros [[_ H1] H2]. auto.
Qed.

(** X12. [stringifyBigInts] leaves no bigint anywhere in its result, at any
    depth of arrays and objects; so every body
    [GET /analyze-wallets/:address] sends, the error bodies included, can be
    written as JSON. *)
Theorem no_bigint_is_left :
  (forall v, serializable (stringifyBigInts v) = true)
  /\ (forall tokenAddress analysis,
        serializable (json (get_analyze_wallets tokenAddress analysis)) = true).
Proof.
  assert (H1 : forall v, serializable (stringifyBigInts v) = true)
    by (intros v; apply settled_serializable, stringify_settles).
  split; [exact H1|].
  intros tokenAddress analysis. unfold get_analyze_wallets.
  destruct (negb _); [reflexivity|].
  destruct analysis as [v|err]; [apply H1|reflexivity].
Qed.

(** X13. [stringifyBigInts] changes nothing but bigints (and properties
    named [__proto__]): a value that holds neither is returned equal, with
    every array and object rebuilt in the same order; hence converting the
    converted form of a value with no property named [__proto__] changes
    nothing. *)
Theorem other_values_are_unchanged :
  (forall v, settled v = true -> stringifyBigInts v = v)
  /\ (forall v, plain v = true ->
        stringifyBigInts (stringifyBigInts v) = stringifyBigInts v).
Proof.
  assert (Hfixed : forall v, settled v = true -> stringifyBigInts v = v).
  { intros v.
    induction v as [v Ha Ho|items IH|props IH] using value_induction.
    - scalar v Ha Ho.
    - simpl. intros Hs. f_equal.
      induction IH as [|x items Hx _ IH]; simpl in *; [done|].
      apply andb_true_iff in Hs as [H1 H2]. now rewrite Hx, IH.
    - simpl. intros Hs. f_equal.
      induction IH as [|[k x] props Hx _ IH]; simpl in *; [done|].
      apply andb_true_iff in Hs as [H1 H2].
      apply andb_true_iff in H1 as [H0 H1].
      apply negb_true_iff in H0. now rewrite H0, Hx, IH. }
  split; [exact Hfixed|].
  intros v _. apply Hfixed, stringify_settles.
Qed.

End WalletsProofs.

(** ** The debug route and the batch pipeline *)

Module DebugProofs.
Import JS Scoring Scheduler Routes Debug.

Section WithCollaborators.
Context `{Collaborators}.

(** X14. The debug route scores a token as the batch pipeline does.  For a
    token whose transaction fetch resolved with an array, and whatever the
    metadata fetch resolves with: when the route reports a score, the
    pipeline sends the cache write of a record with that score and those
    metrics; when the route answers 404, the pipeline counts the token as
    having no data; when it answers 500, the pipeline counts it as failed.
    They differ when the transaction fetch resolves with nothing: the route
    answers 500, the pipeline counts the token as having no data. *)
Theorem debug_agrees_with_the_batch (forceUpdate : bool) (t : Task)
    (transactions : list Transaction) (analysis : option TokenData)
    (now : Z) (s : State) :
  point t = AwaitMetadata (Some transactions) ->
  let resumed := resume forceUpdate t (GotMetadata analysis) now s in
  match get_debug_analyze (address (token t)) (Resolves (Some transactions))
          (Resolves analysis) with
  | DebugReport addr score raw data =>
      addr = address (token t) /\ analysis = Some data
      /\ analyzeOnChain transactions data = inr raw
      /\ score = calculateTrendingScore raw
      /\ exists s1,
           resumed
           = Some (move t (AwaitSet addr (record_of (token t) score now raw)),
                   s1)
           /\ store s1 = store s /\ counters s1 = counters s
  | DebugError status _ =>
      (status = 404
       /\ resumed = Some (finally_block t (Scheduler.count incr_noData s)))
      \/ (status = 500
          /\ exists err,
               resumed
               = Some (finally_block t (catch_block (token t) err s)))
  end
  /\ (forall t0, point t0 = AwaitMetadata None ->
        get_debug_analyze (address (token t0)) (Resolves None)
          (Resolves analysis)
        = DebugError 500 "Failed to analyze token"
        /\ resume forceUpdate t0 (GotMetadata analysis) now s
           = Some (finally_block t0 (Scheduler.count incr_noData s))).
Proof.
  intros Hp resumed. subst resumed. split.
  - unfold get_debug_analyze, resume, try_body. rewrite Hp.
    unfold validate_and_score.
    destruct transactions as [|tx txs]; [left; done|].
    destruct analysis as [a|]; [|left; done].
    destruct (analyzeOnChain (tx :: txs) a) as [err|m] eqn:Ha.
    + right. split; [done|]. now exists err.
    + split; [done|]. split; [done|]. split; [done|]. split; [done|].
      eexists. split; [reflexivity|]. now destruct (_ || _).
  - intros t0 Hp0. split; [done|].
    unfold resume, try_body. now rewrite Hp0.
Qed.

End WithCollaborators.

End DebugProofs.

(** ** The statistics by chain *)

Module StatsProofs.
Import JS Scoring Scheduler Routes Stats.

Lemma members_snoc chain tokens t :
  members chain (tokens ++ [t])
  = if String.eqb (chain_of t) chain then members chain tokens ++ [t]
    else members chain tokens.
Proof.
  unfold members. rewrite List.filter_app. simpl.
  destruct (String.eqb (chain_of t) chain); [done|apply app_nil_r].
Qed.

Lemma total_of_snoc tokens t :
  total_of (tokens ++ [t]) = (total_of tokens + score_or_zero t)%js.
Proof. unfold total_of. now rewrite fold_left_app. Qed.

(** One step of the reducer keeps the description of every chain whose name
    is not inherited. *)
Lemma tally_describes acc tokens t chain :
  inherited chain = false ->
  describes acc chain tokens ->
  describes (tally acc t) chain (tokens ++ [t]).
Proof.
  intros Hin Hd. unfold describes, tally in *. rewrite members_snoc.
  destruct (String.eqb (chain_of t) chain) eqn:E.
  - apply String.eqb_eq in E. rewrite E, Hin.
    destruct (acc !! chain) as [entry|] eqn:Hacc.
    + rewrite Hacc, lookup_insert_eq. cbn [count avgScore totalScore].
      destruct Hd as (Hne & Hc & Ht & _).
      split; [now destruct (members chain tokens)|].
      rewrite length_app, total_of_snoc, Hc, Ht. simpl.
      split; [lia|done].
    + rewrite lookup_insert_eq, lookup_insert_eq.
      cbn [count avgScore totalScore]. rewrite Hd. done.
  - apply String.eqb_neq in E.
    destruct (inherited (chain_of t)); [exact Hd|].
    destruct (acc !! chain_of t) as [entry|] eqn:Hacc.
    + rewrite Hacc. now rewrite lookup_insert_ne.
    + rewrite lookup_insert_eq. now rewrite !lookup_insert_ne.
Qed.

Lemma tally_inherited acc t chain :
  inherited chain = true -> acc !! chain = None ->
  tally acc t !! chain = None.
Proof.
  intros Hin Hacc. unfold tally.
  destruct (inherited (chain_of t)) eqn:E; [done|].
  assert (Hne : chain_of t <> chain) by congruence.
  destruct (acc !! chain_of t) as [entry|] eqn:Ht.
  - rewrite Ht. now rewrite lookup_insert_ne.
  - rewrite lookup_insert_eq. now rewrite !lookup_insert_ne.
Qed.

Lemma reduce_describes tokens :
  let distribution := fold_left tally tokens ∅ in
  (forall chain, inherited chain = false ->
     describes distribution chain tokens)
  /\ (forall chain, inherited chain = true -> distribution !! chain = None).
Proof.
  induction tokens as [|t tokens IH] using rev_ind; simpl.
  - split; [|done]. intros chain _. unfold describes. now rewrite lookup_empty.
  - rewrite fold_left_app. simpl. destruct IH as [IH1 IH2]. split.
    + intros chain Hin. now apply tally_describes, IH1.
    + intros chain Hin. now apply tally_inherited, IH2.
Qed.

(** X15. When every read resolves, [GET /stats] answers with the number of
    records found and, for every chain name that is not a property name
    every object inherits, with an entry exactly when a record has that
    chain (a record without a chain name counting for "Unknown"): the entry
    holds the number of these records, the sum of their scores and the
    sum divided by the number.  Under an inherited name (a chain called
    "constructor", say) there is never an entry. *)
Theorem stats_describe_every_chain (keys : list string)
    (get : string -> Await (option CachedTokenRecord)) (now : string)
    (found : list (option CachedTokenRecord)) :
  get_all get keys = Resolves found ->
  exists distribution,
    get_stats (Resolves keys) get now
    = StatsBody (length (omap id found)) distribution now
    /\ (forall chain, inherited chain = false ->
          describes distribution chain (omap id found))
    /\ (forall chain, inherited chain = true -> distribution !! chain = None).
Proof.
  intros Hget. unfold get_stats. rewrite Hget.
  eexists. split; [reflexivity|]. apply reduce_describes.
Qed.

End StatsProofs.

(** ** The commands of one token *)

Module ProtocolProofs.
Import JS Scoring Scheduler Protocol PipelineProofs BatchProofs BarrierProofs.

Lemma events_of_snoc p tr e :
  events_of p (tr ++ [e])
  = if Nat.eqb p (position e) then events_of p tr ++ [e] else events_of p tr.
Proof.
  unfold events_of. rewrite List.filter_app. simpl.
  destruct e; simpl; destruct (Nat.eqb p _); try reflexivity;
    apply app_nil_r.
Qed.

Lemma events_of_other p tr e :
  p <> position e -> events_of p (tr ++ [e]) = events_of p tr.
Proof.
  intros Hne. rewrite events_of_snoc.
  now destruct (Nat.eqb_spec p (position e)).
Qed.

Lemma events_of_own tr e :
  events_of (position e) (tr ++ [e]) = events_of (position e) tr ++ [e].
Proof. rewrite events_of_snoc. now rewrite Nat.eqb_refl. Qed.

Section Runs.
Context `{Collaborators}.

(** One resumption adds one event, of the task's own position, and takes
    the task to the point that goes with its events. *)
Lemma resume_at_point forceUpdate t reply now s t' s' events :
  resume forceUpdate t reply now s = Some (t', s') ->
  at_point t events ->
  exists e,
    trace s' = trace s ++ [e] /\ position e = pos t
    /\ token t' = token t /\ pos t' = pos t
    /\ at_point t' (events ++ [e]).
Proof.
  unfold resume, try_body, finally_block, at_point.
  assert (Hcatch : forall err, trace (catch_block (token t) err s) = trace s).
  { intros err. unfold catch_block. now destruct (_ <=? 5). }
  destruct (point t) eqn:Hp, reply; intros Hr Hev; simplify_eq; simpl;
    try (eexists; rewrite ?Hcatch;
         repeat (split; [reflexivity|]); exists 0%nat, None;
         split; [now intros []|reflexivity]);
    try (eexists; rewrite ?Hcatch;
         repeat (split; [reflexivity|]); exists 1%nat, None;
         split; [now intros []|reflexivity]);
    try (eexists; rewrite ?Hcatch;
         repeat (split; [reflexivity|]); exists 2%nat, None;
         split; [now intros []|reflexivity]).
  - destruct (_ && _); simplify_eq; simpl.
    + eexists. repeat (split; [reflexivity|]). exists 0%nat, None.
      split; [now intros []|reflexivity].
    + eexists. repeat (split; [reflexivity|]). reflexivity.
  - eexists. repeat (split; [reflexivity|]). reflexivity.
  - unfold validate_and_score in Hr.
    assert (Hno : exists e,
      trace (Scheduler.count incr_noData s) ++ [Settled (pos t)]
      = trace s ++ [e] /\ position e = pos t
      /\ token t = token t /\ pos t = pos t
      /\ shaped (address (token t)) (pos t) true
           (shape (address (token t)) (pos t) 2 None false ++ [e])).
    { eexists. repeat (split; [reflexivity|]). exists 2%nat, None.
      split; [now intros []|reflexivity]. }
    destruct transactions as [[|tx txs]|]; simplify_eq; try exact Hno.
    destruct analysis as [a|]; simplify_eq; try exact Hno.
    destruct (analyzeOnChain (tx :: txs) a) as [err|m];
      simplify_eq; simpl.
    + eexists. rewrite Hcatch. repeat (split; [reflexivity|]).
      exists 2%nat, None. split; [now intros []|reflexivity].
    + eexists. split; [destruct (_ || _); reflexivity|].
      repeat (split; [reflexivity|]). reflexivity.
  - destruct Hev as [-> ->]. eexists. rewrite ?Hcatch.
    repeat (split; [reflexivity|]). exists 2%nat, (Some value).
    split; [lia|reflexivity].
  - destruct Hev as [-> ->]. eexists.
    repeat (split; [reflexivity|]). exists 2%nat, (Some value).
    split; [lia|reflexivity].
Qed.

Lemma await_all_in_flight tokens forceUpdate lo schedule pool s :
  chunk_in_flight tokens lo pool s ->
  let r := await_all forceUpdate schedule pool s in
  chunk_in_flight tokens lo r.1.2 r.2 /\ length r.1.2 = length pool.
Proof.
  intros Hstart.
  apply (await_all_inv forceUpdate
    (fun pool0 s0 => chunk_in_flight tokens lo pool0 s0
                     /\ length pool0 = length pool));
    [|done].
  intros pool0 s0 j t reply now t' s' Hj Hr [(Hlo & Hhi & Hpool) Hlen].
  destruct (Hpool j t Hj) as (Hpos & Htok & Hat).
  destruct (resume_at_point _ _ _ _ _ _ _ _ Hr Hat)
    as (e & Htr & He & Htok' & Hpos' & Hat').
  assert (Hjl : (j < length pool0)%nat) by (eapply lookup_lt_Some, Hj).
  split; [|now rewrite length_insert].
  split; [|split].
  - intros p token Hp Hptok. rewrite Htr, events_of_other by lia.
    now apply Hlo.
  - intros p Hp. rewrite length_insert in Hp.
    rewrite Htr, events_of_other by lia. now apply Hhi.
  - intros k u Hk. destruct (decide (j = k)) as [->|Hne].
    + rewrite list_lookup_insert_eq in Hk by done. simplify_eq.
      split; [congruence|]. split; [congruence|].
      rewrite Htr, Hpos', <- He, events_of_own, He. exact Hat'.
    + rewrite list_lookup_insert_ne in Hk by done.
      destruct (Hpool k u Hk) as (Hpk & Htk & Hak).
      split; [done|]. split; [done|].
      rewrite Htr, events_of_other by lia. exact Hak.
Qed.

Lemma start_batch_events batch : forall first s,
  (forall p, (first <= p)%nat -> events_of p (trace s) = []) ->
  let r := start_batch first batch s in
  (forall p, (p < first)%nat ->
     events_of p (trace r.2) = events_of p (trace s))
  /\ (forall p, (first + length batch <= p)%nat ->
        events_of p (trace r.2) = [])
  /\ (forall j t, r.1 !! j = Some t ->
        pos t = (first + j)%nat /\ batch !! j = Some (token t)
        /\ at_point t (events_of (pos t) (trace r.2))).
Proof.
  induction batch as [|token rest IH]; intros first s Hfree; simpl.
  - split; [done|]. split; [intros p Hp; apply Hfree; lia|].
    intros j t Hj. now rewrite lookup_nil in Hj.
  - set (s1 := emit (Called first (CallGet (address token)))
                 (emit (Started first) s)).
    assert (Htr : trace s1
                  = (trace s ++ [Started first])
                    ++ [Called first (CallGet (address token))])
      by reflexivity.
    assert (Hother : forall p, p <> first ->
              events_of p (trace s1) = events_of p (trace s)).
    { intros p Hp. rewrite Htr. now rewrite !events_of_other. }
    assert (Hown : events_of first (trace s1)
                   = [Started first; Called first (CallGet (address token))]).
    { rewrite Htr.
      rewrite (events_of_own _ (Called first (CallGet (address token)))).
      rewrite (events_of_own _ (Started first)).
      cbn [position]. now rewrite Hfree by lia. }
    specialize (IH (S first) s1).
    destruct (start_batch (S first) rest s1) as [pool s']. simpl in *.
    destruct IH as (Hbefore & Hafter & Hpool).
    { intros p Hp. rewrite Hother by lia. apply Hfree. lia. }
    split; [|split].
    + intros p Hp. rewrite Hbefore by lia. apply Hother. lia.
    + intros p Hp. apply Hafter. lia.
    + intros [|j] t Hj; simpl in Hj.
      * simplify_eq. simpl. split; [lia|]. split; [done|].
        unfold at_point. simpl. rewrite Hbefore by lia. exact Hown.
      * destruct (Hpool j t Hj) as (Hp & Ht & Hat).
        split; [lia|]. split; [done|exact Hat].
Qed.

Lemma slice_lookup {A} (l : list A) i c j x :
  0 <= i ->
  Array_slice l (Int i) (Int (i + c)) !! j = Some x ->
  l !! (Z.to_nat i + j)%nat = Some x.
Proof.
  intros Hi. unfold Array_slice, relative_index.
  destruct (i <? 0) eqn:E; [apply Z.ltb_lt in E; lia|].
  intros Hj. apply lookup_take_Some in Hj as [Hj _].
  rewrite lookup_drop in Hj.
  destruct (decide (i <= Z.of_nat (length l))) as [Hle|Hgt].
  - now rewrite Z.min_l in Hj by lia.
  - rewrite Z.min_r in Hj by lia. apply lookup_lt_Some in Hj. lia.
Qed.

Lemma in_flight_lifecycles tokens lo pool s :
  (lo + length pool <= length tokens)%nat ->
  chunk_in_flight tokens lo pool s -> lifecycles tokens (trace s).
Proof.
  intros Hlen (Hlo & Hhi & Hpool) p.
  destruct (tokens !! p) as [tok|] eqn:Hp.
  - destruct (decide (p < lo)%nat) as [Hlt|Hge].
    { right. exists true. now apply Hlo. }
    destruct (decide (lo + length pool <= p)%nat) as [Hout|Hin].
    { left. now apply Hhi. }
    assert (Hj : (p - lo < length pool)%nat) by lia.
    apply lookup_lt_is_Some_2 in Hj as [t Ht].
    destruct (Hpool _ _ Ht) as (Hpos & Htok & Hat).
    replace (lo + (p - lo))%nat with p in * by lia.
    assert (token t = tok) by congruence. subst tok.
    unfold at_point in Hat. rewrite Hpos in Hat. right.
    destruct (point t).
    + exists false, 0%nat, None. split; [now intros []|done].
    + exists false, 1%nat, None. split; [now intros []|done].
    + exists false, 2%nat, None. split; [now intros []|done].
    + destruct Hat as [-> Hat]. exists false, 2%nat, (Some value).
      split; [lia|done].
    + exists true. done.
    + done.
  - apply Hhi. apply lookup_ge_None in Hp. lia.
Qed.

Lemma batches_lifecycles (c : Z) tokens forceUpdate :
  1 <= c ->
  forall fuel i schedule s,
    0 <= i ->
    chunk_in_flight tokens (Z.to_nat (Z.min i (Z.of_nat (length tokens)))) [] s ->
    lifecycles tokens
      (trace (batches_int fuel tokens forceUpdate c i schedule s).2).
Proof.
  intros Hc. induction fuel as [|fuel IH]; intros i schedule s Hi Hhead;
    simpl.
  { eapply in_flight_lifecycles; [|exact Hhead]. simpl. lia. }
  destruct (i <? Z.of_nat (length tokens)) eqn:E.
  - apply Z.ltb_lt in E.
    pose proof (slice_length tokens i c (conj Hi E) Hc) as Hlen.
    pose proof (fun j x => slice_lookup tokens i c j x Hi) as Hslice.
    set (batch := Array_slice tokens (Int i) (Int (i + c))) in *.
    destruct (i <? 0) eqn:E0; [apply Z.ltb_lt in E0; lia|].
    rewrite Z.min_l in * by lia.
    set (lo := Z.to_nat i) in *.
    destruct Hhead as (Hlo & Hhi & _). simpl in Hhi.
    pose proof (start_batch_events batch lo s) as Hs.
    destruct (start_batch lo batch s) as [pool s1] eqn:Es. simpl in Hs.
    destruct Hs as (Hbefore & Hafter & Htasks).
    { intros p Hp. apply Hhi. lia. }
    assert (Hpl : length pool = length batch).
    { pose proof (start_batch_spec batch lo s) as Hsp. rewrite Es in Hsp.
      now destruct Hsp as (Hsl & _). }
    assert (Hflight : chunk_in_flight tokens lo pool s1).
    { split; [|split].
      - intros p token Hp Htok. rewrite Hbefore by done. now apply Hlo.
      - intros p Hp. apply Hafter. lia.
      - intros j t Hj. destruct (Htasks j t Hj) as (Hp & Hb & Hat).
        split; [done|]. split; [now apply Hslice|exact Hat]. }
    pose proof (await_all_in_flight tokens forceUpdate lo schedule pool s1
                  Hflight) as Ha.
    destruct (await_all forceUpdate schedule pool s1)
      as [[schedule' pool'] s2]. simpl in Ha.
    destruct Ha as [Hflight2 Hlen2].
    assert (Hfit : (lo + length pool' <= length tokens)%nat) by lia.
    destruct (Promise_all pool') eqn:EP;
      try (simpl; eapply in_flight_lifecycles; [exact Hfit|exact Hflight2]).
    apply IH; [lia|].
    replace (Z.to_nat (Z.min (i + c) (Z.of_nat (length tokens))))
      with (lo + length pool')%nat by lia.
    destruct Hflight2 as (Hlo2 & Hhi2 & Hpool2).
    split; [|split].
    + intros p tok Hp Htok. simpl.
      destruct (decide (p < lo)%nat) as [Hlt|Hge]; [now apply Hlo2|].
      assert (Hj : (p - lo < length pool')%nat) by lia.
      apply lookup_lt_is_Some_2 in Hj as [t Ht].
      destruct (Hpool2 _ _ Ht) as (Hpos & Htk & Hat).
      replace (lo + (p - lo))%nat with p in * by lia.
      assert (token t = tok) by congruence. subst tok.
      unfold at_point in Hat.
      rewrite (all_fulfilled_lookup pool' EP _ _ Ht), Hpos in Hat.
      exact Hat.
    + intros p Hp. simpl in *. apply Hhi2. lia.
    + intros j t Hj. now rewrite lookup_nil in Hj.
  - apply Z.ltb_ge in E. simpl.
    eapply (in_flight_lifecycles tokens _ [] s); [|exact Hhead]. simpl. lia.
Qed.

(** X16. With an integer chunk size of at least 1, in every run and at every
    moment of it, the commands of each token follow the pipeline: the token
    at a position starts and sends [client.get] for its address, then at
    most once each and in this order the transaction fetch, the metadata
    fetch and, only after both, [client.set], all for its own address; it
    settles at most once and nothing of it follows its settling.  A position
    beyond the list has no event. *)
Theorem commands_follow_the_pipeline (fuel : nat) (schedule : list Entry)
    (db : gmap string CachedTokenRecord) (tokens : list TokenAddress)
    (forceUpdate : bool) (c : Z) :
  1 <= c ->
  lifecycles tokens
    (trace (analyzeAndStoreTokens fuel schedule db tokens forceUpdate
              (int c)).2).
Proof.
  intros Hc. rewrite run_integer.
  apply batches_lifecycles; [exact Hc|lia|].
  rewrite Z.min_l by lia. split; [|split].
  - intros p token Hp. simpl in Hp. lia.
  - intros p _. reflexivity.
  - intros j t Hj. now rewrite lookup_nil in Hj.
Qed.

End Runs.

End ProtocolProofs.

(** ** The hourly job *)

Module HourlyProofs.
Import JS Scoring Scheduler Routes Writes Maintenance Hourly.
Import PipelineProofs BatchProofs FrameProofs MaintenanceProofs.

Section Job.
Context `{Collaborators}.

(** A run keeps every key, and keeps the records under their own address. *)
Lemma run_keeps_keys fuel schedule db tokens forceUpdate concurrency k :
  is_Some (db !! k) ->
  is_Some (store (analyzeAndStoreTokens fuel schedule db tokens forceUpdate
                    concurrency).2 !! k).
Proof.
  intros Hk.
  destruct (run_provenance fuel schedule db tokens forceUpdate concurrency)
    as [_ Hdom].
  apply elem_of_dom, Hdom, elem_of_dom, Hk.
Qed.

Lemma run_self_keyed fuel schedule db tokens forceUpdate concurrency :
  self_keyed db ->
  self_keyed (store (analyzeAndStoreTokens fuel schedule db tokens forceUpdate
                       concurrency).2).
Proof.
  intros Hself k value Hk.
  destruct (run_provenance fuel schedule db tokens forceUpdate concurrency)
    as [Hfrom _].
  destruct (Hfrom _ _ Hk) as [Hdb|Hw]; [eauto|].
  destruct Hw as (token & txs & a & m & now & _ & _ & _ & -> & ->).
  reflexivity.
Qed.

(** What each of the two jobs does to the store. *)
Lemma addNewTokens_store fuel schedule db fetch exists_ days maxNewTokens :
  let after :=
    store_after db
      (addNewTokens fuel schedule db fetch exists_ days maxNewTokens) in
  db ⊆ after /\ (self_keyed db -> self_keyed after).
Proof.
  unfold addNewTokens.
  destruct (fetch _) as [allTokens|err]; [|done].
  destruct (filter_new _ _ _) as [newTokens|err]; [|done].
  destruct (Nat.eqb _ 0); [done|]. simpl.
  split; [apply run_keeps_db|apply run_self_keyed].
Qed.

Lemma updateAllTokenScores_store fuel schedule db keys get concurrency :
  let after :=
    store_after db
      (updateAllTokenScores fuel schedule db keys get concurrency) in
  (forall k, is_Some (db !! k) -> is_Some (after !! k))
  /\ (self_keyed db -> self_keyed after).
Proof.
  unfold updateAllTokenScores.
  destruct keys as [keys|err]; [|done].
  destruct (Nat.eqb _ 0); [done|].
  destruct (get_all get keys) as [found|err]; [|done]. simpl.
  split; [intros k; apply run_keeps_keys|apply run_self_keyed].
Qed.

(** The store the second step leaves is the store after its job. *)
Lemma update_step_store fuel schedule db keys get :
  (update_step fuel schedule db keys get).2
  = store_after db
      (updateAllTokenScores fuel schedule db keys get (Some (int 10))).
Proof.
  unfold update_step.
  destruct (updateAllTokenScores _ _ _ _ _ _) as [|[[summary|err|] s]|err];
    reflexivity.
Qed.

(** The store the hourly job leaves: the one after the first step if the
    second was not started, the one after the second otherwise. *)
Lemma hourly_refresh_store fuel1 schedule1 fuel2 schedule2 db fetch exists_
    keys get :
  let mid :=
    store_after db
      (addNewTokens fuel1 schedule1 db fetch exists_ (Some (int 1))
         (Some (int 300))) in
  let after :=
    (hourly_refresh fuel1 schedule1 fuel2 schedule2 db fetch exists_ keys
       get).2 in
  after = mid
  \/ after
     = store_after mid
         (updateAllTokenScores fuel2 schedule2 mid keys get (Some (int 10))).
Proof.
  unfold hourly_refresh.
  destruct (addNewTokens _ _ _ _ _ _ _) as [|[[summary|err|] s]|err]; simpl;
    auto; right; apply update_step_store.
Qed.

(** X18. The hourly job never removes a key and keeps every record under its
    own address, whatever its collaborators answer and however far it gets.
    When the discovery (or a [client.exists]) rejects, it ends in its
    [catch] block with the store untouched: that hour's full update is not
    run.  When the reads of the second step answer from the store the first
    step left, every record the store held before the hour is afterwards the
    same record or the record of the token it converts to, scored afresh. *)
Theorem hourly_refresh_keeps_the_store (fuel1 : nat) (schedule1 : list Entry)
    (fuel2 : nat) (schedule2 : list Entry)
    (db : gmap string CachedTokenRecord)
    (fetch : number -> Await (list TokenAddress))
    (exists_ : string -> Await Z) (keys : list string)
    (get : string -> Await (option CachedTokenRecord)) :
  let newTokensResult :=
    addNewTokens fuel1 schedule1 db fetch exists_ (Some (int 1))
      (Some (int 300)) in
  let hour :=
    hourly_refresh fuel1 schedule1 fuel2 schedule2 db fetch exists_
      (Resolves keys) get in
  (forall k, is_Some (db !! k) -> is_Some (hour.2 !! k))
  /\ (self_keyed db -> self_keyed hour.2)
  /\ (forall err, newTokensResult = Failed err ->
        hour = (HourFailed err, db))
  /\ (self_keyed db ->
      (forall k, get k = Resolves (store_after db newTokensResult !! k)) ->
      forall k old, db !! k = Some old ->
        exists new, hour.2 !! k = Some new /\ (new = old \/ rescored old new)).
Proof.
  intros newTokensResult hour.
  pose proof (addNewTokens_store fuel1 schedule1 db fetch exists_
                (Some (int 1)) (Some (int 300))) as [Hsub Hself1].
  fold newTokensResult in Hsub, Hself1.
  pose proof (updateAllTokenScores_store fuel2 schedule2
                (store_after db newTokensResult) (Resolves keys) get
                (Some (int 10))) as [Hkeys2 Hself2].
  pose proof (hourly_refresh_store fuel1 schedule1 fuel2 schedule2 db fetch
                exists_ (Resolves keys) get) as Hstore.
  fold newTokensResult hour in Hstore. cbv zeta in Hstore.
  split; [|split; [|split]].
  - intros k [old Hk].
    assert (Hmid : is_Some (store_after db newTokensResult !! k))
      by (exists old; eapply lookup_weaken; eassumption).
    destruct Hstore as [-> | ->]; [exact Hmid|now apply Hkeys2].
  - intros Hself. destruct Hstore as [-> | ->]; auto.
  - intros err Herr. unfold hour, hourly_refresh.
    fold newTokensResult. now rewrite Herr.
  - intros Hself Hget k old Hk.
    assert (Hmid : store_after db newTokensResult !! k = Some old)
      by (eapply lookup_weaken; eassumption).
    destruct Hstore as [-> | ->]; [eauto|].
    set (mid := store_after db newTokensResult) in *.
    unfold updateAllTokenScores.
    destruct (Nat.eqb (length keys) 0); [eauto|].
    rewrite (get_all_reads get (fun k => mid !! k)) by done.
    set (tokens := map token_of_record _).
    destruct (run_provenance fuel2 schedule2 mid tokens true
                (default (int 10) (Some (int 10)))) as [Hfrom Hdom].
    cbn [store_after].
    set (run := analyzeAndStoreTokens _ _ _ _ _ _) in *.
    assert (Hin : is_Some (store run.2 !! k)).
    { apply elem_of_dom, Hdom, elem_of_dom. eauto. }
    destruct Hin as [new Hnew]. exists new. split; [exact Hnew|].
    destruct (Hfrom _ _ Hnew) as [Hdb|Hw]; [left; congruence|]. right.
    destruct Hw as (token & txs & a & m & now & Ht & Hne & Ha & -> & ->).
    destruct (converted_tokens mid keys token (Hself1 Hself) Ht)
      as (old' & Ho' & ->).
    assert (old' = old) by congruence. subst old'.
    exists txs, a, m, now. done.
Qed.

End Job.

End HourlyProofs.

(** ** The properties at concrete inputs *)

Module MoreExamples.
Import JS Scoring Scheduler Routes Demo Writes Maintenance Trending Ranking
  Wallets Debug Fixtures ScoringOrder.
Import ScoringExtras FrameProofs MaintenanceProofs RankingProofs WalletsProofs
  DebugProofs StatsProofs.


Lemma ratio_and_price_saturate_witness :
  (le (int 100) (int 250) \/ int 250 = PInf)
  /\ calculateTrendingScore
       (mkMetrics None None None None (Some (int 250)) None)
     = calculateTrendingScore
         (mkMetrics None None None None (Some (int 100)) None)
  /\ (le NInf (int (-100)) \/ NInf = NInf)
  /\ calculateTrendingScore
       (mkMetrics None None None None None (Some NInf))
     = calculateTrendingScore
         (mkMetrics None None None None None (Some (int (-100)))).
Proof.
  assert (H1 : le (int 100) (int 250) \/ int 250 = PInf)
    by (left; vm_compute; discriminate).
  assert (H2 : le NInf (int (-100)) \/ NInf = NInf) by (right; reflexivity).
  split; [exact H1|]. split.
  - exact (proj1 (ratio_and_price_saturate None None None None) _ None H1).
  - split; [exact H2|].
    exact (proj2 (ratio_and_price_saturate None None None None) None _ H2).
Defined.

Lemma run_writes_only_listed_tokens_witness :
  let after :=
    store (analyzeAndStoreTokens 5 (succeeds 0) one_record [base_token] false
             (int 1)).2 in
  after !! "0xbb"%string = Some base_record
  /\ (one_record !! "0xbb"%string = Some base_record
      \/ written_for [base_token] "0xbb" base_record)
  /\ is_Some (one_record !! "0xaa"%string)
  /\ is_Some (after !! "0xaa"%string).
Proof.
  intros after.
  assert (H1 : after !! "0xbb"%string = Some base_record)
    by (vm_compute; reflexivity).
  assert (H2 : is_Some (one_record !! "0xaa"%string))
    by (vm_compute; eauto).
  destruct (run_writes_only_listed_tokens 5 (succeeds 0) one_record
              [base_token] false (int 1)) as [Hfrom Hkeep].
  split; [exact H1|]. split; [exact (Hfrom _ _ H1)|].
  split; [exact H2|exact (Hkeep _ H2)].
Defined.

Lemma existing_records_are_kept_witness :
  one_record !! "0xaa"%string = Some cached
  /\ store (analyzeAndStoreTokens 5 (succeeds 0) one_record [on_base] false
              (int 1)).2 !! "0xaa"%string = Some cached.
Proof.
  assert (H1 : one_record !! "0xaa"%string = Some cached)
    by (vm_compute; reflexivity).
  split; [exact H1|].
  exact (existing_records_are_kept 5 (succeeds 0) one_record [on_base]
           (int 1) _ _ H1).
Defined.

Lemma one_record_self_keyed : self_keyed one_record.
Proof.
  intros key value Hk. unfold one_record in Hk.
  apply lookup_singleton_Some in Hk as [<- <-]. reflexivity.
Defined.

Lemma one_record_keys k :
  k ∈ ["0xaa"%string] <-> is_Some (one_record !! k).
Proof.
  unfold one_record. rewrite list_elem_of_singleton.
  rewrite lookup_singleton_is_Some. split; congruence.
Defined.

Lemma full_update_keeps_the_keys_witness :
  self_keyed one_record
  /\ match updateAllTokenScores 5 (succeeds 0) one_record
             (Resolves ["0xaa"%string]) (reads one_record) None with
     | Analyzed run =>
         (forall k, is_Some (store run.2 !! k) <-> is_Some (one_record !! k))
         /\ self_keyed (store run.2)
         /\ (forall k old new,
               one_record !! k = Some old -> store run.2 !! k = Some new ->
               new = old \/ rescored old new)
         /\ (forall c summary,
               int 10 = int c -> run.1 = Completed summary ->
               r_skipped summary = 0
               /\ r_updated summary + r_noData summary + r_failed summary = 1)
     | _ => False
     end.
Proof.
  split; [exact one_record_self_keyed|].
  exact (full_update_keeps_the_keys 5 (succeeds 0) one_record ["0xaa"%string]
           (reads one_record) None one_record_self_keyed one_record_keys
           (fun k => eq_refl)).
Defined.

Lemma addNewTokens_adds_only_new_witness :
  discovers four_tokens (default (int 1) None) = Resolves four_tokens
  /\ match addNewTokens 5 (succeeds 0) one_record (discovers four_tokens)
             (answers one_record) None (Some (int 1)) with
     | Analyzed run =>
         store run.2 !! "0xaa"%string = Some cached
         /\ (forall summary, run.1 = Completed summary ->
               accounted summary <= 3 /\ accounted summary <= 1)
     | _ => False
     end.
Proof.
  assert (H1 : discovers four_tokens (default (int 1) None)
               = Resolves four_tokens) by reflexivity.
  split; [exact H1|].
  pose proof (addNewTokens_adds_only_new 5 (succeeds 0) one_record
                (discovers four_tokens) (answers one_record) None
                (Some (int 1)) four_tokens H1 (fun k => eq_refl)) as Hadd.
  destruct (addNewTokens 5 (succeeds 0) one_record (discovers four_tokens)
              (answers one_record) None (Some (int 1))) as [|run|err];
    [exact (is_Some_None (Hadd (token_on 1 "Ethereum" "0xbb")
                            ltac:(vm_compute; set_solver)))
    | |exact Hadd].
  destruct Hadd as (Hkeep & _ & Hcount).
  split; [apply Hkeep; vm_compute; reflexivity|].
  intros summary Hdone. destruct (Hcount summary Hdone) as [Hnew Hmax].
  split; [exact Hnew|]. apply (Hmax 1); [vm_compute; reflexivity|lia].
Defined.

Lemma trending_tokens_are_the_top_witness :
  get_all (reads two_records) ["0xaa"; "0xbb"; "0xcc"]%string
  = Resolves [two_records !! "0xaa"%string; two_records !! "0xbb"%string;
              None]
  /\ (exists tokens rest,
        Trending.get_trending_tokens latin_lower (QString (units_of "1"))
          QAbsent (Resolves ["0xaa"; "0xbb"; "0xcc"]%string)
          (reads two_records)
        = Status200 {| l_total := length (tokens ++ rest);
                       l_returned := length tokens;
                       l_chain := QString (units_of "all");
                       l_tokens := tokens |}
        /\ descending (tokens ++ rest))
  /\ Trending.get_trending_tokens latin_lower (QString (units_of "1"))
       (QArray [QString (units_of "base"); QString (units_of "ethereum")])
       (Resolves ["0xaa"; "0xbb"; "0xcc"]%string) (reads two_records)
     = Status500 "Failed to fetch trending tokens".
Proof.
  assert (H1 : get_all (reads two_records) ["0xaa"; "0xbb"; "0xcc"]%string
               = Resolves [two_records !! "0xaa"%string;
                           two_records !! "0xbb"%string; None])
    by (vm_compute; reflexivity).
  split; [exact H1|]. split.
  - destruct (proj1 (trending_tokens_are_the_top latin_lower
                       (QString (units_of "1")) QAbsent _ _ _ H1) I)
      as (tokens & rest & Hr & _ & Hd).
    exists tokens, rest. split; [exact Hr|exact Hd].
  - apply (proj2 (trending_tokens_are_the_top latin_lower
                    (QString (units_of "1"))
                    (QArray [QString (units_of "base");
                             QString (units_of "ethereum")]) _ _ _ H1)
             (fun once => once)).
    vm_compute. discriminate.
Defined.

Lemma trending_limit_counts_witness :
  get_all (reads two_records) ["0xaa"; "0xbb"]%string
  = Resolves [two_records !! "0xaa"%string; two_records !! "0xbb"%string]
  /\ once (QString (units_of "Base"))
  /\ exists total tokens,
       effective_limit (QArray [QString [160; 49]; QString (units_of "7")])
       = int 1
       /\ Trending.get_trending_tokens latin_lower
            (QArray [QString [160; 49]; QString (units_of "7")])
            (QString (units_of "Base"))
            (Resolves ["0xaa"; "0xbb"]%string) (reads two_records)
          = Status200 {| l_total := total; l_returned := length tokens;
                         l_chain := QString (units_of "Base");
                         l_tokens := tokens |}
       /\ Z.of_nat (length tokens) = kept (Z.of_nat total) (Int 1).
Proof.
  assert (H1 : get_all (reads two_records) ["0xaa"; "0xbb"]%string
               = Resolves [two_records !! "0xaa"%string;
                           two_records !! "0xbb"%string])
    by (vm_compute; reflexivity).
  split; [exact H1|]. split; [exact I|].
  destruct (trending_limit_counts latin_lower
              (QArray [QString [160; 49]; QString (units_of "7")])
              (QString (units_of "Base")) _ _ _ H1 I)
    as (total & tokens & _ & _ & Hexact & _ & Hr & _ & Hk).
  assert (Hl : effective_limit
                 (QArray [QString [160; 49]; QString (units_of "7")])
               = int 1).
  { apply Hexact; [reflexivity|lia|simpl; lia]. }
  exists total, tokens. split; [exact Hl|]. split; [exact Hr|].
  rewrite Hl in Hk. exact Hk.
Defined.

Lemma ties_keep_the_listing_order_witness :
  get_all (reads two_records) ["0xbb"; "0xaa"]%string
  = Resolves [two_records !! "0xbb"%string; two_records !! "0xaa"%string]
  /\ once QAbsent
  /\ exists tokens rest,
       Trending.get_trending_tokens latin_lower QAbsent QAbsent
         (Resolves ["0xbb"; "0xaa"]%string) (reads two_records)
       = Status200 {| l_total := length (tokens ++ rest);
                      l_returned := length tokens;
                      l_chain := QString (units_of "all");
                      l_tokens := tokens |}
       /\ tied 47 (tokens ++ rest) = [cached].
Proof.
  assert (H1 : get_all (reads two_records) ["0xbb"; "0xaa"]%string
               = Resolves [two_records !! "0xbb"%string;
                           two_records !! "0xaa"%string])
    by (vm_compute; reflexivity).
  split; [exact H1|]. split; [exact I|].
  destruct (ties_keep_the_listing_order latin_lower QAbsent QAbsent _ _ _ H1 I)
    as (tokens & rest & Hr & Ht).
  exists tokens, rest. split; [exact Hr|]. rewrite Ht.
  vm_compute. reflexivity.
Defined.

Lemma commands_follow_the_pipeline_witness :
  1 <= 2
  /\ Protocol.lifecycles four_tokens
       (trace (analyzeAndStoreTokens 5 slow_first_chunk ∅ four_tokens false
                 (int 2)).2).
Proof.
  assert (Hc : 1 <= 2) by lia.
  split; [exact Hc|].
  exact (ProtocolProofs.commands_follow_the_pipeline 5 slow_first_chunk ∅
           four_tokens false 2 Hc).
Defined.

Lemma hourly_refresh_keeps_the_store_witness :
  self_keyed one_record
  /\ one_record !! "0xaa"%string = Some cached
  /\ exists new,
       (Hourly.hourly_refresh 5 [] 5 (succeeds 0) one_record
          (discovers [on_ethereum]) (answers one_record)
          (Resolves ["0xaa"%string]) (reads one_record)).2 !! "0xaa"%string
       = Some new
       /\ (new = cached \/ rescored cached new).
Proof.
  assert (H1 : one_record !! "0xaa"%string = Some cached)
    by (vm_compute; reflexivity).
  split; [exact one_record_self_keyed|]. split; [exact H1|].
  destruct (HourlyProofs.hourly_refresh_keeps_the_store 5 [] 5 (succeeds 0)
              one_record (discovers [on_ethereum]) (answers one_record)
              ["0xaa"%string] (reads one_record)) as (_ & _ & _ & Hkeep).
  exact (Hkeep one_record_self_keyed (fun k => eq_refl) _ _ H1).
Defined.

Lemma other_values_are_unchanged_witness :
  settled plain_report = true
  /\ stringifyBigInts plain_report = plain_report
  /\ plain wallet_report = true
  /\ stringifyBigInts (stringifyBigInts wallet_report)
     = stringifyBigInts wallet_report.
Proof.
  assert (H1 : settled plain_report = true) by reflexivity.
  assert (H2 : plain wallet_report = true) by reflexivity.
  split; [exact H1|].
  split; [exact (proj1 other_values_are_unchanged _ H1)|].
  split; [exact H2|exact (proj2 other_values_are_unchanged _ H2)].
Defined.

Lemma debug_agrees_with_the_batch_witness :
  point (at_metadata on_ethereum [1%nat; 2%nat])
  = AwaitMetadata (Some [1%nat; 2%nat])
  /\ match get_debug_analyze "0xaa" (Resolves (Some [1%nat; 2%nat]))
             (Resolves (Some tt)) with
     | DebugReport addr score raw data =>
         exists s1,
           resume false (at_metadata on_ethereum [1%nat; 2%nat])
             (GotMetadata (Some tt)) 0 holding
           = Some (move (at_metadata on_ethereum [1%nat; 2%nat])
                     (AwaitSet addr (record_of on_ethereum score 0 raw)), s1)
     | DebugError _ _ => False
     end.
Proof.
  assert (Hp : point (at_metadata on_ethereum [1%nat; 2%nat])
               = AwaitMetadata (Some [1%nat; 2%nat])) by reflexivity.
  split; [exact Hp|].
  destruct (debug_agrees_with_the_batch false
              (at_metadata on_ethereum [1%nat; 2%nat]) [1%nat; 2%nat]
              (Some tt) 0 holding Hp) as [Hsame _].
  destruct Hsame as (_ & _ & _ & _ & s1 & Hr & _).
  exists s1. exact Hr.
Defined.

Lemma stats_describe_every_chain_witness :
  get_all (reads two_records) ["0xaa"; "0xbb"]%string
  = Resolves [two_records !! "0xaa"%string; two_records !! "0xbb"%string]
  /\ exists distribution,
       Stats.get_stats (Resolves ["0xaa"; "0xbb"]%string) (reads two_records)
         "2026-01-01T00:00:00.000Z"
       = Stats.StatsBody 2 distribution "2026-01-01T00:00:00.000Z"
       /\ Stats.describes distribution "Base"
            (omap id [two_records !! "0xaa"%string;
                      two_records !! "0xbb"%string])
       /\ distribution !! "constructor"%string = None.
Proof.
  assert (H1 : get_all (reads two_records) ["0xaa"; "0xbb"]%string
               = Resolves [two_records !! "0xaa"%string;
                           two_records !! "0xbb"%string])
    by (vm_compute; reflexivity).
  split; [exact H1|].
  destruct (stats_describe_every_chain _ _ "2026-01-01T00:00:00.000Z" _ H1)
    as (distribution & Hr & Hd & Hi).
  exists distribution. split; [exact Hr|].
  split; [exact (Hd "Base"%string eq_refl)|exact (Hi "constructor"%string eq_refl)].
Defined.

End MoreExamples.
